(** * Branch cleanup orchestrator: shallow embedding and verified properties

    The development embeds the branch-cleanup tool of the repository
    (cleanup.ts, ghql.ts, backup-and-delete.ts, permissions.ts,
    reporters.ts) as Rocq functions.  Asynchronous methods that talk to
    the hosting API become computations in a state-and-exception monad
    over an abstract host (the Octokit client, the dayjs clock, the
    regular-expression engine, timers and the file system). *)

From Stdlib Require Import ZArith Ascii String Permutation.
From stdpp Require Import gmap strings list pretty.

Local Open Scope Z_scope.

(** ** JavaScript string primitives used by the tool *)

Module Js.

Definition lower_ascii (c : ascii) : ascii :=
  let n := Ascii.N_of_ascii c in
  if (65 <=? n)%N && (n <=? 90)%N then Ascii.ascii_of_N (n + 32) else c.

(** [String.prototype.toLowerCase] on the ASCII range.  Bytes above 127
    are left alone; no non-ASCII character lowers to an ASCII letter of
    the word the tool searches for. *)
Fixpoint toLowerCase (s : string) : string :=
  match s with
  | EmptyString => EmptyString
  | String c s' => String (lower_ascii c) (toLowerCase s')
  end.

(** [s.includes(needle)] *)
Fixpoint includes (s needle : string) : bool :=
  String.prefix needle s ||
  match s with
  | EmptyString => false
  | String _ s' => includes s' needle
  end.

Definition drop (n : nat) (s : string) : string :=
  String.substring n (String.length s - n) s.

(** [s.replace(pat, rep)] with a string pattern: first occurrence only. *)
Fixpoint replace (pat rep s : string) : string :=
  if String.prefix pat s then rep +:+ drop (String.length pat) s
  else match s with
       | EmptyString => EmptyString
       | String c s' => String c (replace pat rep s')
       end.

(** [s.replace(/c/g, rep)] for a one-character pattern: every occurrence. *)
Fixpoint replaceAllChar (c : ascii) (rep : string) (s : string) : string :=
  match s with
  | EmptyString => EmptyString
  | String d s' =>
      (if Ascii.eqb c d then rep else String d EmptyString)
        +:+ replaceAllChar c rep s'
  end.

Fixpoint repeat (pad : string) (n : nat) : string :=
  match n with
  | O => EmptyString
  | S n' => pad +:+ repeat pad n'
  end.

(** dayjs' [padStart(string, length, pad)] helper. *)
Definition padStart (s : string) (len : nat) (pad : string) : string :=
  if (len <=? String.length s)%nat then s
  else repeat pad (len - String.length s) +:+ s.

(** Truthiness of a string: the empty string is falsy. *)
Definition truthy (s : string) : bool := negb (String.eqb s EmptyString).

End Js.

(** ** Thrown values *)

(** An [Error] instance, possibly carrying the [status] field that
    Octokit's request errors have. *)
Record JsError := mkJsError {
  err_name : string;
  err_message : string;
  err_status : option Z;
}.

(** [Error.prototype.toString] *)
Definition error_toString (e : JsError) : string :=
  if negb (Js.truthy (err_name e)) then err_message e
  else if negb (Js.truthy (err_message e)) then err_name e
  else err_name e +:+ ": " +:+ err_message e.

(** [error.status === n] *)
Definition status_is (e : JsError) (n : Z) : bool :=
  match err_status e with
  | Some k => Z.eqb k n
  | None => false
  end.

Definition Result (A : Type) : Type := JsError + A.

Definition is_ok {A} (r : Result A) : bool :=
  match r with inl _ => false | inr _ => true end.

(** ** Data model (ghql.ts, cleanup.ts, reporters.ts) *)

Record MergedPR := mkMergedPR {
  number : Z;
  pr_mergedAt : string;
  headRefName : string;
  headRefOid : string;
  baseRefName : string;
}.

Record BranchInfo := mkBranchInfo {
  bi_name : string;
  bi_protected : bool;
  bi_exists : bool;
}.

Record CompareResult := mkCompareResult {
  cmp_status : string;
  ahead_by : Z;
  behind_by : Z;
}.

Record BranchCandidate := mkBranchCandidate {
  branchName : string;
  sha : string;
  prNumber : option Z;
  mergedAt : option string;
}.

Inductive ActionTaken :=
| Deleted
| SkippedUnsafe
| SkippedTooRecent
| SkippedProtected
| SkippedExcluded
| ProtectedRuleBlocked
| TokenInsufficient
| AlreadyDeleted
| Error.

Global Instance ActionTaken_eq_dec : EqDecision ActionTaken.
Proof. solve_decision. Defined.

(** The string each action is in the source; it is the key of [byStatus]. *)
Definition action_name (a : ActionTaken) : string :=
  match a with
  | Deleted => "Deleted"
  | SkippedUnsafe => "SkippedUnsafe"
  | SkippedTooRecent => "SkippedTooRecent"
  | SkippedProtected => "SkippedProtected"
  | SkippedExcluded => "SkippedExcluded"
  | ProtectedRuleBlocked => "ProtectedRuleBlocked"
  | TokenInsufficient => "TokenInsufficient"
  | AlreadyDeleted => "AlreadyDeleted"
  | Error => "Error"
  end.

Record CleanupRecord := mkCleanupRecord {
  org : string;
  repo : string;
  branch : string;
  headSha : string;
  mergedPr : option Z;
  rec_mergedAt : option string;
  defaultBranch : string;
  protected : bool;
  actionTaken : ActionTaken;
  backupTag : string;
  error : string;
}.

Record ReportSummary := mkReportSummary {
  totalBranches : nat;
  deleted : nat;
  skipped : nat;
  errors : nat;
  byStatus : gmap string nat;
  byRepo : gmap string nat;
}.

(** The result of [backupAndDelete]: a union tagged by [status]. *)
Inductive DeletionResult :=
| ResDeleted (backupTag : string)
| ResProtectedRuleBlocked (error : string)
| ResTokenInsufficient (error : string)
| ResAlreadyDeleted (error : string)
| ResError (error : string).

Definition status (r : DeletionResult) : ActionTaken :=
  match r with
  | ResDeleted _ => Deleted
  | ResProtectedRuleBlocked _ => ProtectedRuleBlocked
  | ResTokenInsufficient _ => TokenInsufficient
  | ResAlreadyDeleted _ => AlreadyDeleted
  | ResError _ => Error
  end.

(** ['backupTag' in result ? result.backupTag : ''] *)
Definition result_backupTag (r : DeletionResult) : string :=
  match r with ResDeleted t => t | _ => EmptyString end.

(** ['error' in result ? result.error : ''] *)
Definition result_error (r : DeletionResult) : string :=
  match r with
  | ResDeleted _ => EmptyString
  | ResProtectedRuleBlocked e | ResTokenInsufficient e
  | ResAlreadyDeleted e | ResError e => e
  end.

Record SafetyConfig := mkSafetyConfig {
  create_backup_tag : bool;
  backup_tag_prefix : string;
  backup_ttl_days : Z;
  minimum_age_days : Z;
}.

Record Config := mkConfig {
  orgs : list (string * list string);
  branch_patterns : list string;
  exclude_patterns : list string;
  safety : SafetyConfig;
  max_concurrency : Z;
  per_repo_delay_ms : Z;
}.

(** ** Reporter.getSummary and Reporter.hasErrors (reporters.ts) *)

Module Reporter.

(** [if (!m[k]) m[k] = 0; m[k]++] on a counter object.  The keys are
    action names and [org/repo] pairs, none of which is a property
    that objects inherit, so a finite map is an exact model. *)
Definition bump (k : string) (m : gmap string nat) : gmap string nat :=
  let m0 :=
    match m !! k with
    | None | Some O => <[k := O]> m
    | Some (S _) => m
    end in
  <[k := S (default O (m0 !! k))]> m0.

Definition count_record (summary : ReportSummary) (record : CleanupRecord)
  : ReportSummary :=
  let repoKey := org record +:+ "/" +:+ repo record in
  let a := actionTaken record in
  {| totalBranches := totalBranches summary;
     deleted := if decide (a = Deleted) then S (deleted summary)
                else deleted summary;
     skipped := if decide (a = Deleted) then skipped summary
                else if decide (a = Error) then skipped summary
                else S (skipped summary);
     errors := if decide (a = Deleted) then errors summary
               else if decide (a = Error) then S (errors summary)
               else errors summary;
     byStatus := bump (action_name a) (byStatus summary);
     byRepo := bump repoKey (byRepo summary) |}.

Definition getSummary (records : list CleanupRecord) : ReportSummary :=
  fold_left count_record records
    {| totalBranches := length records;
       deleted := O; skipped := O; errors := O;
       byStatus := ∅; byRepo := ∅ |}.

Definition hasErrors (records : list CleanupRecord) : bool :=
  existsb (fun r => bool_decide (actionTaken r = Error)) records.

End Reporter.

(** ** The host: Octokit, dayjs, RegExp, timers, the file system *)

(** The REST and GraphQL requests the tool issues, with the parameters
    that vary:
    - [GetRepo]: GET /repos/{owner}/{repo}
    - [QueryMergedPRs]: the paginated GraphQL query for merged pull
      requests, most recently updated first; a page that fails makes
      the whole enumeration fail
    - [GetBranch]: GET /repos/{owner}/{repo}/branches/{branch}
    - [GetCompare]: GET /repos/{owner}/{repo}/compare/{basehead}
    - [PostTag]: POST /repos/{owner}/{repo}/git/tags (type commit)
    - [PostRef]: POST /repos/{owner}/{repo}/git/refs
    - [DeleteRef]: DELETE /repos/{owner}/{repo}/git/refs/{ref}
    - [PatchRepo]: PATCH /repos/{owner}/{repo} with
      delete_branch_on_merge set
    - [GetIssues]: GET /repos/{owner}/{repo}/issues, open issues
      labelled automation and branch-cleanup, ten per page
    - [PostIssue]: POST /repos/{owner}/{repo}/issues with the labels
      automation, branch-cleanup and permissions
    - [GetTags]: GET /repos/{owner}/{repo}/tags, a hundred per page: the
      names of the tags of the first page *)
Inductive Request :=
| GetRepo (owner repo : string)
| QueryMergedPRs (owner repo : string)
| GetBranch (owner repo branch : string)
| GetCompare (owner repo basehead : string)
| PostTag (owner repo tag message object : string)
| PostRef (owner repo ref sha : string)
| DeleteRef (owner repo ref : string)
| PatchRepo (owner repo : string)
| GetIssues (owner repo : string)
| PostIssue (owner repo title body : string)
| GetTags (owner repo : string).

Record RepoData := mkRepoData {
  default_branch : string;
  permissions : option (bool * bool);
  delete_branch_on_merge : bool;
}.

(** The [data] each request resolves to. *)
Definition Resp (r : Request) : Type :=
  match r with
  | GetRepo _ _ => RepoData
  | QueryMergedPRs _ _ => list (list MergedPR)
  | GetBranch _ _ _ => bool
  | GetCompare _ _ _ => CompareResult
  | PostTag _ _ _ _ _ => string
  | PostRef _ _ _ _ => unit
  | DeleteRef _ _ _ => unit
  | PatchRepo _ _ => unit
  | GetIssues _ _ => list string
  | PostIssue _ _ _ _ => unit
  | GetTags _ _ => list string
  end.

(** A request that alters the remote repository. *)
Definition mutating (r : Request) : bool :=
  match r with
  | PostTag _ _ _ _ _ | PostRef _ _ _ _ | DeleteRef _ _ _
  | PatchRepo _ _ | PostIssue _ _ _ _ => true
  | _ => false
  end.

(** A dayjs instant: what [valueOf], [utcOffset], the local calendar
    fields and [toISOString] return. *)
Record Dayjs := mkDayjs {
  dj_ms : Z;
  dj_utcOffset : Z;
  dj_year : Z;
  dj_month : Z;
  dj_date : Z;
  dj_iso : string;
}.

Class Host (W : Type) := {
  (** [octokit.request(...)] / the paginated GraphQL query *)
  octokit_request : ∀ r : Request, W → Result (Resp r) * W;
  (** [dayjs()] *)
  dayjs_now : W → Dayjs;
  (** [dayjs(str)]; [None] is an invalid date *)
  dayjs_parse : string → option Dayjs;
  (** [new RegExp(source).test(subject)]; the constructor may throw *)
  regexp_test : string → string → Result bool;
  (** the passage of [ms] milliseconds on a timer *)
  timer_elapse : Z → W → W;
  (** the file output of [Reporter.writeReports] *)
  fs_writeReports : bool → list CleanupRecord → W → Result unit * W;
}.

Record Call := mkCall {
  call_request : Request;
  call_ok : bool;
}.

(** The state of one run: the host, the requests issued so far, the
    [issueCache] of the permissions handler and the reporter's records. *)
Record Run (W : Type) := mkRun {
  world : W;
  calls : list Call;
  issueCache : gset string;
  records : list CleanupRecord;
}.
Arguments mkRun {W}.
Arguments world {W}.
Arguments calls {W}.
Arguments issueCache {W}.
Arguments records {W}.

(** ** Asynchronous computations: state and exceptions *)

Definition M (W A : Type) : Type := Run W → Result A * Run W.

Definition ret {W A} (a : A) : M W A := fun s => (inr a, s).

Definition throw {W A} (e : JsError) : M W A := fun s => (inl e, s).

Definition bind {W A B} (m : M W A) (k : A → M W B) : M W B :=
  fun s =>
    match m s with
    | (inl e, s') => (inl e, s')
    | (inr a, s') => k a s'
    end.

Definition try_catch {W A} (m : M W A) (handler : JsError → M W A) : M W A :=
  fun s =>
    match m s with
    | (inl e, s') => handler e s'
    | (inr a, s') => (inr a, s')
    end.

Definition lift {W A} (r : Result A) : M W A := fun s => (r, s).

Declare Scope async_scope.
Delimit Scope async_scope with async.
Notation "'let*' x ':=' m 'in' k" := (bind m (fun x => k))
  (at level 10, x name, m at level 100, k at level 200) : async_scope.
Notation "m ;;; k" := (bind m (fun _ => k))
  (at level 100, right associativity) : async_scope.

(** ** RegExp tester for plain glob-derived sources

    A matcher for sources of the shape [^ p $] where [p] is made of
    ASCII characters that are not regular-expression syntax, of [.] and
    of postfix [*]: what branch globs such as [bot/*] turn into.  It
    serves as the engine of the reference model below. *)

Module SimpleRegExp.

Inductive Atom := Lit (c : ascii) | AnyChar.
Inductive Piece := One (a : Atom) | Star (a : Atom).

Definition atom_of (c : ascii) : Atom :=
  if Ascii.eqb c "." then AnyChar else Lit c.

(** A [*] turns the piece before it into a repetition; with nothing
    to repeat the source is not a regular expression. *)
Fixpoint parse (acc : list Piece) (s : string) : option (list Piece) :=
  match s with
  | EmptyString => Some (rev acc)
  | String c s' =>
      if Ascii.eqb c "*" then
        match acc with
        | One a :: acc' => parse (Star a :: acc') s'
        | _ => None
        end
      else parse (One (atom_of c) :: acc) s'
  end.

Definition atom_ok (a : Atom) (c : ascii) : bool :=
  match a with
  | Lit d => Ascii.eqb c d
  | AnyChar => negb (Ascii.eqb c "010" || Ascii.eqb c "013")
  end.

Fixpoint matches (ps : list Piece) (s : string) : bool :=
  match ps with
  | [] => negb (Js.truthy s)
  | One a :: ps' =>
      match s with
      | EmptyString => false
      | String c s' => atom_ok a c && matches ps' s'
      end
  | Star a :: ps' =>
      (fix star (s : string) : bool :=
         matches ps' s ||
         match s with
         | EmptyString => false
         | String c s' => atom_ok a c && star s'
         end) s
  end.

(** Strip the leading [^] and the trailing [$] the tool always adds. *)
Definition body (source : string) : string :=
  String.substring 1 (String.length source - 2) source.

Definition test (source subject : string) : Result bool :=
  match parse [] (body source) with
  | Some ps => inr (matches ps subject)
  | None =>
      inl {| err_name := "SyntaxError";
             err_message := "Invalid regular expression: Nothing to repeat";
             err_status := None |}
  end.

End SimpleRegExp.

(** ** The tool, over any host *)

Section Tool.

Context {W : Type} `{Host W}.
Local Open Scope async_scope.

Definition nl : string := String "010" EmptyString.
Definition dq : string := String "034" EmptyString.

(** [await this.octokit.request(...)]: the host answers, and the call
    is entered in the log. *)
Definition request (r : Request) : M W (Resp r) :=
  fun s =>
    let '(res, w') := octokit_request r (world s) in
    (res, {| world := w';
             calls := calls s ++ [mkCall r (is_ok res)];
             issueCache := issueCache s;
             records := records s |}).

Definition dayjs : M W Dayjs := fun s => (inr (dayjs_now (world s)), s).

Definition delay (ms : Z) : M W unit :=
  fun s =>
    (inr tt, {| world := timer_elapse ms (world s);
                calls := calls s;
                issueCache := issueCache s;
                records := records s |}).

(** *** GitHubQLClient (ghql.ts) *)

Definition getDefaultBranch (owner repo : string) : M W string :=
  let* data := request (GetRepo owner repo) in
  ret (default_branch data).

Definition getMergedPRs (owner repo : string) : M W (list MergedPR) :=
  let* pages := request (QueryMergedPRs owner repo) in
  ret (concat pages).

Definition checkBranch (owner repo branch : string) : M W BranchInfo :=
  try_catch
    (let* data := request (GetBranch owner repo branch) in
     ret {| bi_name := branch; bi_protected := data; bi_exists := true |})
    (fun error =>
       if status_is error 404
       then ret {| bi_name := branch; bi_protected := false;
                   bi_exists := false |}
       else throw error).

Definition compareCommits (owner repo base head : string)
  : M W CompareResult :=
  try_catch
    (let* data := request (GetCompare owner repo (base +:+ "..." +:+ head)) in
     ret {| cmp_status := cmp_status data;
            ahead_by := ahead_by data;
            behind_by := behind_by data |})
    (fun error =>
       if status_is error 404
       then ret {| cmp_status := "diverged"; ahead_by := 0; behind_by := 0 |}
       else throw error).

Definition isBranchReachable (owner repo base head : string) : M W bool :=
  let* result := compareCommits owner repo base head in
  ret (String.eqb (cmp_status result) "behind"
       || String.eqb (cmp_status result) "identical").

(** *** BranchBackupAndDelete (backup-and-delete.ts) *)

(** [dayjs().format('YYYYMMDD')] *)
Definition format_YYYYMMDD (d : Dayjs) : string :=
  Js.padStart (pretty (dj_year d)) 4 "0"
    +:+ Js.padStart (pretty (dj_month d + 1)) 2 "0"
    +:+ Js.padStart (pretty (dj_date d)) 2 "0".

Definition getBackupTagName (config : SafetyConfig) (branchName : string)
  : M W string :=
  let sanitizedBranch := Js.replaceAllChar "/" "-" branchName in
  let* now := dayjs in
  let date := format_YYYYMMDD now in
  ret (backup_tag_prefix config +:+ "/" +:+ sanitizedBranch +:+ "/" +:+ date).

Definition createBackupTag (config : SafetyConfig)
    (owner repo branchName sha : string) : M W string :=
  let* tagName := getBackupTagName config branchName in
  let* now := dayjs in
  let message :=
    "Backup tag for branch " +:+ branchName +:+ " before cleanup" +:+ nl
      +:+ "Created: " +:+ dj_iso now +:+ nl
      +:+ "TTL: " +:+ pretty (backup_ttl_days config) +:+ " days" in
  let* tagObject := request (PostTag owner repo tagName message sha) in
  (request (PostRef owner repo ("refs/tags/" +:+ tagName) tagObject) ;;;
   ret tagName).

Definition deleteBranch (owner repo branchName : string) : M W unit :=
  request (DeleteRef owner repo ("heads/" +:+ branchName)).

(** [error.status || 0] *)
Definition error_status (error : JsError) : Z :=
  match err_status error with
  | Some k => if k =? 0 then 0 else k
  | None => 0
  end.

(** [error.message || String(error)] *)
Definition error_message (error : JsError) : string :=
  if Js.truthy (err_message error) then err_message error
  else error_toString error.

Definition handleDeletionError (error : JsError) : DeletionResult :=
  let status := error_status error in
  let message := error_message error in
  if status =? 403 then
    if Js.includes (Js.toLowerCase message) "protected" then
      ResProtectedRuleBlocked message
    else if Js.includes (Js.toLowerCase message) "resource not accessible" then
      ResTokenInsufficient message
    else ResTokenInsufficient message
  else if status =? 422 then ResAlreadyDeleted "Branch reference not found"
  else if status =? 404 then ResAlreadyDeleted "Branch not found"
  else ResError message.

(** The [try] block of [backupAndDelete]. *)
Definition backupAndDelete_try (config : SafetyConfig)
    (owner repo branchName sha : string) (dryRun : bool)
  : M W DeletionResult :=
  let* backupTag :=
    (if create_backup_tag config && negb dryRun then
       createBackupTag config owner repo branchName sha
     else if create_backup_tag config && dryRun then
       getBackupTagName config branchName
     else ret EmptyString) in
  ((if negb dryRun then deleteBranch owner repo branchName else ret tt) ;;;
   ret (ResDeleted backupTag)).

Definition backupAndDelete (config : SafetyConfig)
    (owner repo branchName sha : string) (dryRun : bool)
  : M W DeletionResult :=
  try_catch
    (backupAndDelete_try config owner repo branchName sha dryRun)
    (fun error => ret (handleDeletionError error)).

(** *** PermissionsHandler (permissions.ts) *)

Record PermissionCheckResult := mkPermissionCheckResult {
  canDelete : bool;
  canAdmin : bool;
  autoDeleteEnabled : bool;
  perm_error : option string;
}.

Definition checkPermissions (owner repo : string)
  : M W PermissionCheckResult :=
  try_catch
    (let* data := request (GetRepo owner repo) in
     ret {| canDelete := match permissions data with
                         | Some (push, _) => push || false
                         | None => false
                         end;
            canAdmin := match permissions data with
                        | Some (_, admin) => admin || false
                        | None => false
                        end;
            autoDeleteEnabled := delete_branch_on_merge data || false;
            perm_error := None |})
    (fun error =>
       ret {| canDelete := false; canAdmin := false;
              autoDeleteEnabled := false;
              perm_error := Some (err_message error) |}).

Definition enableAutoDelete (owner repo : string) (dryRun : bool)
  : M W bool :=
  if dryRun then ret true
  else
    try_catch
      (request (PatchRepo owner repo) ;;; ret true)
      (fun error => if status_is error 403 then ret false else throw error).

Definition generateIssueBody (owner repo : string) (blockedCount : Z)
  : string :=
  "## Branch Cleanup Permissions Required

The automated branch cleanup tool needs additional permissions to manage merged branches effectively.

### Current Status
- **Blocked branches**: " +:+ pretty blockedCount +:+ "
- **Required permissions**: `Contents: Read & write`, `Repository administration: Read & write`

### Why These Permissions?

1. **Contents (Read & write)**: Delete branch references
2. **Repository administration (Read & write)**: Enable `delete_branch_on_merge` setting

### Action Required

#### Option 1: Enable Auto-Delete on Merge (Recommended)

Run this command to automatically delete branches when PRs are merged:

```bash
gh api -X PATCH repos/" +:+ owner +:+ "/" +:+ repo +:+ " -f delete_branch_on_merge=true
```

#### Option 2: Grant Token Permissions

If using a fine-grained PAT for `BRANCH_CLEANUP_TOKEN`:

1. Go to: https://github.com/settings/tokens
2. Edit the token used for branch cleanup
3. Under " +:+ dq +:+ "Repository permissions" +:+ dq +:+ ":
   - Set **Contents** to `Read & write`
   - Set **Administration** to `Read & write`
4. Save and re-run the cleanup workflow

#### Option 3: GitHub App

If using a GitHub App:

1. Update app permissions to include `administration:write` and `contents:write`
2. Re-install the app to this repository

### Manual Cleanup Script

If you prefer to clean up branches manually:

```bash
# List merged branches
git branch -r --merged origin/main | grep 'bot/\|claude/\|codex/'

# Delete specific branch
git push origin --delete branch-name
```

### References

- [GitHub API - Update Repository](https://docs.github.com/en/rest/repos/repos#update-a-repository)
- [Fine-grained PAT Permissions](https://docs.github.com/en/authentication/keeping-your-account-and-data-secure/managing-your-personal-access-tokens#creating-a-fine-grained-personal-access-token)

---

**Note**: This issue was automatically created by the branch cleanup workflow. Close it once permissions are granted.
".

Definition issue_title : string :=
  "Grant admin/contents permissions for branch cleanup (+ enable auto-delete)".

Definition issueCache_has (issueKey : string) : M W bool :=
  fun s => (inr (bool_decide (issueKey ∈ issueCache s)), s).

Definition issueCache_add (issueKey : string) : M W unit :=
  fun s =>
    (inr tt, {| world := world s;
                calls := calls s;
                issueCache := {[issueKey]} ∪ issueCache s;
                records := records s |}).

Definition createPermissionIssue (owner repo : string) (blockedCount : Z)
    (dryRun : bool) : M W unit :=
  let issueKey := owner +:+ "/" +:+ repo in
  let* cached := issueCache_has issueKey in
  if cached then ret tt
  else
    let title := issue_title in
    let body := generateIssueBody owner repo blockedCount in
    if dryRun then issueCache_add issueKey
    else
      try_catch
        (let* existingIssues := request (GetIssues owner repo) in
         let exists_ := existsb (fun issue => String.eqb issue title)
                          existingIssues in
         if exists_ then issueCache_add issueKey
         else
           (request (PostIssue owner repo title body) ;;;
            issueCache_add issueKey))
        (fun error => ret tt).

(** *** CleanupOrchestrator (cleanup.ts) *)

(** [patterns.some(p => new RegExp('^' + p.replace('*', '.*') + '$')
    .test(branchName))]: stops at the first match; a source the engine
    rejects throws. *)
Fixpoint some_pattern (patterns : list string) (branchName : string)
  : Result bool :=
  match patterns with
  | [] => inr false
  | pattern :: rest =>
      match regexp_test ("^" +:+ Js.replace "*" ".*" pattern +:+ "$")
              branchName with
      | inl e => inl e
      | inr true => inr true
      | inr false => some_pattern rest branchName
      end
  end.

Definition matchesPatterns (config : Config) (branchName : string)
  : Result bool :=
  some_pattern (branch_patterns config) branchName.

Definition isExcluded (config : Config) (branchName : string)
  : Result bool :=
  some_pattern (exclude_patterns config) branchName.

(** The [Map<string, BranchCandidate>] of [findCandidates], in insertion
    order. *)
Definition map_has (key : string) (m : list (string * BranchCandidate))
  : bool :=
  existsb (fun kv => String.eqb (fst kv) key) m.

Fixpoint map_set (key : string) (v : BranchCandidate)
    (m : list (string * BranchCandidate)) : list (string * BranchCandidate) :=
  match m with
  | [] => [(key, v)]
  | (k, v') :: m' =>
      if String.eqb k key then (k, v) :: m' else (k, v') :: map_set key v m'
  end.

Definition candidate_of (pr : MergedPR) : BranchCandidate :=
  {| branchName := headRefName pr;
     sha := headRefOid pr;
     prNumber := Some (number pr);
     mergedAt := Some (pr_mergedAt pr) |}.

(** The [for (const pr of mergedPRs)] loop of [findCandidates]. *)
Fixpoint collectCandidates (config : Config) (defaultBranch : string)
    (mergedPRs : list MergedPR) (candidates : list (string * BranchCandidate))
  : Result (list (string * BranchCandidate)) :=
  match mergedPRs with
  | [] => inr candidates
  | pr :: rest =>
      if negb (String.eqb (baseRefName pr) defaultBranch) then
        collectCandidates config defaultBranch rest candidates
      else
        match matchesPatterns config (headRefName pr) with
        | inl e => inl e
        | inr false => collectCandidates config defaultBranch rest candidates
        | inr true =>
            match isExcluded config (headRefName pr) with
            | inl e => inl e
            | inr true =>
                collectCandidates config defaultBranch rest candidates
            | inr false =>
                if negb (map_has (headRefName pr) candidates) then
                  collectCandidates config defaultBranch rest
                    (map_set (headRefName pr) (candidate_of pr) candidates)
                else collectCandidates config defaultBranch rest candidates
            end
        end
  end.

Definition findCandidates (config : Config)
    (owner repo defaultBranch : string) : M W (list BranchCandidate) :=
  let* mergedPRs := getMergedPRs owner repo in
  let* candidates := lift (collectCandidates config defaultBranch mergedPRs []) in
  ret (map snd candidates).

(** [this.diff(that, 'days')] of dayjs: whole days, truncated toward
    zero, after the correction for the two instants' UTC offsets. *)
Definition diff_days (this that : Dayjs) : Z :=
  let zoneDelta := (dj_utcOffset that - dj_utcOffset this) * 60000 in
  let diff := dj_ms this - dj_ms that in
  Z.quot (diff - zoneDelta) 86400000.

(** [dayjs().diff(dayjs(mergedAt), 'days')]; [None] is NaN. *)
Definition ageInDays (now : Dayjs) (mergedAt : string) : option Z :=
  match dayjs_parse mergedAt with
  | Some mergedDate => Some (diff_days now mergedDate)
  | None => None
  end.

Definition baseRecord (owner repo defaultBranch : string)
    (candidate : BranchCandidate) (protected : bool)
    (actionTaken : ActionTaken) (backupTag error : string) : CleanupRecord :=
  {| org := owner;
     repo := repo;
     branch := branchName candidate;
     headSha := sha candidate;
     mergedPr := prNumber candidate;
     rec_mergedAt := mergedAt candidate;
     defaultBranch := defaultBranch;
     protected := protected;
     actionTaken := actionTaken;
     backupTag := backupTag;
     error := error |}.

(** The age gate of [processBranch]: [Some n] when the candidate is
    [n] days old and that is below the minimum. *)
Definition tooRecent (config : Config) (now : Dayjs)
    (candidate : BranchCandidate) : option Z :=
  match mergedAt candidate with
  | Some m =>
      if Js.truthy m then
        match ageInDays now m with
        | Some age =>
            if age <? minimum_age_days (safety config) then Some age else None
        | None => None
        end
      else None
  | None => None
  end.

(** The part of [processBranch] after the existence and protection
    checks have passed and the age gate did not fire. *)
Definition reachAndDelete (config : Config) (dryRun : bool)
    (owner repo defaultBranch : string) (candidate : BranchCandidate)
    (protected : bool) : M W CleanupRecord :=
  let record := baseRecord owner repo defaultBranch candidate protected in
  let* isReachable :=
    isBranchReachable owner repo defaultBranch (branchName candidate) in
  if negb isReachable then
    ret (record SkippedUnsafe EmptyString
           "Branch has commits not in default branch")
  else
    let* result :=
      backupAndDelete (safety config) owner repo (branchName candidate)
        (sha candidate) dryRun in
    ret (record (status result) (result_backupTag result)
           (result_error result)).

Definition processBranch (config : Config) (dryRun : bool)
    (owner repo defaultBranch : string) (candidate : BranchCandidate)
  : M W CleanupRecord :=
  let* branchInfo := checkBranch owner repo (branchName candidate) in
  let record :=
    baseRecord owner repo defaultBranch candidate (bi_protected branchInfo) in
  if negb (bi_exists branchInfo) then
    ret (baseRecord owner repo defaultBranch candidate false
           AlreadyDeleted EmptyString EmptyString)
  else if bi_protected branchInfo then
    ret (record SkippedProtected EmptyString EmptyString)
  else
    let* now := dayjs in
    match tooRecent config now candidate with
    | Some age =>
        ret (record SkippedTooRecent EmptyString
               ("Only " +:+ pretty age +:+ " days old"))
    | None =>
        reachAndDelete config dryRun owner repo defaultBranch candidate
          (bi_protected branchInfo)
    end.

Definition addRecord (record : CleanupRecord) : M W unit :=
  fun s =>
    (inr tt, {| world := world s;
                calls := calls s;
                issueCache := issueCache s;
                records := records s ++ [record] |}).

Definition isBlocked (a : ActionTaken) : bool :=
  bool_decide (a = ProtectedRuleBlocked) || bool_decide (a = TokenInsufficient).

(** The [for (const candidate of candidates)] loop of [processRepo]. *)
Fixpoint processCandidates (config : Config) (dryRun : bool)
    (owner repo defaultBranch : string) (candidates : list BranchCandidate)
    (blockedCount : Z) : M W Z :=
  match candidates with
  | [] => ret blockedCount
  | candidate :: rest =>
      (delay (per_repo_delay_ms config) ;;;
       let* result :=
         processBranch config dryRun owner repo defaultBranch candidate in
       let blockedCount' :=
         if isBlocked (actionTaken result) then blockedCount + 1
         else blockedCount in
       (addRecord result ;;;
        processCandidates config dryRun owner repo defaultBranch rest
          blockedCount'))
  end.

(** The [try] block of [processRepo]. *)
Definition processRepo_try (config : Config) (dryRun : bool)
    (owner repo : string) : M W unit :=
  let* perms := checkPermissions owner repo in
  if negb (canDelete perms) then ret tt
  else
    let* defaultBranch := getDefaultBranch owner repo in
    let* candidates := findCandidates config owner repo defaultBranch in
    if (length candidates =? 0)%nat then ret tt
    else
      let* blockedCount :=
        processCandidates config dryRun owner repo defaultBranch
          candidates 0 in
      if negb (autoDeleteEnabled perms) then
        let* enabled := enableAutoDelete owner repo dryRun in
        if negb enabled && (0 <? blockedCount) then
          createPermissionIssue owner repo blockedCount dryRun
        else ret tt
      else ret tt.

Definition processRepo (config : Config) (dryRun : bool)
    (owner repo : string) : M W unit :=
  try_catch (processRepo_try config dryRun owner repo)
    (fun error => ret tt).

(** The repositories of the configuration, in the order [run] queues
    them. *)
Definition repoTasks (config : Config) : list (string * string) :=
  flat_map (fun o => map (fun r => (fst o, r)) (snd o)) (orgs config).

Definition writeReports (dryRun : bool) : M W unit :=
  fun s =>
    let '(res, w') := fs_writeReports dryRun (records s) (world s) in
    (res, {| world := w';
             calls := calls s;
             issueCache := issueCache s;
             records := records s |}).

Definition hasErrors : M W bool :=
  fun s => (inr (Reporter.hasErrors (records s)), s).

End Tool.

(** ** Calls that run side by side

    The computations above describe a call that runs with no other call
    in between.  [run] hands the passes over the repositories to
    [pLimit(max_concurrency)] and awaits them together, so that up to
    [max_concurrency] passes are in progress at a time, on one reporter,
    one permission handler and one remote.  A pass is therefore also
    given as the steps it takes on the shared state: between two steps
    of one call, steps of the other calls in progress may take place.
    A step is what the pass does at one [await] of a request or of the
    delay, a request being answered in one piece (the enumeration of
    the merged pull requests, one request here, is one step); the
    accesses to the clock, the records and the issue cache are steps of
    their own, so that what the event loop runs without interruption is
    a run of consecutive steps of one pass. *)

(** An asynchronous call in progress: settled, or waiting for its next
    step [io], with what it goes on to do with the outcome. *)
Inductive Task (W A : Type) : Type :=
| Settled (r : Result A)
| Await {X : Type} (io : M W X) (k : Result X → Task W A).
Arguments Settled {W A}.
Arguments Await {W A X}.

Definition task_ret {W A} (a : A) : Task W A := Settled (inr a).

Definition task_throw {W A} (e : JsError) : Task W A := Settled (inl e).

(** One step: [io] takes effect at once, whenever the call is resumed. *)
Definition step {W X} (io : M W X) : Task W X := Await io Settled.

Fixpoint task_bind {W A B} (t : Task W A) (k : A → Task W B) : Task W B :=
  match t with
  | Settled (inl e) => Settled (inl e)
  | Settled (inr a) => k a
  | Await io k' => Await io (fun r => task_bind (k' r) k)
  end.

Fixpoint task_try_catch {W A} (t : Task W A) (handler : JsError → Task W A)
  : Task W A :=
  match t with
  | Settled (inl e) => handler e
  | Settled (inr a) => Settled (inr a)
  | Await io k => Await io (fun r => task_try_catch (k r) handler)
  end.

(** The call run to its end with no other call in between. *)
Fixpoint alone {W A} (t : Task W A) (s : Run W) : Result A * Run W :=
  match t with
  | Settled r => (r, s)
  | Await io k => let '(r, s') := io s in alone (k r) s'
  end.

(** The steps the call takes when run alone from [s]. *)
Fixpoint stepsAlone {W A} (t : Task W A) (s : Run W) : nat :=
  match t with
  | Settled _ => 0
  | Await io k => let '(r, s') := io s in S (stepsAlone (k r) s')
  end.

(** [a] is a value the call may resolve to. *)
Inductive resolves_to {W A : Type} : Task W A → A → Prop :=
| resolves_settled (a : A) : resolves_to (Settled (inr a)) a
| resolves_await {X : Type} (io : M W X) (k : Result X → Task W A)
    (s s' : Run W) (r : Result X) (a : A) :
    io s = (r, s') → resolves_to (k r) a → resolves_to (Await io k) a.

(** [t'] is what is left of [t] after steps that took the shared state
    from the first to the second state of each pair of [trace],
    whatever the other calls did in between. *)
Inductive after_steps {W A : Type}
  : Task W A → list (Run W * Run W) → Task W A → Prop :=
| after_none (t : Task W A) : after_steps t [] t
| after_step {X : Type} (io : M W X) (k : Result X → Task W A)
    (s s' : Run W) (r : Result X) (trace : list (Run W * Run W))
    (t' : Task W A) :
    io s = (r, s') → after_steps (k r) trace t' →
    after_steps (Await io k) ((s, s') :: trace) t'.

(** Every step the call may take satisfies [Q], and every value it may
    resolve to satisfies [R]. *)
Fixpoint every_step {W A : Type} (Q : ∀ X : Type, M W X → Prop)
    (R : A → Prop) (t : Task W A) : Prop :=
  match t with
  | Settled (inl _) => True
  | Settled (inr a) => R a
  | Await io k =>
      Q _ io ∧ ∀ s r s', io s = (r, s') → every_step Q R (k r)
  end.

(** The call cannot reject. *)
Fixpoint never_rejects {W A : Type} (t : Task W A) : Prop :=
  match t with
  | Settled r => is_ok r = true
  | Await io k => ∀ r, never_rejects (k r)
  end.

Declare Scope task_scope.
Delimit Scope task_scope with task.
Notation "'let*' x ':=' t 'in' k" := (task_bind t (fun x => k))
  (at level 10, x name, t at level 100, k at level 200) : task_scope.
Notation "t ;;; k" := (task_bind t (fun _ => k))
  (at level 100, right associativity) : task_scope.

Module Interleaved.

Section Tool.

Context {W : Type} `{Host W}.
Local Open Scope task_scope.

Definition createBackupTag (config : SafetyConfig)
  (owner repo branchName sha : string) : Task W string :=
let* tagName := step (getBackupTagName config branchName) in
let* now := step dayjs in
let message :=
  "Backup tag for branch " +:+ branchName +:+ " before cleanup" +:+ nl
    +:+ "Created: " +:+ dj_iso now +:+ nl
    +:+ "TTL: " +:+ pretty (backup_ttl_days config) +:+ " days" in
let* tagObject := step (request (PostTag owner repo tagName message sha)) in
(step (request (PostRef owner repo ("refs/tags/" +:+ tagName) tagObject)) ;;;
 task_ret tagName).

Definition backupAndDelete_try (config : SafetyConfig)
  (owner repo branchName sha : string) (dryRun : bool)
: Task W DeletionResult :=
let* backupTag :=
  (if create_backup_tag config && negb dryRun then
     createBackupTag config owner repo branchName sha
   else if create_backup_tag config && dryRun then
     step (getBackupTagName config branchName)
   else task_ret EmptyString) in
((if negb dryRun then step (deleteBranch owner repo branchName)
  else task_ret tt) ;;;
 task_ret (ResDeleted backupTag)).

Definition backupAndDelete (config : SafetyConfig)
  (owner repo branchName sha : string) (dryRun : bool)
: Task W DeletionResult :=
task_try_catch
  (backupAndDelete_try config owner repo branchName sha dryRun)
  (fun error => task_ret (handleDeletionError error)).

Definition createPermissionIssue (owner repo : string) (blockedCount : Z)
  (dryRun : bool) : Task W unit :=
let issueKey := owner +:+ "/" +:+ repo in
let* cached := step (issueCache_has issueKey) in
if cached then task_ret tt
else
  let title := issue_title in
  let body := generateIssueBody owner repo blockedCount in
  if dryRun then step (issueCache_add issueKey)
  else
    task_try_catch
      (let* existingIssues := step (request (GetIssues owner repo)) in
       let exists_ := existsb (fun issue => String.eqb issue title)
                        existingIssues in
       if exists_ then step (issueCache_add issueKey)
       else
         (step (request (PostIssue owner repo title body)) ;;;
          step (issueCache_add issueKey)))
      (fun error => task_ret tt).

Definition reachAndDelete (config : Config) (dryRun : bool)
  (owner repo defaultBranch : string) (candidate : BranchCandidate)
  (protected : bool) : Task W CleanupRecord :=
let record := baseRecord owner repo defaultBranch candidate protected in
let* isReachable :=
  step (isBranchReachable owner repo defaultBranch
          (branchName candidate)) in
if negb isReachable then
  task_ret (record SkippedUnsafe EmptyString
              "Branch has commits not in default branch")
else
  let* result :=
    backupAndDelete (safety config) owner repo (branchName candidate)
      (sha candidate) dryRun in
  task_ret (record (status result) (result_backupTag result)
              (result_error result)).

Definition processBranch (config : Config) (dryRun : bool)
  (owner repo defaultBranch : string) (candidate : BranchCandidate)
: Task W CleanupRecord :=
let* branchInfo := step (checkBranch owner repo (branchName candidate)) in
let record :=
  baseRecord owner repo defaultBranch candidate (bi_protected branchInfo) in
if negb (bi_exists branchInfo) then
  task_ret (baseRecord owner repo defaultBranch candidate false
              AlreadyDeleted EmptyString EmptyString)
else if bi_protected branchInfo then
  task_ret (record SkippedProtected EmptyString EmptyString)
else
  let* now := step dayjs in
  match tooRecent config now candidate with
  | Some age =>
      task_ret (record SkippedTooRecent EmptyString
                  ("Only " +:+ pretty age +:+ " days old"))
  | None =>
      reachAndDelete config dryRun owner repo defaultBranch candidate
        (bi_protected branchInfo)
  end.

Fixpoint processCandidates (config : Config) (dryRun : bool)
  (owner repo defaultBranch : string) (candidates : list BranchCandidate)
  (blockedCount : Z) : Task W Z :=
match candidates with
| [] => task_ret blockedCount
| candidate :: rest =>
    (step (delay (per_repo_delay_ms config)) ;;;
     let* result :=
       processBranch config dryRun owner repo defaultBranch candidate in
     let blockedCount' :=
       if isBlocked (actionTaken result) then blockedCount + 1
       else blockedCount in
     (step (addRecord result) ;;;
      processCandidates config dryRun owner repo defaultBranch rest
        blockedCount'))
end.

Definition processRepo_try (config : Config) (dryRun : bool)
  (owner repo : string) : Task W unit :=
let* perms := step (checkPermissions owner repo) in
if negb (canDelete perms) then task_ret tt
else
  let* defaultBranch := step (getDefaultBranch owner repo) in
  let* candidates :=
    step (findCandidates config owner repo defaultBranch) in
  if (length candidates =? 0)%nat then task_ret tt
  else
    let* blockedCount :=
      processCandidates config dryRun owner repo defaultBranch
        candidates 0 in
    if negb (autoDeleteEnabled perms) then
      let* enabled := step (enableAutoDelete owner repo dryRun) in
      if negb enabled && (0 <? blockedCount) then
        createPermissionIssue owner repo blockedCount dryRun
      else task_ret tt
    else task_ret tt.

Definition processRepo (config : Config) (dryRun : bool)
  (owner repo : string) : Task W unit :=
task_try_catch (processRepo_try config dryRun owner repo)
  (fun error => task_ret tt).

(** [pLimit(concurrency)] throws unless the concurrency is a whole
  number from 1 up. *)
Definition pLimit (concurrency : Z) : Result nat :=
if 1 <=? concurrency then inr (Z.to_nat concurrency)
else inl {| err_name := "TypeError";
            err_message :=
              "Expected `concurrency` to be a number from 1 and up";
            err_status := None |}.

(** The calls handed to [limit]: those in progress, at most as many
  as the limit, and those waiting for a place, in the order they
  were handed over. *)
Record Pool := mkPool {
active : list (Task W unit);
queued : list (Task W unit);
}.

Definition start (limit : nat) (tasks : list (Task W unit)) : Pool :=
{| active := take limit tasks; queued := drop limit tasks |}.

Definition idle (p : Pool) : bool :=
match active p, queued p with
| [], [] => true
| _, _ => false
end.

(** The call at place [i] has resolved: it leaves, and the first call
  in the queue takes a place. *)
Definition leave (i : nat) (p : Pool) : Pool :=
{| active := delete i (active p) ++ take 1 (queued p);
   queued := drop 1 (queued p) |}.

(** How [await Promise.all(tasks)] stands. *)
Inductive Progress :=
| Resolved
| Rejected (e : JsError)
| Pending (p : Pool).

(** The event loop resumes the call at place [i] among the active
  ones.  A call waiting for a step takes it; a call that has
  resolved leaves; a call that has rejected makes [Promise.all]
  reject. *)
Definition resume (i : nat) (p : Pool) (s : Run W) : Progress * Run W :=
match active p !! i with
| None => (Pending p, s)
| Some (Await io k) =>
    let '(r, s') := io s in
    (Pending {| active := <[i := k r]> (active p);
                queued := queued p |}, s')
| Some (Settled (inr _)) => (Pending (leave i p), s)
| Some (Settled (inl e)) => (Rejected e, s)
end.

(** [await Promise.all(tasks)] while the event loop resumes the calls
  in the order [schedule] gives.  [Promise.all] resolves when no
  call is left. *)
Fixpoint runPool (schedule : list nat) (p : Pool) (s : Run W)
: Progress * Run W :=
if idle p then (Resolved, s)
else
  match schedule with
  | [] => (Pending p, s)
  | i :: later =>
      match resume i p s with
      | (Pending p', s') => runPool later p' s'
      | settled => settled
      end
  end.

(** The calls [run] hands to [limit], one pass for each repository
  of the configuration. *)
Definition passes (config : Config) (dryRun : bool) : list (Task W unit) :=
map (fun task => processRepo config dryRun (fst task) (snd task))
  (repoTasks config).

(** [run], with the order in which the event loop resumes the passes;
  [None] while [Promise.all] is pending at the end of the schedule.
  A resolved run gives the code it leaves the process with:
  [process.exit(1)] when the reporter has errors, [0] on return. *)
Definition run (config : Config) (dryRun : bool) (schedule : list nat)
  (s : Run W) : option (Result Z) * Run W :=
match pLimit (max_concurrency config) with
| inl e => (Some (inl e), s)
| inr limit =>
    match runPool schedule (start limit (passes config dryRun)) s with
    | (Pending _, s') => (None, s')
    | (Rejected e, s') => (Some (inl e), s')
    | (Resolved, s') =>
        let '(r, s'') :=
          bind (writeReports dryRun)
            (fun _ => bind hasErrors
               (fun failed : bool => if failed then ret 1 else ret 0))
            s' in
        (Some r, s'')
    end
end.

(** [main]: a rejection of [run] is caught and exits with 1. *)
Definition exitCode (config : Config) (dryRun : bool)
  (schedule : list nat) (s : Run W) : option Z :=
match fst (run config dryRun schedule s) with
| None => None
| Some (inl _) => Some 1
| Some (inr code) => Some code
end.

End Tool.

End Interleaved.

Section Steps.

Context {W : Type} `{Host W}.

(** The steps of a pass over [owner/repo]: the mutating requests and
    the escalation are steps of a live pass only, and a record added
    is one a call of [processBranch] for the repository resolved
    to. *)
Inductive StepOf (config : Config) (dryRun : bool) (owner repoName : string)
  : ∀ X : Type, M W X → Prop :=
| step_checkPermissions :
    StepOf config dryRun owner repoName _ (checkPermissions owner repoName)
| step_getDefaultBranch :
    StepOf config dryRun owner repoName _ (getDefaultBranch owner repoName)
| step_findCandidates (defaultBranch : string) :
    StepOf config dryRun owner repoName _
      (findCandidates config owner repoName defaultBranch)
| step_delay (ms : Z) : StepOf config dryRun owner repoName _ (delay ms)
| step_checkBranch (b : string) :
    StepOf config dryRun owner repoName _ (checkBranch owner repoName b)
| step_dayjs : StepOf config dryRun owner repoName _ dayjs
| step_isBranchReachable (defaultBranch b : string) :
    StepOf config dryRun owner repoName _
      (isBranchReachable owner repoName defaultBranch b)
| step_getBackupTagName (b : string) :
    StepOf config dryRun owner repoName _
      (getBackupTagName (safety config) b)
| step_addRecord (defaultBranch : string) (candidate : BranchCandidate)
    (record : CleanupRecord) :
    resolves_to
      (Interleaved.processBranch config dryRun owner repoName
         defaultBranch candidate) record →
    org record = owner → repo record = repoName →
    StepOf config dryRun owner repoName _ (addRecord record)
| step_enableAutoDelete :
    StepOf config dryRun owner repoName _
      (enableAutoDelete owner repoName dryRun)
| step_request (r : Request) :
    dryRun = false → StepOf config dryRun owner repoName _ (request r)
| step_deleteBranch (b : string) :
    dryRun = false →
    StepOf config dryRun owner repoName _ (deleteBranch owner repoName b)
| step_issueCache_has (key : string) :
    dryRun = false →
    StepOf config dryRun owner repoName _ (issueCache_has key)
| step_issueCache_add (key : string) :
    dryRun = false →
    StepOf config dryRun owner repoName _ (issueCache_add key).

End Steps.

(** [P] holds of every call of the pool. *)
Definition all_tasks {W : Type} (P : Task W unit → Prop)
    (p : Interleaved.Pool (W:=W)) : Prop :=
  Forall P (Interleaved.active p) ∧ Forall P (Interleaved.queued p).

(** A pool made by [start] with a limit of at least 1, and what comes
    of it: calls wait only while others are in progress. *)
Definition busy {W : Type} (p : Interleaved.Pool (W:=W)) : Prop :=
  Interleaved.active p = [] → Interleaved.queued p = [].

Section RunVocabulary.

Context {W : Type} `{Host W}.

(** [record] is what a call of [processBranch] resolved to, in a pass
    over one of the repositories of the configuration. *)
Definition recorded_by (config : Config) (dryRun : bool)
    (record : CleanupRecord) : Prop :=
  ∃ owner repoName defaultBranch candidate,
    (owner, repoName) ∈ repoTasks config
    ∧ org record = owner ∧ repo record = repoName
    ∧ resolves_to
        (Interleaved.processBranch config dryRun owner repoName
           defaultBranch candidate) record.

(** A step of one of the passes of a run. *)
Definition StepOfRun (config : Config) (dryRun : bool)
    (X : Type) (io : M W X) : Prop :=
  ∃ owner repoName,
    (owner, repoName) ∈ repoTasks config
    ∧ StepOf config dryRun owner repoName X io.

(** The pool of [run] when the event loop has resumed the passes in
    the order [schedule] gives. *)
Definition runPasses (config : Config) (dryRun : bool)
    (schedule : list nat) (s : Run W)
  : Interleaved.Progress (W:=W) * Run W :=
  Interleaved.runPool schedule
    (Interleaved.start (Z.to_nat (max_concurrency config))
       (Interleaved.passes config dryRun)) s.

(** The exit code of a run whose passes have come to their end in
    state [s]: 0 when the reports are written and no record has the
    action Error. *)
Definition exitAfter (dryRun : bool) (s : Run W) : Z :=
  if is_ok (fst (fs_writeReports dryRun (records s) (world s)))
     && negb (Reporter.hasErrors (records s))
  then 0 else 1.

End RunVocabulary.

(** ** A reference model of the hosting API

    One repository with its refs, branch protection, merged pull
    requests, open issues and a clock.  Creating a ref that exists and
    deleting a ref that does not are both answered with 422, a missing
    branch with 404: the statuses the tool's error classification is
    written against. *)

Module GitHubModel.

Record World := mkWorld {
  refs : list string;
  protected_branches : list string;
  pulls : list (list MergedPR);
  comparisons : list (string * string);
  open_issues : list string;
  issues_enabled : bool;
  repo_data : RepoData;
  unavailable : list string;
  clock : Dayjs;
}.

Definition mem (x : string) (l : list string) : bool :=
  existsb (String.eqb x) l.

Definition http (code : Z) (message : string) : JsError :=
  {| err_name := "HttpError"; err_message := message;
     err_status := Some code |}.

Definition with_refs (w : World) (rs : list string) : World :=
  {| refs := rs;
     protected_branches := protected_branches w;
     pulls := pulls w;
     comparisons := comparisons w;
     open_issues := open_issues w;
     issues_enabled := issues_enabled w;
     repo_data := repo_data w;
     unavailable := unavailable w;
     clock := clock w |}.

Definition with_issue (w : World) (title : string) : World :=
  {| refs := refs w;
     protected_branches := protected_branches w;
     pulls := pulls w;
     comparisons := comparisons w;
     open_issues := open_issues w ++ [title];
     issues_enabled := issues_enabled w;
     repo_data := repo_data w;
     unavailable := unavailable w;
     clock := clock w |}.

Definition with_clock (w : World) (c : Dayjs) : World :=
  {| refs := refs w;
     protected_branches := protected_branches w;
     pulls := pulls w;
     comparisons := comparisons w;
     open_issues := open_issues w;
     issues_enabled := issues_enabled w;
     repo_data := repo_data w;
     unavailable := unavailable w;
     clock := c |}.

Definition lookup_status (basehead : string) (t : list (string * string))
  : option string :=
  match find (fun kv => String.eqb (fst kv) basehead) t with
  | Some kv => Some (snd kv)
  | None => None
  end.

(** The names of the tag refs among [rs]. *)
Definition tag_names (rs : list string) : list string :=
  map (Js.drop 10)
    (List.filter (fun ref => String.prefix "refs/tags/" ref) rs).

Definition handle (r : Request) (w : World) : Result (Resp r) * World :=
  match r return Result (Resp r) * World with
  | GetRepo _ _ => (inr (repo_data w), w)
  | QueryMergedPRs _ _ => (inr (pulls w), w)
  | GetBranch _ _ b =>
      if mem b (unavailable w) then (inl (http 500 "Server Error"), w)
      else if mem ("refs/heads/" +:+ b) (refs w)
      then (inr (mem b (protected_branches w)), w)
      else (inl (http 404 "Branch not found"), w)
  | GetCompare _ _ basehead =>
      match lookup_status basehead (comparisons w) with
      | Some st =>
          (inr {| cmp_status := st; ahead_by := 0; behind_by := 0 |}, w)
      | None => (inl (http 404 "Not Found"), w)
      end
  | PostTag _ _ tag _ _ => (inr ("tagobject:" +:+ tag), w)
  | PostRef _ _ ref _ =>
      if mem ref (refs w)
      then (inl (http 422 "Reference already exists"), w)
      else (inr tt, with_refs w (refs w ++ [ref]))
  | DeleteRef _ _ ref =>
      if mem ("refs/" +:+ ref) (refs w)
      then (inr tt,
            with_refs w
              (filter (fun x => negb (String.eqb x ("refs/" +:+ ref)))
                 (refs w)))
      else (inl (http 422 "Reference does not exist"), w)
  | PatchRepo _ _ =>
      match permissions (repo_data w) with
      | Some (_, true) => (inr tt, w)
      | _ => (inl (http 403 "Must have admin rights to Repository."), w)
      end
  | GetIssues _ _ => (inr (open_issues w), w)
  | PostIssue _ _ title _ =>
      if issues_enabled w then (inr tt, with_issue w title)
      else (inl (http 410 "Issues are disabled for this repo"), w)
  | GetTags _ _ => (inr (take 100 (tag_names (refs w))), w)
  end.

(** Days from 1970-01-01 to a civil date of the proleptic Gregorian
    calendar. *)
Definition days_from_civil (y m d : Z) : Z :=
  let y' := if m <=? 2 then y - 1 else y in
  let era := y' / 400 in
  let yoe := y' - era * 400 in
  let doy := (153 * (if 2 <? m then m - 3 else m + 9) + 2) / 5 + d - 1 in
  let doe := yoe * 365 + yoe / 4 - yoe / 100 + doy in
  era * 146097 + doe - 719468.

Definition digit (c : ascii) : option Z :=
  let n := Z.of_N (Ascii.N_of_ascii c) in
  if (48 <=? n) && (n <=? 57) then Some (n - 48) else None.

Fixpoint digits (acc : Z) (s : string) : option Z :=
  match s with
  | EmptyString => Some acc
  | String c s' =>
      match digit c with
      | Some k => digits (acc * 10 + k) s'
      | None => None
      end
  end.

Definition field (start len : nat) (s : string) : option Z :=
  digits 0 (String.substring start len s).

(** An instant of a process whose local zone is UTC. *)
Definition utc (y mo d h mi sec : Z) (iso : string) : Dayjs :=
  {| dj_ms := ((days_from_civil y mo d * 24 + h) * 60 + mi) * 60000
              + sec * 1000;
     dj_utcOffset := 0;
     dj_year := y;
     dj_month := mo - 1;
     dj_date := d;
     dj_iso := iso |}.

(** Timestamps of the shape [YYYY-MM-DDThh:mm:ssZ], as the GraphQL API
    prints them; anything else is an invalid date. *)
Definition parse (s : string) : option Dayjs :=
  if negb (String.length s =? 20)%nat then None
  else if negb (String.eqb (String.substring 4 1 s) "-"
                && String.eqb (String.substring 7 1 s) "-"
                && String.eqb (String.substring 10 1 s) "T"
                && String.eqb (String.substring 13 1 s) ":"
                && String.eqb (String.substring 16 1 s) ":"
                && String.eqb (String.substring 19 1 s) "Z") then None
  else
    match field 0 4 s, field 5 2 s, field 8 2 s,
          field 11 2 s, field 14 2 s, field 17 2 s with
    | Some y, Some mo, Some d, Some h, Some mi, Some sec =>
        Some (utc y mo d h mi sec s)
    | _, _, _, _, _, _ => None
    end.

#[global] Instance host : Host World := {
  octokit_request := handle;
  dayjs_now := clock;
  dayjs_parse := parse;
  regexp_test := SimpleRegExp.test;
  timer_elapse := fun _ w => w;
  fs_writeReports := fun _ _ w => (inr tt, w);
}.

Definition start (w : World) : Run World :=
  {| world := w; calls := []; issueCache := ∅; records := [] |}.

End GitHubModel.

(** ** Vocabulary of the properties *)

(** The lower-cased message of the error mentions "protected". *)
Definition mentions_protected (e : JsError) : bool :=
  Js.includes (Js.toLowerCase (error_message e)) "protected".

(** The text the classification examines: the error's message, and the
    error written as a string when the message is empty. *)
Definition examined_text (e : JsError) : string :=
  if String.eqb (err_message e) EmptyString then error_toString e
  else err_message e.

(** Containment in any letter case, stated without lower-casing the
    text: [c] is the lower-case letter [d] or its upper-case form, ... *)
Definition same_letter (c d : ascii) : bool :=
  Ascii.eqb c d
  || ((65 <=? Ascii.N_of_ascii c)%N && (Ascii.N_of_ascii c <=? 90)%N
      && (Ascii.N_of_ascii c + 32 =? Ascii.N_of_ascii d)%N).

(** ... [text] begins with the letters of [needle], each in either
    case, ... *)
Fixpoint begins_ignoring_case (needle text : string) : bool :=
  match needle, text with
  | EmptyString, _ => true
  | String _ _, EmptyString => false
  | String d needle', String c text' =>
      same_letter c d && begins_ignoring_case needle' text'
  end.

(** ... and [text] contains [needle], written in lower case, at some
    position. *)
Fixpoint contains_ignoring_case (text needle : string) : bool :=
  begins_ignoring_case needle text
  || match text with
     | EmptyString => false
     | String _ text' => contains_ignoring_case text' needle
     end.

Definition lower_letter (d : ascii) : bool :=
  (97 <=? Ascii.N_of_ascii d)%N && (Ascii.N_of_ascii d <=? 122)%N.

(** The 256 characters. *)
Definition all_ascii : list ascii := map ascii_of_nat (seq 0 256).

(** For a lower-case letter [d]: lower-casing [c] gives [d] exactly when
    [c] is [d] in either case. *)
Definition agree (c d : ascii) : bool :=
  implb (lower_letter d)
    (Bool.eqb (Ascii.eqb (Js.lower_ascii c) d) (same_letter c d)).

Definition tally (s : ReportSummary) : nat :=
  (deleted s + skipped s + errors s)%nat.

(** The branch name with every slash turned into a dash, character by
    character. *)
Fixpoint slashes_as_dashes (s : string) : string :=
  match s with
  | EmptyString => EmptyString
  | String c s' =>
      String (if Ascii.eqb c "/" then "-"%char else c) (slashes_as_dashes s')
  end.

(** A calendar date written [YYYYMMDD] digit by digit: four digits of
    the year, two of the month counted from 1, two of the day. *)
Definition decimal_digit (n : Z) : ascii :=
  Ascii.ascii_of_N (48 + Z.to_N (n mod 10)).

Definition two_digits (n : Z) : string :=
  String (decimal_digit (n / 10)) (String (decimal_digit n) EmptyString).

Definition four_digits (n : Z) : string :=
  String (decimal_digit (n / 1000))
    (String (decimal_digit (n / 100)) (two_digits n)).

Definition spec_YYYYMMDD (year month day : Z) : string :=
  four_digits year +:+ two_digits month +:+ two_digits day.

(** [<prefix>/<branch with slashes as dashes>/<YYYYMMDD>] *)
Definition backup_tag_name (config : SafetyConfig) (branchName : string)
    (today : Dayjs) : string :=
  backup_tag_prefix config +:+ "/" +:+ slashes_as_dashes branchName
    +:+ "/" +:+ format_YYYYMMDD today.

Section DiscoveryVocabulary.

Context {W : Type} `{Host W}.

(** A merged pull request that [findCandidates] lets through: it
    targets the default branch, its head matches an include pattern
    and no exclude pattern. *)
Definition qualifies (config : Config) (defaultBranch : string)
    (pr : MergedPR) : bool :=
  String.eqb (baseRefName pr) defaultBranch
  && match matchesPatterns config (headRefName pr) with
     | inr true =>
         match isExcluded config (headRefName pr) with
         | inr false => true
         | _ => false
         end
     | _ => false
     end.

(** The first pull request of the enumeration that qualifies and has
    the head branch [name]. *)
Definition first_for (config : Config) (defaultBranch name : string)
    (mergedPRs : list MergedPR) : option MergedPR :=
  find (fun pr => qualifies config defaultBranch pr
                  && String.eqb (headRefName pr) name) mergedPRs.

End DiscoveryVocabulary.

(** Issue-creation requests in a call log: all of them, and those the
    host refused. *)
Definition isIssueCreation (c : Call) : bool :=
  match call_request c with
  | PostIssue _ _ _ _ => true
  | _ => false
  end.

Definition issueCreations (l : list Call) : nat :=
  length (List.filter isIssueCreation l).

Definition failedCreations (l : list Call) : nat :=
  length (List.filter (fun c => isIssueCreation c && negb (call_ok c)) l).

Definition successfulCreations (l : list Call) : nat :=
  length (List.filter (fun c => isIssueCreation c && call_ok c) l).

(** A computation that leaves the reporter's records alone. *)
Definition keeps_records {W A : Type} (m : M W A) : Prop :=
  ∀ s r s', m s = (r, s') → records s' = records s.

Section BoundaryVocabulary.

Context {W : Type} `{Host W}.

(** [record] is what a completed run of [processBranch] on candidate
    [c] returned. *)
Definition produced_by (config : Config) (dryRun : bool)
    (owner repo defaultBranch : string) (record : CleanupRecord)
    (c : BranchCandidate) : Prop :=
  branch record = branchName c
  ∧ ∃ t t' : Run W,
      processBranch config dryRun owner repo defaultBranch c t
      = (inr record, t').

End BoundaryVocabulary.

Section DeletedBranchVocabulary.

Context {W : Type} `{Host W}.

(** The answer is a refusal with status 422 or 404. *)
Definition refused_as_missing {A : Type} (r : Result A) : Prop :=
  ∃ e, r = inl e ∧ (error_status e = 422 ∨ error_status e = 404).

(** The answer is a success, or a refusal with status 422 (the name is
    taken). *)
Definition ok_or_collision {A : Type} (r : Result A) : Prop :=
  ∀ e, r = inl e → error_status e = 422.

(** What [backupAndDelete] relies on once a branch is gone, for a set
    [Gone] of host states: the three requests it issues keep the host
    in [Gone]; creating the tag object or the tag ref succeeds or
    collides; deleting the branch ref is refused as missing. *)
Record gone_branch_contract (Gone : W → Prop)
    (owner repo branchName sha : string) : Prop := {
  gone_tag_object : ∀ w tag message,
    Gone w →
    ok_or_collision
      (fst (octokit_request (PostTag owner repo tag message sha) w))
    ∧ Gone (snd (octokit_request (PostTag owner repo tag message sha) w));
  gone_tag_ref : ∀ w tag object,
    Gone w →
    ok_or_collision
      (fst (octokit_request
              (PostRef owner repo ("refs/tags/" +:+ tag) object) w))
    ∧ Gone (snd (octokit_request
                   (PostRef owner repo ("refs/tags/" +:+ tag) object) w));
  gone_delete : ∀ w,
    Gone w →
    refused_as_missing
      (fst (octokit_request
              (DeleteRef owner repo ("heads/" +:+ branchName)) w))
    ∧ Gone (snd (octokit_request
                   (DeleteRef owner repo ("heads/" +:+ branchName)) w));
}.

End DeletedBranchVocabulary.

(** ** Sample runs on the reference model *)

Module Samples.
Import GitHubModel.

Definition config : Config :=
  {| orgs := [("acme", ["app"])];
     branch_patterns := ["bot/*"; "release/*"];
     exclude_patterns := ["main"; "release/*"];
     safety := {| create_backup_tag := true;
                  backup_tag_prefix := "cleanup-backup";
                  backup_ttl_days := 30;
                  minimum_age_days := 7 |};
     max_concurrency := 1;
     per_repo_delay_ms := 250 |}.

(** A configuration whose age gate nothing passes. *)
Definition strict_config : Config :=
  {| orgs := orgs config;
     branch_patterns := branch_patterns config;
     exclude_patterns := exclude_patterns config;
     safety := {| create_backup_tag := true;
                  backup_tag_prefix := "cleanup-backup";
                  backup_ttl_days := 30;
                  minimum_age_days := 36500 |};
     max_concurrency := 1;
     per_repo_delay_ms := 250 |}.

Definition pr7 : MergedPR :=
  mkMergedPR 7 "2025-10-01T00:00:00Z" "bot/fix-1" "abc" "main".
Definition pr9 : MergedPR :=
  mkMergedPR 9 "2025-10-20T00:00:00Z" "bot/fix-1" "def" "main".
Definition pr8 : MergedPR :=
  mkMergedPR 8 "2025-10-02T00:00:00Z" "release/1.0" "r1" "main".
Definition pr10 : MergedPR :=
  mkMergedPR 10 "2025-10-03T00:00:00Z" "bot/fix-2" "f2" "main".
Definition pr11 : MergedPR :=
  mkMergedPR 11 "2025-10-04T00:00:00Z" "bot/fix-3" "f3" "main".

(** The repository acme/app on 2025-11-10.  Pull request 7 was merged
    before pull request 9 but updated after it, so the enumeration
    (most recently updated first) lists it first. *)
Definition world : World :=
  {| refs := ["refs/heads/main"; "refs/heads/bot/fix-1";
              "refs/heads/release/1.0"; "refs/heads/bot/fix-2";
              "refs/heads/bot/fix-3"];
     protected_branches := [];
     pulls := [[pr7; pr9; pr8]; [pr10; pr11]];
     comparisons := [("main...bot/fix-1", "behind");
                     ("main...release/1.0", "behind");
                     ("main...bot/fix-2", "identical");
                     ("main...bot/fix-3", "behind")];
     open_issues := [];
     issues_enabled := true;
     repo_data := {| default_branch := "main";
                     permissions := Some (true, false);
                     delete_branch_on_merge := false |};
     unavailable := [];
     clock := utc 2025 11 10 3 17 42 "2025-11-10T03:17:42.000Z" |}.

(** The same repository with issues turned off. *)
Definition world_without_issues : World :=
  {| refs := refs world;
     protected_branches := protected_branches world;
     pulls := pulls world;
     comparisons := comparisons world;
     open_issues := [];
     issues_enabled := false;
     repo_data := repo_data world;
     unavailable := [];
     clock := clock world |}.

(** The same repository while the lookup of bot/fix-2 answers 500. *)
Definition world_with_outage : World :=
  {| refs := refs world;
     protected_branches := protected_branches world;
     pulls := pulls world;
     comparisons := comparisons world;
     open_issues := [];
     issues_enabled := true;
     repo_data := repo_data world;
     unavailable := ["bot/fix-2"];
     clock := clock world |}.

(** A host that refuses the requests [refused] selects, each with
    the error selected, and answers the others as before. *)
Definition refusing_handle (refused : Request → option JsError)
    (r : Request) (w : World) : Result (Resp r) * World :=
  match refused r with
  | Some e => (inl e, w)
  | None => handle r w
  end.

Definition refusing_host (refused : Request → option JsError)
  : Host World :=
  {| octokit_request := refusing_handle refused;
     dayjs_now := clock;
     dayjs_parse := parse;
     regexp_test := SimpleRegExp.test;
     timer_elapse := fun _ w => w;
     fs_writeReports := fun _ _ w => (inr tt, w) |}.

(** Every ref deletion is refused with [e]. *)
Definition deletions (e : JsError) (r : Request) : option JsError :=
  match r with DeleteRef _ _ _ => Some e | _ => None end.

(** Every creation of a tag object is refused with [e]. *)
Definition tag_objects (e : JsError) (r : Request) : option JsError :=
  match r with PostTag _ _ _ _ _ => Some e | _ => None end.

(** bot/hot was merged twice, by pull request 21 on 2025-10-01 and by
    pull request 22 on 2025-11-08, two days before the clock; 21 was
    updated last and is listed first. *)
Definition pr21 : MergedPR :=
  mkMergedPR 21 "2025-10-01T00:00:00Z" "bot/hot" "old" "main".
Definition pr22 : MergedPR :=
  mkMergedPR 22 "2025-11-08T00:00:00Z" "bot/hot" "new" "main".

Definition stale_world : World :=
  {| refs := ["refs/heads/main"; "refs/heads/bot/hot"];
     protected_branches := [];
     pulls := [[pr21; pr22]];
     comparisons := [("main...bot/hot", "behind")];
     open_issues := [];
     issues_enabled := true;
     repo_data := repo_data world;
     unavailable := [];
     clock := clock world |}.

Definition fix1 : BranchCandidate := candidate_of pr7.
Definition fix2 : BranchCandidate := candidate_of pr10.
Definition fix3 : BranchCandidate := candidate_of pr11.
Definition release : BranchCandidate := candidate_of pr8.

(** A candidate whose branch is gone. *)
Definition gone : BranchCandidate :=
  {| branchName := "bot/gone"; sha := "0a1b";
     prNumber := Some 3; mergedAt := Some "2025-09-01T00:00:00Z" |}.

(** A candidate without a merge timestamp. *)
Definition undated : BranchCandidate :=
  {| branchName := "bot/fix-1"; sha := "abc";
     prNumber := None; mergedAt := None |}.

Definition record (repo branch : string) (a : ActionTaken) : CleanupRecord :=
  {| org := "acme"; repo := repo; branch := branch; headSha := "abc";
     mergedPr := None; rec_mergedAt := None; defaultBranch := "main";
     protected := false; actionTaken := a;
     backupTag := EmptyString; error := EmptyString |}.

Definition records1 : list CleanupRecord :=
  [record "app" "bot/a" Deleted; record "api" "bot/b" Error;
   record "app" "bot/c" SkippedProtected].

Definition records2 : list CleanupRecord :=
  [record "app" "bot/c" SkippedProtected; record "app" "bot/a" Deleted;
   record "api" "bot/b" Error].

(** The action and the error text of a resolved record. *)
Definition outcome (r : Result CleanupRecord)
  : option (ActionTaken * string) :=
  match r with
  | inr x => Some (actionTaken x, error x)
  | inl _ => None
  end.

(** The repository a request is about. *)
Definition repository (r : Request) : string :=
  match r with
  | GetRepo _ repo | QueryMergedPRs _ repo | GetBranch _ repo _
  | GetCompare _ repo _ | PostTag _ repo _ _ _ | PostRef _ repo _ _
  | DeleteRef _ repo _ | PatchRepo _ repo | GetIssues _ repo
  | PostIssue _ repo _ _ | GetTags _ repo => repo
  end.

(** A host with two repositories, acme/app and acme/lib: the requests
    about lib are answered by the second. *)
Definition pair_handle (r : Request) (w : World * World)
  : Result (Resp r) * (World * World) :=
  if String.eqb (repository r) "lib" then
    let '(res, w') := handle r (snd w) in (res, (fst w, w'))
  else
    let '(res, w') := handle r (fst w) in (res, (w', snd w)).

Definition pair_host : Host (World * World) :=
  {| octokit_request := pair_handle;
     dayjs_now := fun w => clock (fst w);
     dayjs_parse := parse;
     regexp_test := SimpleRegExp.test;
     timer_elapse := fun _ w => w;
     fs_writeReports := fun _ _ w => (inr tt, w) |}.

Definition pair_start (w : World * World) : Run (World * World) :=
  mkRun w [] ∅ [].

(** Both repositories, two passes at a time. *)
Definition pair_config : Config :=
  {| orgs := [("acme", ["app"; "lib"])];
     branch_patterns := branch_patterns config;
     exclude_patterns := exclude_patterns config;
     safety := safety config;
     max_concurrency := 2;
     per_repo_delay_ms := 250 |}.

(** The event loop resumes the calls in turn. *)
Definition in_turn (rounds : nat) : list nat :=
  concat (replicate rounds [0%nat; 1%nat]).

End Samples.

(** * Further code of the tool *)

(** ** More JavaScript string primitives *)

Module JsMore.

(** [s.split(sep)] for a one-character separator: never empty. *)
Fixpoint split (sep : ascii) (s : string) : list string :=
  match s with
  | EmptyString => [EmptyString]
  | String c s' =>
      if Ascii.eqb c sep then EmptyString :: split sep s'
      else match split sep s' with
           | seg :: rest => String c seg :: rest
           | [] => [String c EmptyString]
           end
  end.

(** [array.pop()] on the result of a split: its last element. *)
Definition pop (l : list string) : string := List.last l EmptyString.

(** [s.slice(-n)] for [n > 0]: the last [n] characters, all of [s]
    when it is shorter. *)
Definition sliceLast (n : nat) (s : string) : string :=
  Js.drop (String.length s - n) s.

(** [s.endsWith(t)]; true for the empty [t]. *)
Definition endsWith (s t : string) : bool :=
  String.eqb (sliceLast (String.length t) s) t.

End JsMore.

(** ** BranchBackupAndDelete.pruneExpiredBackupTags (backup-and-delete.ts) *)

(** What the method needs beyond [Host]: the date arithmetic of
    dayjs, [d.subtract(n, 'days')]. *)
Class DayjsDays := {
  dayjs_subtract_days : Dayjs → Z → Dayjs;
}.

Section Prune.

Context {W : Type} `{Host W} `{DayjsDays}.

(** [tagDate.isValid() && tagDate.isBefore(cutoffDate)] for
    [tagDate = dayjs(datePart, 'YYYYMMDD')]; without the
    custom-format plugin dayjs parses the text on its own. *)
Definition isBeforeCutoff (datePart : string) (cutoffDate : Dayjs) : bool :=
  match dayjs_parse datePart with
  | Some tagDate => dj_ms tagDate <? dj_ms cutoffDate
  | None => false
  end.

(** The tests a tag passes before it is pruned. *)
Definition isExpiredBackupTag (config : SafetyConfig) (cutoffDate : Dayjs)
    (name : string) : bool :=
  if negb (String.prefix (backup_tag_prefix config) name) then false
  else
    let datePart := JsMore.pop (JsMore.split "/" name) in
    if negb (Js.truthy datePart)
       || negb (String.length datePart =? 8)%nat then false
    else isBeforeCutoff datePart cutoffDate.

(** The [for (const tag of tags)] loop inside the [try] block.  A
    failed deletion leaves the loop through the [catch], which only
    logs: the count reached so far is what the method returns. *)
Fixpoint pruneTags (config : SafetyConfig) (owner repo : string)
    (dryRun : bool) (cutoffDate : Dayjs) (tags : list string)
    (prunedCount : Z) (s : Run W) : Z * Run W :=
  match tags with
  | [] => (prunedCount, s)
  | name :: rest =>
      if isExpiredBackupTag config cutoffDate name then
        if dryRun then
          pruneTags config owner repo dryRun cutoffDate rest
            (prunedCount + 1) s
        else
          match request (DeleteRef owner repo ("tags/" +:+ name)) s with
          | (inl _, s') => (prunedCount, s')
          | (inr _, s') =>
              pruneTags config owner repo dryRun cutoffDate rest
                (prunedCount + 1) s'
          end
      else pruneTags config owner repo dryRun cutoffDate rest prunedCount s
  end.

Definition pruneExpiredBackupTags (config : SafetyConfig)
    (owner repo : string) (dryRun : bool) (s : Run W) : Z * Run W :=
  let cutoffDate :=
    dayjs_subtract_days (dayjs_now (world s)) (backup_ttl_days config) in
  match request (GetTags owner repo) s with
  | (inl _, s') => (0, s')
  | (inr tags, s') =>
      pruneTags config owner repo dryRun cutoffDate tags 0 s'
  end.

End Prune.

(** ** Helpers of the miner bridge (bridge.js) *)

Module Bridge.

(** A JavaScript string as its UTF-16 code units, which is what
    [length] counts and [slice] cuts. *)
Definition Utf16 : Type := list Z.

(** ['***'] *)
Definition stars : Utf16 := [42; 42; 42].

(** [redact(value)]; [None] stands for a missing value.  [slice(0, n)]
    keeps the first [n] units and [slice(-n)] the last [n], all of
    them when there are fewer. *)
Definition redact (value : option Utf16) : Utf16 :=
  match value with
  | None => stars
  | Some str =>
      if (length str =? 0)%nat then stars
      else if (length str <=? 8)%nat then
        take 2 str ++ stars ++ drop (length str - 2) str
      else take 4 str ++ stars ++ drop (length str - 4) str
  end.

(** The [url] of [cpuminerRequest(url)]. *)
Definition cpuminerEndpoint (url : string) : string :=
  if JsMore.endsWith url "/" then url else url +:+ "/".

End Bridge.

(** ** Vocabulary of the further properties *)

(** The calls a computation adds to the log all pass [P]. *)
Definition logs_only {W A : Type} (P : Call → bool) (m : M W A) : Prop :=
  ∀ s r s', m s = (r, s') →
    ∃ new, calls s' = calls s ++ new ∧ forallb P new = true.

Definition readonly (c : Call) : bool := negb (mutating (call_request c)).

(** The records with action [a]. *)
Definition count_action (a : ActionTaken) (l : list CleanupRecord) : nat :=
  length (List.filter (fun r => bool_decide (actionTaken r = a)) l).

(** The records of repository [key], written [org/repo]. *)
Definition count_repo (key : string) (l : list CleanupRecord) : nat :=
  length (List.filter
            (fun r => String.eqb (org r +:+ "/" +:+ repo r) key) l).

(** A counter as a JavaScript object holds it: no entry at zero. *)
Definition counter (n : nat) : option nat :=
  match n with O => None | S _ => Some n end.

(** The message of the annotated backup tag created at [now]. *)
Definition backup_message (config : SafetyConfig) (branchName : string)
    (now : Dayjs) : string :=
  "Backup tag for branch " +:+ branchName +:+ " before cleanup" +:+ nl
    +:+ "Created: " +:+ dj_iso now +:+ nl
    +:+ "TTL: " +:+ pretty (backup_ttl_days config) +:+ " days".

(** [c] occurs in [s]. *)
Fixpoint occurs (c : ascii) (s : string) : bool :=
  match s with
  | EmptyString => false
  | String d rest => Ascii.eqb d c || occurs c rest
  end.

(** What follows the last slash of [name]: all of [name] when it has
    no slash. *)
Fixpoint after_last_slash (name : string) : string :=
  match name with
  | EmptyString => EmptyString
  | String c rest =>
      if occurs "/" rest then after_last_slash rest
      else if Ascii.eqb c "/" then rest
      else name
  end.

Section PruneVocabulary.

Context {W : Type} `{Host W}.

(** An expired backup tag: the name starts with the backup tag
    prefix, and what follows its last slash has eight characters and
    is read by dayjs as an instant before the cutoff. *)
Definition expired_backup_tag (config : SafetyConfig) (cutoffDate : Dayjs)
    (name : string) : bool :=
  String.prefix (backup_tag_prefix config) name
  && (String.length (after_last_slash name) =? 8)%nat
  && match dayjs_parse (after_last_slash name) with
     | Some tagDate => dj_ms tagDate <? dj_ms cutoffDate
     | None => false
     end.

(** The listed tags that are expired backup tags, in the order
    listed, and their number. *)
Definition expiredTags (config : SafetyConfig) (cutoffDate : Dayjs)
    (tags : list string) : list string :=
  List.filter (expired_backup_tag config cutoffDate) tags.

Definition expiredCount (config : SafetyConfig) (cutoffDate : Dayjs)
    (tags : list string) : Z :=
  Z.of_nat (length (expiredTags config cutoffDate tags)).

End PruneVocabulary.

(** The answer to GET /repos/{owner}/{repo} says the token may push. *)
Definition grantsPush (answer : Result RepoData) : bool :=
  match answer with
  | inr data =>
      match permissions data with
      | Some (push, _) => push
      | None => false
      end
  | inl _ => false
  end.

(** A computation that leaves the permission handler's issue cache
    alone. *)
Definition keeps_cache {W A : Type} (m : M W A) : Prop :=
  ∀ s r s', m s = (r, s') → issueCache s' = issueCache s.

(** Not an issue creation. *)
Definition noIssue (c : Call) : bool := negb (isIssueCreation c).

(** The records a repository pass counts as blocked. *)
Definition blockedRecords (l : list CleanupRecord) : Z :=
  Z.of_nat (length (List.filter (fun r => isBlocked (actionTaken r)) l)).

(** The refs under which backup tags are created. *)
Definition backup_ref_prefix (config : Config) : string :=
  "refs/tags/" +:+ backup_tag_prefix (safety config) +:+ "/".

(** What a pass over [owner/repo] may alter, given the branch [names]
    it discovered: it deletes the heads of those branches and creates
    refs under [backup_ref_prefix]; requests of other kinds pass. *)
Definition withinScope (config : Config) (owner repo : string)
    (names : list string) (c : Call) : bool :=
  match call_request c with
  | DeleteRef o r ref =>
      String.eqb o owner && String.eqb r repo
      && existsb (fun b => String.eqb ref ("heads/" +:+ b)) names
  | PostRef o r ref _ =>
      String.eqb o owner && String.eqb r repo
      && String.prefix (backup_ref_prefix config) ref
  | _ => true
  end.

(** The request to delete the tag [name], answered or refused. *)
Definition tagDeletion (owner repo name : string) (ok : bool) : Call :=
  mkCall (DeleteRef owner repo ("tags/" +:+ name)) ok.

(** ** More sample repositories *)

Module MoreSamples.
Import GitHubModel.

(** acme/app with bot/fix-1 protected, bot/fix-2 ahead of main and the
    comparison of bot/fix-3 unknown to the host (404). *)
Definition guarded_world : World :=
  {| refs := refs Samples.world;
     protected_branches := ["bot/fix-1"];
     pulls := pulls Samples.world;
     comparisons := [("main...bot/fix-1", "behind");
                     ("main...bot/fix-2", "ahead")];
     open_issues := [];
     issues_enabled := true;
     repo_data := repo_data Samples.world;
     unavailable := [];
     clock := clock Samples.world |}.

(** acme/app as seen by a token without push rights. *)
Definition readonly_world : World :=
  {| refs := refs Samples.world;
     protected_branches := [];
     pulls := pulls Samples.world;
     comparisons := comparisons Samples.world;
     open_issues := [];
     issues_enabled := true;
     repo_data := {| default_branch := "main";
                     permissions := Some (false, false);
                     delete_branch_on_merge := false |};
     unavailable := [];
     clock := clock Samples.world |}.

(** acme/app with the escalation issue already open. *)
Definition escalated_world : World :=
  {| refs := refs Samples.world;
     protected_branches := [];
     pulls := pulls Samples.world;
     comparisons := comparisons Samples.world;
     open_issues := ["Unrelated"; issue_title];
     issues_enabled := true;
     repo_data := repo_data Samples.world;
     unavailable := [];
     clock := clock Samples.world |}.

(** The tags of acme/app: two backups past the thirty days, one
    recent, one foreign tag. *)
Definition tag_names : list string :=
  ["cleanup-backup/bot-old/20250901T00:00:00Z";
   "cleanup-backup/bot-a/20250901";
   "v1.0.0";
   "cleanup-backup/bot-b/20251105";
   "cleanup-backup/bot-c/20250915"].

Definition tagged_world : World :=
  {| refs := refs Samples.world
             ++ map (fun name => "refs/tags/" +:+ name) tag_names;
     protected_branches := [];
     pulls := [];
     comparisons := [];
     open_issues := [];
     issues_enabled := true;
     repo_data := repo_data Samples.world;
     unavailable := [];
     clock := clock Samples.world |}.

(** Dates written [YYYYMMDD], as dayjs reads them. *)
Definition parse_compact (s : string) : option Dayjs :=
  if negb (String.length s =? 8)%nat then None
  else
    match field 0 4 s, field 4 2 s, field 6 2 s with
    | Some y, Some mo, Some d => Some (utc y mo d 0 0 0 s)
    | _, _, _ => None
    end.

Definition compact_host : Host World :=
  {| octokit_request := handle;
     dayjs_now := clock;
     dayjs_parse := parse_compact;
     regexp_test := SimpleRegExp.test;
     timer_elapse := fun _ w => w;
     fs_writeReports := fun _ _ w => (inr tt, w) |}.

(** A host on which every branch falls under a protection rule that
    the branch lookup does not report: deletions are refused. *)
Definition locked_handle (r : Request) (w : World)
  : Result (Resp r) * World :=
  match r return Result (Resp r) * World with
  | DeleteRef _ _ _ =>
      (inl (http 403 "Cannot delete this protected branch"), w)
  | r' => handle r' w
  end.

Definition locked_host : Host World :=
  {| octokit_request := locked_handle;
     dayjs_now := clock;
     dayjs_parse := parse;
     regexp_test := SimpleRegExp.test;
     timer_elapse := fun _ w => w;
     fs_writeReports := fun _ _ w => (inr tt, w) |}.

(** Whole days are taken off the epoch time. *)
Definition day_host : DayjsDays :=
  {| dayjs_subtract_days := fun d n =>
       {| dj_ms := dj_ms d - n * 86400000;
          dj_utcOffset := dj_utcOffset d;
          dj_year := dj_year d;
          dj_month := dj_month d;
          dj_date := dj_date d;
          dj_iso := dj_iso d |} |}.

(** [compact_host] with the deletion of the tag of bot-c refused. *)
Definition guarded_tag_host : Host World :=
  {| octokit_request :=
       Samples.refusing_handle
         (fun r =>
            match r with
            | DeleteRef _ _ ref =>
                if String.eqb ref "tags/cleanup-backup/bot-c/20250915"
                then Some (http 403 "Resource not accessible by integration")
                else None
            | _ => None
            end);
     dayjs_now := clock;
     dayjs_parse := parse_compact;
     regexp_test := SimpleRegExp.test;
     timer_elapse := fun _ w => w;
     fs_writeReports := fun _ _ w => (inr tt, w) |}.

End MoreSamples.
(** * Properties *)

(** ** Sequencing lemmas for asynchronous computations *)

Section AsyncFacts.

Context {W A B : Type}.

Lemma bind_inr (m : M W A) (k : A → M W B) (s s' : Run W) (a : A) :
  m s = (inr a, s') → bind m k s = k a s'.
Proof. intros Hm. unfold bind. rewrite Hm. reflexivity. Qed.

Lemma bind_inl (m : M W A) (k : A → M W B) (s s' : Run W) (e : JsError) :
  m s = (inl e, s') → bind m k s = (inl e, s').
Proof. intros Hm. unfold bind. rewrite Hm. reflexivity. Qed.

Lemma bind_inv (m : M W A) (k : A → M W B) (s s'' : Run W) (r : Result B) :
  bind m k s = (r, s'') →
  (∃ e, m s = (inl e, s'') ∧ r = inl e)
  ∨ (∃ a s', m s = (inr a, s') ∧ k a s' = (r, s'')).
Proof.
  unfold bind. destruct (m s) as [[e|a] s'] eqn:Hm; intros Hk.
  - left. exists e. inversion Hk; subst. auto.
  - right. exists a, s'. auto.
Qed.

Lemma try_catch_inr (m : M W A) (h : JsError → M W A) (s s' : Run W) (a : A) :
  m s = (inr a, s') → try_catch m h s = (inr a, s').
Proof. intros Hm. unfold try_catch. rewrite Hm. reflexivity. Qed.

Lemma try_catch_inl (m : M W A) (h : JsError → M W A) (s s' : Run W)
    (e : JsError) :
  m s = (inl e, s') → try_catch m h s = h e s'.
Proof. intros Hm. unfold try_catch. rewrite Hm. reflexivity. Qed.

End AsyncFacts.

Section RequestFacts.

Context {W : Type} `{Host W}.

Lemma request_run (r : Request) (s : Run W) :
  request r s =
  (fst (octokit_request r (world s)),
   {| world := snd (octokit_request r (world s));
      calls := calls s
               ++ [mkCall r (is_ok (fst (octokit_request r (world s))))];
      issueCache := issueCache s;
      records := records s |}).
Proof. unfold request. destruct (octokit_request r (world s)); reflexivity. Qed.

Lemma dayjs_run (s : Run W) : dayjs s = (inr (dayjs_now (world s)), s).
Proof. reflexivity. Qed.

End RequestFacts.

(** ** Reporter: the summary is a commutative aggregation *)

Module ReporterFacts.
Import Reporter.

Lemma bump_insert (k : string) (m : gmap string nat) :
  bump k m = <[k := S (default O (m !! k))]> m.
Proof.
  unfold bump.
  destruct (m !! k) as [[|n]|] eqn:E; simpl.
  - rewrite lookup_insert_eq. simpl. apply insert_insert_eq.
  - rewrite E. reflexivity.
  - rewrite lookup_insert_eq. simpl. apply insert_insert_eq.
Qed.

Lemma bump_comm (k1 k2 : string) (m : gmap string nat) :
  bump k1 (bump k2 m) = bump k2 (bump k1 m).
Proof.
  rewrite !bump_insert.
  destruct (decide (k1 = k2)) as [->|Hne]; [reflexivity|].
  rewrite lookup_insert_ne by congruence.
  rewrite (lookup_insert_ne m k1 k2) by congruence.
  apply insert_insert_ne. congruence.
Qed.

Lemma count_record_comm (s : ReportSummary) (a b : CleanupRecord) :
  count_record (count_record s a) b = count_record (count_record s b) a.
Proof.
  unfold count_record; simpl.
  f_equal; try apply bump_comm;
    repeat case_decide; try reflexivity; congruence.
Qed.

Lemma fold_count_perm (l1 l2 : list CleanupRecord) :
  l1 ≡ₚ l2 →
  ∀ s, fold_left count_record l1 s = fold_left count_record l2 s.
Proof.
  induction 1 as [|x l l' _ IH|x y l|l l' l'' _ IH1 _ IH2]; intros s; simpl.
  - reflexivity.
  - apply IH.
  - rewrite count_record_comm. reflexivity.
  - rewrite IH1. apply IH2.
Qed.

Lemma count_record_tally (s : ReportSummary) (r : CleanupRecord) :
  tally (count_record s r) = S (tally s).
Proof.
  unfold tally, count_record; simpl.
  repeat case_decide; lia.
Qed.

Lemma fold_count_tally (l : list CleanupRecord) (s : ReportSummary) :
  tally (fold_left count_record l s) = (tally s + length l)%nat.
Proof.
  revert s; induction l as [|r l IH]; intros s; simpl.
  - lia.
  - rewrite IH, count_record_tally. lia.
Qed.

Lemma fold_count_total (l : list CleanupRecord) (s : ReportSummary) :
  totalBranches (fold_left count_record l s) = totalBranches s.
Proof.
  revert s; induction l as [|r l IH]; intros s; simpl; [reflexivity|].
  rewrite IH. reflexivity.
Qed.

(** The counters hold what one would count by hand. *)
Lemma bump_lookup (k k' : string) (m : gmap string nat) :
  default O (bump k m !! k') =
  ((if decide (k = k') then 1 else 0) + default O (m !! k'))%nat.
Proof.
  rewrite bump_insert.
  destruct (decide (k = k')) as [->|Hne].
  - rewrite lookup_insert_eq. reflexivity.
  - rewrite lookup_insert_ne by assumption. reflexivity.
Qed.

End ReporterFacts.

(** C8. [getSummary] is order-independent: two record lists that are
    permutations of each other have the same summary (total, deleted,
    skipped, errors, and the [byStatus] and [byRepo] counters), and in
    it deleted + skipped + errors is the total number of branches. *)
Theorem getSummary_order_independent (l1 l2 : list CleanupRecord) :
  l1 ≡ₚ l2 →
  Reporter.getSummary l1 = Reporter.getSummary l2 ∧
  (deleted (Reporter.getSummary l1) + skipped (Reporter.getSummary l1)
   + errors (Reporter.getSummary l1)
   = totalBranches (Reporter.getSummary l1))%nat.
Proof.
  intros Hp. unfold Reporter.getSummary. split.
  - rewrite (Permutation_length Hp).
    apply ReporterFacts.fold_count_perm, Hp.
  - pose proof (ReporterFacts.fold_count_tally l1) as Ht.
    unfold tally in Ht. rewrite Ht.
    rewrite ReporterFacts.fold_count_total. simpl. reflexivity.
Qed.

Lemma getSummary_order_independent_witness :
  Samples.records1 ≡ₚ Samples.records2
  ∧ Reporter.getSummary Samples.records1 = Reporter.getSummary Samples.records2
  ∧ (deleted (Reporter.getSummary Samples.records1)
     + skipped (Reporter.getSummary Samples.records1)
     + errors (Reporter.getSummary Samples.records1)
     = totalBranches (Reporter.getSummary Samples.records1))%nat.
Proof.
  assert (Hp : Samples.records1 ≡ₚ Samples.records2).
  { exact (perm_trans
             (perm_skip (Samples.record "app" "bot/a" Deleted)
                (perm_swap (Samples.record "app" "bot/c" SkippedProtected)
                   (Samples.record "api" "bot/b" Error) []))
             (perm_swap (Samples.record "app" "bot/c" SkippedProtected)
                (Samples.record "app" "bot/a" Deleted)
                [Samples.record "api" "bot/b" Error])). }
  split; [exact Hp|].
  apply (getSummary_order_independent Samples.records1 Samples.records2 Hp).
Defined.

(** ** Backup and delete *)

Section BackupFacts.

Context {W : Type} `{Host W}.

(** [backupAndDelete] never rejects: every failure becomes a result. *)
Lemma backupAndDelete_total (config : SafetyConfig)
    (owner repo branchName sha : string) (dryRun : bool) (s : Run W) :
  ∃ result s',
    backupAndDelete config owner repo branchName sha dryRun s
    = (inr result, s').
Proof.
  unfold backupAndDelete, try_catch.
  destruct (backupAndDelete_try _ _ _ _ _ _ s) as [[e|r] s']; eauto.
Qed.

Lemma error_message_own (e : JsError) :
  err_message e ≠ EmptyString → error_message e = err_message e.
Proof.
  intros Hne. unfold error_message, Js.truthy.
  destruct (String.eqb_spec (err_message e) EmptyString); [contradiction|].
  reflexivity.
Qed.

Lemma handleDeletionError_status (e : JsError) :
  status (handleDeletionError e) =
  if error_status e =? 403 then
    if mentions_protected e then ProtectedRuleBlocked else TokenInsufficient
  else if (error_status e =? 422) || (error_status e =? 404)
       then AlreadyDeleted
       else Error.
Proof.
  unfold handleDeletionError, mentions_protected.
  destruct (error_status e =? 403); simpl.
  - destruct (Js.includes _ "protected"); simpl; [reflexivity|].
    destruct (Js.includes _ _); reflexivity.
  - destruct (error_status e =? 422); simpl; [reflexivity|].
    destruct (error_status e =? 404); reflexivity.
Qed.

End BackupFacts.

(** *** The classification, in the words of its description *)

Module CaseFacts.

Lemma all_ascii_complete (c : ascii) : In c all_ascii.
Proof.
  unfold all_ascii. apply in_map_iff. exists (nat_of_ascii c).
  split; [apply ascii_nat_embedding|].
  apply in_seq. pose proof (nat_ascii_bounded c). lia.
Qed.

Lemma agree_all :
  forallb (fun c => forallb (agree c) all_ascii) all_ascii = true.
Proof. vm_compute. reflexivity. Qed.

Lemma lower_ascii_same_letter (c d : ascii) :
  lower_letter d = true →
  Ascii.eqb (Js.lower_ascii c) d = same_letter c d.
Proof.
  intros Hd. pose proof agree_all as Hall.
  rewrite forallb_forall in Hall.
  specialize (Hall c (all_ascii_complete c)).
  rewrite forallb_forall in Hall.
  specialize (Hall d (all_ascii_complete d)).
  unfold agree in Hall. rewrite Hd in Hall. cbn [implb] in Hall.
  apply Bool.eqb_prop in Hall. exact Hall.
Qed.

Lemma prefix_lowered (needle text : string) :
  forallb lower_letter (list_ascii_of_string needle) = true →
  String.prefix needle (Js.toLowerCase text)
  = begins_ignoring_case needle text.
Proof.
  revert text. induction needle as [|d needle IH]; intros text Hn.
  - destruct text; reflexivity.
  - cbn [list_ascii_of_string forallb] in Hn.
    apply andb_true_iff in Hn as (Hd & Hn).
    destruct text as [|c text]; [reflexivity|].
    cbn [Js.toLowerCase String.prefix begins_ignoring_case].
    rewrite <- (lower_ascii_same_letter c d Hd), <- (IH text Hn).
    destruct (ascii_dec d (Js.lower_ascii c)) as [<-|Hne].
    + rewrite Ascii.eqb_refl. reflexivity.
    + destruct (Ascii.eqb_spec (Js.lower_ascii c) d) as [Heq|_];
        [congruence|reflexivity].
Qed.

(** The code's test, lower-casing and then searching, is containment
    in either letter case. *)
Lemma includes_lowered (needle text : string) :
  forallb lower_letter (list_ascii_of_string needle) = true →
  Js.includes (Js.toLowerCase text) needle
  = contains_ignoring_case text needle.
Proof.
  intros Hn. induction text as [|c text IH].
  - cbn [Js.toLowerCase Js.includes contains_ignoring_case].
    rewrite <- (prefix_lowered needle EmptyString Hn). reflexivity.
  - cbn [Js.includes contains_ignoring_case].
    rewrite <- (prefix_lowered needle (String c text) Hn).
    cbn [Js.toLowerCase]. rewrite <- IH. reflexivity.
Qed.

End CaseFacts.

Section ClassificationFacts.

Context {W : Type} `{Host W}.

Lemma error_message_examined (e : JsError) :
  error_message e = examined_text e.
Proof.
  unfold error_message, examined_text, Js.truthy.
  destruct (String.eqb (err_message e) EmptyString); reflexivity.
Qed.

Lemma error_status_some (e : JsError) (k : Z) :
  k ≠ 0 → (error_status e = k ↔ err_status e = Some k).
Proof.
  intros Hk. unfold error_status.
  destruct (err_status e) as [j|]; [|split; [lia|discriminate]].
  destruct (Z.eqb_spec j 0) as [->|Hj].
  - split; [lia|]. intros Heq. inversion Heq. lia.
  - split; [intros ->; reflexivity|]. intros Heq. inversion Heq. reflexivity.
Qed.

(** [handleDeletionError], case by case, in the words of the
    classification. *)
Lemma handleDeletionError_cases (e : JsError) :
  (err_status e = Some 403 →
   contains_ignoring_case (examined_text e) "protected" = true →
   handleDeletionError e = ResProtectedRuleBlocked (examined_text e))
  ∧ (err_status e = Some 403 →
     contains_ignoring_case (examined_text e) "protected" = false →
     handleDeletionError e = ResTokenInsufficient (examined_text e))
  ∧ (err_status e = Some 422 →
     handleDeletionError e = ResAlreadyDeleted "Branch reference not found")
  ∧ (err_status e = Some 404 →
     handleDeletionError e = ResAlreadyDeleted "Branch not found")
  ∧ (err_status e ≠ Some 403 → err_status e ≠ Some 422 →
     err_status e ≠ Some 404 →
     handleDeletionError e = ResError (examined_text e)).
Proof.
  unfold handleDeletionError.
  rewrite error_message_examined.
  rewrite (CaseFacts.includes_lowered "protected" _ eq_refl).
  pose proof (error_status_some e 403) as H403.
  pose proof (error_status_some e 422) as H422.
  pose proof (error_status_some e 404) as H404.
  repeat split.
  - intros Hs Hp. rewrite (proj2 (H403 ltac:(lia)) Hs). cbn. rewrite Hp.
    reflexivity.
  - intros Hs Hp. rewrite (proj2 (H403 ltac:(lia)) Hs). cbn. rewrite Hp.
    destruct (Js.includes _ _); reflexivity.
  - intros Hs. rewrite (proj2 (H422 ltac:(lia)) Hs). reflexivity.
  - intros Hs. rewrite (proj2 (H404 ltac:(lia)) Hs). reflexivity.
  - intros N403 N422 N404.
    destruct (Z.eqb_spec (error_status e) 403) as [E|_];
      [apply H403 in E; [contradiction|lia]|].
    destruct (Z.eqb_spec (error_status e) 422) as [E|_];
      [apply H422 in E; [contradiction|lia]|].
    destruct (Z.eqb_spec (error_status e) 404) as [E|_];
      [apply H404 in E; [contradiction|lia]|].
    reflexivity.
Qed.

End ClassificationFacts.

(** C3, as the code has it.  When a step of [backupAndDelete] fails with
    error [e], the method resolves to the classification of [e]:
    ProtectedRuleBlocked for status 403 when the examined text contains
    "protected" in any letter case, TokenInsufficient for any other
    403, AlreadyDeleted for 422 and for 404, and Error for every other
    failure, an error without a status included.  The examined text is
    the error's message, and the error written as a string when the
    message is empty; it is also the text the result carries. *)
Theorem backupAndDelete_classifies_failure {W : Type} `{Host W}
    (config : SafetyConfig) (owner repo branchName sha : string)
    (dryRun : bool) (s s' : Run W) (e : JsError) :
  backupAndDelete_try config owner repo branchName sha dryRun s = (inl e, s') →
  ∃ result,
    backupAndDelete config owner repo branchName sha dryRun s = (inr result, s')
    ∧ (err_status e = Some 403 →
       contains_ignoring_case (examined_text e) "protected" = true →
       result = ResProtectedRuleBlocked (examined_text e))
    ∧ (err_status e = Some 403 →
       contains_ignoring_case (examined_text e) "protected" = false →
       result = ResTokenInsufficient (examined_text e))
    ∧ (err_status e = Some 422 →
       result = ResAlreadyDeleted "Branch reference not found")
    ∧ (err_status e = Some 404 →
       result = ResAlreadyDeleted "Branch not found")
    ∧ (err_status e ≠ Some 403 → err_status e ≠ Some 422 →
       err_status e ≠ Some 404 →
       result = ResError (examined_text e)).
Proof.
  intros Htry. exists (handleDeletionError e).
  split; [unfold backupAndDelete, try_catch; rewrite Htry; reflexivity|].
  apply handleDeletionError_cases.
Qed.

Lemma backupAndDelete_classifies_failure_witness :
  let e := GitHubModel.http 403 "Branch is PROTECTED by a rule" in
  let host := Samples.refusing_host (Samples.deletions e) in
  let s := GitHubModel.start Samples.world in
  let s' := snd (@backupAndDelete_try _ host (safety Samples.config)
                   "acme" "app" "bot/fix-1" "abc" false s) in
  @backupAndDelete_try _ host (safety Samples.config) "acme" "app"
    "bot/fix-1" "abc" false s
  = (inl e, s')
  ∧ @backupAndDelete _ host (safety Samples.config) "acme" "app"
      "bot/fix-1" "abc" false s
    = (inr (ResProtectedRuleBlocked "Branch is PROTECTED by a rule"), s').
Proof.
  cbv zeta.
  set (e := GitHubModel.http 403 "Branch is PROTECTED by a rule").
  set (host := Samples.refusing_host (Samples.deletions e)).
  assert (Htry : @backupAndDelete_try _ host (safety Samples.config)
                   "acme" "app" "bot/fix-1" "abc" false
                   (GitHubModel.start Samples.world)
                 = (inl e,
                    snd (@backupAndDelete_try _ host (safety Samples.config)
                           "acme" "app" "bot/fix-1" "abc" false
                           (GitHubModel.start Samples.world))))
    by (vm_compute; reflexivity).
  split; [exact Htry|].
  destruct (@backupAndDelete_classifies_failure _ host
              _ _ _ _ _ _ _ _ _ Htry)
    as (result & Hrun & Hprot & _).
  rewrite Hrun, (Hprot eq_refl eq_refl). reflexivity.
Defined.

(** C3 as stated fails where it reads "its message": an error with
    status 403 and an empty message is examined through its string
    form, here its name, and is classified ProtectedRuleBlocked although
    its message does not contain "protected". *)
Lemma backupAndDelete_classifies_by_message_counterexample :
  let e := {| err_name := "ProtectedError"; err_message := EmptyString;
              err_status := Some 403 |} in
  let run := @backupAndDelete _ (Samples.refusing_host (Samples.deletions e))
               (safety Samples.config) "acme" "app" "bot/fix-1" "abc" false
               (GitHubModel.start Samples.world) in
  err_status e = Some 403
  ∧ contains_ignoring_case (err_message e) "protected" = false
  ∧ ∃ result,
      fst run = inr result
      ∧ result = ResProtectedRuleBlocked "ProtectedError"
      ∧ status result ≠ TokenInsufficient.
Proof.
  cbv zeta. split; [reflexivity|]. split; [reflexivity|].
  exists (ResProtectedRuleBlocked "ProtectedError").
  split; [vm_compute; reflexivity|]. split; [reflexivity|discriminate].
Qed.

Section DryRunFacts.

Context {W : Type} `{Host W}.

Lemma replaceAllChar_slash (s : string) :
  Js.replaceAllChar "/" "-" s = slashes_as_dashes s.
Proof.
  induction s as [|c s IH]; [reflexivity|].
  cbn [Js.replaceAllChar slashes_as_dashes]. rewrite IH.
  rewrite (Ascii.eqb_sym "/" c).
  destruct (Ascii.eqb c "/"); reflexivity.
Qed.

Lemma getBackupTagName_run (config : SafetyConfig) (branchName : string)
    (s : Run W) :
  getBackupTagName config branchName s
  = (inr (backup_tag_name config branchName (dayjs_now (world s))), s).
Proof.
  unfold getBackupTagName, backup_tag_name, bind, dayjs, ret.
  rewrite replaceAllChar_slash. reflexivity.
Qed.

Lemma slashes_as_dashes_length (s : string) :
  String.length (slashes_as_dashes s) = String.length s.
Proof. induction s as [|c s IH]; simpl; congruence. Qed.

Lemma slashes_as_dashes_no_slash (s : string) :
  Js.includes (slashes_as_dashes s) "/" = false.
Proof.
  induction s as [|c s IH]; [reflexivity|].
  cbn [slashes_as_dashes Js.includes String.prefix]. rewrite IH, orb_false_r.
  destruct (Ascii.eqb c "/") eqn:E.
  - reflexivity.
  - destruct (ascii_dec "/" c) as [<-|Hne]; [|reflexivity].
    rewrite Ascii.eqb_refl in E. discriminate.
Qed.

End DryRunFacts.

Module DateFacts.

Lemma below (P : Z → bool) (n : Z) :
  forallb P (map Z.of_nat (seq 0 (Z.to_nat n))) = true →
  ∀ z, 0 ≤ z < n → P z = true.
Proof.
  intros Hall z Hz. rewrite forallb_forall in Hall. apply Hall.
  apply in_map_iff. exists (Z.to_nat z). split; [lia|].
  apply in_seq. lia.
Qed.

Lemma padStart_four (y : Z) :
  0 ≤ y ≤ 9999 → Js.padStart (pretty y) 4 "0" = four_digits y.
Proof.
  intros Hy. apply String.eqb_eq.
  apply (below (fun z => String.eqb (Js.padStart (pretty z) 4 "0")
                            (four_digits z)) 10000);
    [vm_compute; reflexivity|lia].
Qed.

Lemma padStart_two (n : Z) :
  0 ≤ n ≤ 99 → Js.padStart (pretty n) 2 "0" = two_digits n.
Proof.
  intros Hn. apply String.eqb_eq.
  apply (below (fun z => String.eqb (Js.padStart (pretty z) 2 "0")
                            (two_digits z)) 100);
    [vm_compute; reflexivity|lia].
Qed.

Lemma format_YYYYMMDD_spec (d : Dayjs) :
  0 ≤ dj_year d ≤ 9999 → 0 ≤ dj_month d ≤ 11 → 1 ≤ dj_date d ≤ 31 →
  format_YYYYMMDD d
  = spec_YYYYMMDD (dj_year d) (dj_month d + 1) (dj_date d).
Proof.
  intros Hy Hm Hd. unfold format_YYYYMMDD, spec_YYYYMMDD.
  rewrite padStart_four, !padStart_two by lia. reflexivity.
Qed.

End DateFacts.

(** C6. Under [dryRun = true], [backupAndDelete] leaves the run state
    untouched (no request is issued, the host is not changed) and
    resolves to Deleted.  With [create_backup_tag] off the tag is empty;
    with it on, and a clock showing a date of the years 0 to 9999, the
    tag is [<backup_tag_prefix>/<branch, slashes as dashes>/<YYYYMMDD>]
    with the year in four digits, the month (counted from 1) in two and
    the day in two. *)
Theorem backupAndDelete_dryRun_is_pure {W : Type} `{Host W}
    (config : SafetyConfig) (owner repo branchName sha : string) (s : Run W) :
  ∃ tag,
    backupAndDelete config owner repo branchName sha true s
    = (inr (ResDeleted tag), s)
    ∧ (create_backup_tag config = false → tag = EmptyString)
    ∧ (create_backup_tag config = true →
       0 ≤ dj_year (dayjs_now (world s)) ≤ 9999 →
       0 ≤ dj_month (dayjs_now (world s)) ≤ 11 →
       1 ≤ dj_date (dayjs_now (world s)) ≤ 31 →
       tag = backup_tag_prefix config +:+ "/"
             +:+ slashes_as_dashes branchName +:+ "/"
             +:+ spec_YYYYMMDD (dj_year (dayjs_now (world s)))
                   (dj_month (dayjs_now (world s)) + 1)
                   (dj_date (dayjs_now (world s)))).
Proof.
  unfold backupAndDelete, backupAndDelete_try, try_catch, bind.
  destruct (create_backup_tag config); cbn [andb negb].
  - rewrite getBackupTagName_run. eexists. split; [reflexivity|].
    split; [discriminate|]. intros _ Hy Hm Hd.
    unfold backup_tag_name. rewrite DateFacts.format_YYYYMMDD_spec by lia.
    reflexivity.
  - eexists. split; [reflexivity|]. split; [reflexivity|discriminate].
Qed.

Lemma backupAndDelete_dryRun_is_pure_witness :
  let s := GitHubModel.start Samples.world in
  create_backup_tag (safety Samples.config) = true
  ∧ 0 ≤ dj_year (dayjs_now (world s)) ≤ 9999
  ∧ 0 ≤ dj_month (dayjs_now (world s)) ≤ 11
  ∧ 1 ≤ dj_date (dayjs_now (world s)) ≤ 31
  ∧ backupAndDelete (safety Samples.config) "acme" "app" "bot/fix-1" "abc"
      true s
    = (inr (ResDeleted "cleanup-backup/bot-fix-1/20251110"), s).
Proof.
  cbv zeta.
  assert (Hy : 0 ≤ dj_year (dayjs_now
                              (world (GitHubModel.start Samples.world)))
               ≤ 9999) by (simpl; lia).
  assert (Hm : 0 ≤ dj_month (dayjs_now
                               (world (GitHubModel.start Samples.world)))
               ≤ 11) by (simpl; lia).
  assert (Hd : 1 ≤ dj_date (dayjs_now
                              (world (GitHubModel.start Samples.world)))
               ≤ 31) by (simpl; lia).
  split; [reflexivity|]. split; [exact Hy|]. split; [exact Hm|].
  split; [exact Hd|].
  destruct (backupAndDelete_dryRun_is_pure (safety Samples.config)
              "acme" "app" "bot/fix-1" "abc"
              (GitHubModel.start Samples.world))
    as (tag & Hrun & _ & Htag).
  rewrite Hrun, (Htag eq_refl Hy Hm Hd). reflexivity.
Defined.

(** ** Repeating the deletion of a branch that is gone *)

Section GoneBranchFacts.

Context {W : Type} `{Host W}.

Lemma handleDeletionError_missing (e : JsError) :
  error_status e = 422 ∨ error_status e = 404 →
  ∃ text, handleDeletionError e = ResAlreadyDeleted text.
Proof.
  unfold handleDeletionError. intros [-> | ->]; cbn; eauto.
Qed.

Lemma request_world (r : Request) (s : Run W) :
  world (snd (request r s)) = snd (octokit_request r (world s)).
Proof. rewrite request_run. reflexivity. Qed.

Lemma request_answer (r : Request) (s : Run W) :
  fst (request r s) = fst (octokit_request r (world s)).
Proof. rewrite request_run. reflexivity. Qed.

(** Under the contract, the tag creation of a gone branch either
    resolves or is refused with 422, and the branch stays gone. *)
Lemma createBackupTag_on_gone (Gone : W → Prop) (config : SafetyConfig)
    (owner repo b sha : string) (s : Run W) :
  gone_branch_contract Gone owner repo b sha →
  Gone (world s) →
  ∃ r s', createBackupTag config owner repo b sha s = (r, s')
          ∧ ok_or_collision r ∧ Gone (world s').
Proof.
  intros C Hg.
  unfold createBackupTag.
  rewrite (bind_inr _ _ _ _ _ (getBackupTagName_run config b s)).
  rewrite (bind_inr _ _ _ _ _ (dayjs_run s)).
  set (tag := backup_tag_name config b (dayjs_now (world s))).
  match goal with
  | |- context [request (PostTag owner repo tag ?m sha)] => set (msg := m)
  end.
  destruct (gone_tag_object _ _ _ _ _ C (world s) tag msg Hg) as (Ht & Hg1).
  rewrite <- request_world in Hg1. rewrite <- request_answer in Ht.
  destruct (request (PostTag owner repo tag msg sha) s) as [[e|obj] s1] eqn:E1;
    cbn [fst snd] in Ht, Hg1.
  - rewrite (bind_inl _ _ _ _ _ E1). eauto.
  - rewrite (bind_inr _ _ _ _ _ E1).
    destruct (gone_tag_ref _ _ _ _ _ C (world s1) tag obj Hg1) as (Hr & Hg2).
    rewrite <- request_world in Hg2. rewrite <- request_answer in Hr.
    destruct (request (PostRef owner repo ("refs/tags/" +:+ tag) obj) s1)
      as [[e|u] s2] eqn:E2; cbn [fst snd] in Hr, Hg2.
    + rewrite (bind_inl _ _ _ _ _ E2).
      eexists. eexists. split; [reflexivity|]. split; [|exact Hg2].
      intros e' He'. inversion He'; subst. apply Hr. reflexivity.
    + rewrite (bind_inr _ _ _ _ _ E2).
      eexists. eexists. split; [reflexivity|]. split; [|exact Hg2].
      intros e' He'. discriminate.
Qed.

Lemma deleteBranch_on_gone (Gone : W → Prop)
    (owner repo b sha : string) (s : Run W) :
  gone_branch_contract Gone owner repo b sha →
  Gone (world s) →
  ∃ e s', deleteBranch owner repo b s = (inl e, s')
          ∧ (error_status e = 422 ∨ error_status e = 404)
          ∧ Gone (world s').
Proof.
  intros C Hg. unfold deleteBranch.
  destruct (gone_delete _ _ _ _ _ C (world s) Hg) as ((e & He & Hst) & Hg1).
  rewrite <- request_world in Hg1. rewrite <- request_answer in He.
  destruct (request (DeleteRef owner repo ("heads/" +:+ b)) s)
    as [r s1] eqn:E; cbn [fst snd] in He, Hg1. subst r.
  exists e, s1. auto.
Qed.

(** On a gone branch one invocation resolves to AlreadyDeleted. *)
Lemma backupAndDelete_on_gone (Gone : W → Prop) (config : SafetyConfig)
    (owner repo b sha : string) (s : Run W) :
  gone_branch_contract Gone owner repo b sha →
  Gone (world s) →
  ∃ text s',
    backupAndDelete config owner repo b sha false s
    = (inr (ResAlreadyDeleted text), s')
    ∧ Gone (world s').
Proof.
  intros C Hg.
  unfold backupAndDelete, backupAndDelete_try.
  destruct (create_backup_tag config); cbn [andb negb].
  - destruct (createBackupTag_on_gone Gone config owner repo b sha s C Hg)
      as ([e|tag] & s1 & Hc & Hcol & Hg1).
    + rewrite (try_catch_inl _ _ _ _ _ (bind_inl _ _ _ _ _ Hc)).
      destruct (handleDeletionError_missing e) as (text & ->).
      { left. apply Hcol. reflexivity. }
      eauto.
    + destruct (deleteBranch_on_gone Gone owner repo b sha s1 C Hg1)
        as (e & s2 & Hd & Hst & Hg2).
      rewrite (try_catch_inl _ _ s s2 e).
      * destruct (handleDeletionError_missing e Hst) as (text & ->). eauto.
      * rewrite (bind_inr _ _ _ _ _ Hc). apply bind_inl. exact Hd.
  - destruct (deleteBranch_on_gone Gone owner repo b sha s C Hg)
      as (e & s2 & Hd & Hst & Hg2).
    rewrite (try_catch_inl _ _ s s2 e).
    + destruct (handleDeletionError_missing e Hst) as (text & ->). eauto.
    + unfold bind at 1. unfold ret at 1. apply bind_inl. exact Hd.
Qed.

End GoneBranchFacts.

Module DeletedBranchFacts.
Import GitHubModel.

Lemma mem_app (x : string) (l1 l2 : list string) :
  mem x (l1 ++ l2) = mem x l1 || mem x l2.
Proof. unfold mem. apply existsb_app. Qed.

Lemma head_ref_is_no_tag_ref (b t : string) :
  String.eqb ("refs/heads/" +:+ b) ("refs/tags/" +:+ t) = false.
Proof. reflexivity. Qed.

(** The reference model honours the contract, with [Gone] the states
    without the branch ref; so does any later clock. *)
Lemma reference_model_contract (owner repo b sha : string) :
  gone_branch_contract
    (fun w => mem ("refs/heads/" +:+ b) (refs w) = false)
    owner repo b sha.
Proof.
  split.
  - intros w tag message Hg. cbn [octokit_request host handle fst snd].
    split; [|exact Hg]. intros e He. discriminate.
  - intros w tag object Hg. cbn [octokit_request host handle].
    destruct (mem ("refs/tags/" +:+ tag) (refs w)); cbn [fst snd].
    + split; [|exact Hg]. intros e He. inversion He; subst. reflexivity.
    + split; [intros e He; discriminate|].
      cbn [with_refs refs]. rewrite mem_app, Hg.
      unfold mem. cbn [existsb]. rewrite head_ref_is_no_tag_ref.
      reflexivity.
  - intros w Hg. cbn [octokit_request host handle].
    change ("refs/" +:+ "heads/" +:+ b) with ("refs/heads/" +:+ b).
    rewrite Hg. cbn [fst snd]. split; [|exact Hg].
    eexists. split; [reflexivity|]. left. reflexivity.
Qed.

End DeletedBranchFacts.

(** *** The requests of a live deletion *)

Section LiveDeletionFacts.

Context {W : Type} `{Host W}.

Lemma request_calls (r : Request) (s s1 : Run W) (x : Result (Resp r)) :
  request r s = (x, s1) → calls s1 = calls s ++ [mkCall r (is_ok x)].
Proof. rewrite request_run. intros Hr. inversion Hr; subst. reflexivity. Qed.

Lemma handleDeletionError_not_Deleted (e : JsError) (tag : string) :
  handleDeletionError e ≠ ResDeleted tag.
Proof.
  unfold handleDeletionError.
  repeat match goal with
         | |- context [if ?b then _ else _] => destruct b
         end; discriminate.
Qed.

Lemma createBackupTag_steps (config : SafetyConfig)
    (owner repo b sha : string) (s : Run W) :
  createBackupTag config owner repo b sha s
  = bind (request
            (PostTag owner repo
               (backup_tag_name config b (dayjs_now (world s)))
               (backup_message config b (dayjs_now (world s))) sha))
      (fun tagObject =>
         bind (request
                 (PostRef owner repo
                    ("refs/tags/"
                     +:+ backup_tag_name config b (dayjs_now (world s)))
                    tagObject))
           (fun _ => ret (backup_tag_name config b (dayjs_now (world s)))))
      s.
Proof.
  unfold createBackupTag.
  rewrite (bind_inr _ _ _ _ _ (getBackupTagName_run config b s)).
  rewrite (bind_inr _ _ _ _ _ (dayjs_run s)). reflexivity.
Qed.

(** The four ways the tag creation and the deletion can go. *)
Lemma backupAndDelete_with_backup (config : SafetyConfig)
    (owner repo b sha : string) (s : Run W) :
  create_backup_tag config = true →
  ∃ object,
    let tag := backup_tag_name config b (dayjs_now (world s)) in
    let t := PostTag owner repo tag
               (backup_message config b (dayjs_now (world s))) sha in
    let f := PostRef owner repo ("refs/tags/" +:+ tag) object in
    let d := DeleteRef owner repo ("heads/" +:+ b) in
    let run := backupAndDelete config owner repo b sha false s in
    (calls (snd run) = calls s ++ [mkCall t false]
     ∧ ∃ e, fst run = inr (handleDeletionError e))
    ∨ (calls (snd run) = calls s ++ [mkCall t true; mkCall f false]
       ∧ ∃ e, fst run = inr (handleDeletionError e))
    ∨ (calls (snd run)
       = calls s ++ [mkCall t true; mkCall f true; mkCall d false]
       ∧ ∃ e, fst run = inr (handleDeletionError e))
    ∨ (calls (snd run)
       = calls s ++ [mkCall t true; mkCall f true; mkCall d true]
       ∧ fst run = inr (ResDeleted tag)).
Proof.
  intros Hcfg. cbv zeta.
  unfold backupAndDelete, backupAndDelete_try. rewrite Hcfg.
  cbn [andb negb].
  set (tag := backup_tag_name config b (dayjs_now (world s))).
  set (msg := backup_message config b (dayjs_now (world s))).
  pose proof (createBackupTag_steps config owner repo b sha s) as Hsteps.
  fold tag msg in Hsteps.
  destruct (request (PostTag owner repo tag msg sha) s)
    as [[e|obj] s1] eqn:E1.
  - exists EmptyString. left.
    rewrite (bind_inl _ _ _ _ _ E1) in Hsteps.
    rewrite (try_catch_inl _ _ s s1 e) by (apply bind_inl; exact Hsteps).
    split; [apply (request_calls _ _ _ _ E1)|eauto].
  - exists obj.
    pose proof (request_calls _ _ _ _ E1) as C1. cbn [is_ok] in C1.
    rewrite (bind_inr _ _ _ _ _ E1) in Hsteps.
    destruct (request (PostRef owner repo ("refs/tags/" +:+ tag) obj) s1)
      as [[e|u] s2] eqn:E2.
    + right. left.
      pose proof (request_calls _ _ _ _ E2) as C2. cbn [is_ok] in C2.
      rewrite (bind_inl _ _ _ _ _ E2) in Hsteps.
      rewrite (try_catch_inl _ _ s s2 e) by (apply bind_inl; exact Hsteps).
      split; [|eauto]. cbn [snd ret]. rewrite C2, C1, <- app_assoc.
      reflexivity.
    + pose proof (request_calls _ _ _ _ E2) as C2. cbn [is_ok] in C2.
      rewrite (bind_inr _ _ _ _ _ E2) in Hsteps. unfold ret in Hsteps.
      destruct (deleteBranch owner repo b s2) as [[e|u'] s3] eqn:E3.
      * right. right. left.
        pose proof (request_calls (DeleteRef owner repo ("heads/" +:+ b))
                      s2 s3 (inl e) E3) as C3. cbn [is_ok] in C3.
        rewrite (try_catch_inl _ _ s s3 e).
        -- split; [|eauto]. cbn [snd ret].
           rewrite C3, C2, C1, <- !app_assoc. reflexivity.
        -- rewrite (bind_inr _ _ _ _ _ Hsteps). apply bind_inl. exact E3.
      * right. right. right.
        pose proof (request_calls (DeleteRef owner repo ("heads/" +:+ b))
                      s2 s3 (inr u') E3) as C3. cbn [is_ok] in C3.
        rewrite (try_catch_inr _ _ s s3 (ResDeleted tag)).
        -- split; [|reflexivity]. cbn [snd].
           rewrite C3, C2, C1, <- !app_assoc. reflexivity.
        -- rewrite (bind_inr _ _ _ _ _ Hsteps).
           rewrite (bind_inr _ _ _ _ _ E3). reflexivity.
Qed.

End LiveDeletionFacts.

Section LiveDeletionWithoutBackup.

Context {W : Type} `{Host W}.

(** Without backups the deletion is the only request. *)
Lemma backupAndDelete_without_backup (config : SafetyConfig)
    (owner repo b sha : string) (s : Run W) :
  create_backup_tag config = false →
  let d := DeleteRef owner repo ("heads/" +:+ b) in
  let run := backupAndDelete config owner repo b sha false s in
  (calls (snd run) = calls s ++ [mkCall d false]
   ∧ ∃ e, fst run = inr (handleDeletionError e))
  ∨ (calls (snd run) = calls s ++ [mkCall d true]
     ∧ fst run = inr (ResDeleted EmptyString)).
Proof.
  intros Hcfg. cbv zeta.
  unfold backupAndDelete, backupAndDelete_try. rewrite Hcfg.
  cbn [andb negb].
  destruct (deleteBranch owner repo b s) as [[e|u] s1] eqn:E.
  - left.
    pose proof (request_calls (DeleteRef owner repo ("heads/" +:+ b))
                  s s1 (inl e) E) as C. cbn [is_ok] in C.
    rewrite (try_catch_inl _ _ s s1 e).
    + split; [exact C|eauto].
    + rewrite (bind_inr _ _ s s EmptyString) by reflexivity.
      apply bind_inl. exact E.
  - right.
    pose proof (request_calls (DeleteRef owner repo ("heads/" +:+ b))
                  s s1 (inr u) E) as C. cbn [is_ok] in C.
    rewrite (try_catch_inr _ _ s s1 (ResDeleted EmptyString)).
    + split; [exact C|reflexivity].
    + rewrite (bind_inr _ _ s s EmptyString) by reflexivity.
      rewrite (bind_inr _ _ _ _ _ E). reflexivity.
Qed.

End LiveDeletionWithoutBackup.

Section GoneBranchSteps.

Context {W : Type} `{Host W}.

(** On a gone branch, under the contract, a live invocation resolves
    to AlreadyDeleted after the refused tag object, or the tag object
    and the refused tag ref, or both and the refused deletion. *)
Lemma backupAndDelete_on_gone_steps (Gone : W → Prop)
    (config : SafetyConfig) (owner repo b sha : string) (s : Run W) :
  gone_branch_contract Gone owner repo b sha →
  Gone (world s) →
  let run := backupAndDelete config owner repo b sha false s in
  let d := DeleteRef owner repo ("heads/" +:+ b) in
  (∃ text, fst run = inr (ResAlreadyDeleted text))
  ∧ Gone (world (snd run))
  ∧ (create_backup_tag config = false →
     calls (snd run) = calls s ++ [mkCall d false])
  ∧ (create_backup_tag config = true →
     ∃ object,
       let tag := backup_tag_name config b (dayjs_now (world s)) in
       let t := PostTag owner repo tag
                  (backup_message config b (dayjs_now (world s))) sha in
       let f := PostRef owner repo ("refs/tags/" +:+ tag) object in
       calls (snd run) = calls s ++ [mkCall t false]
       ∨ calls (snd run) = calls s ++ [mkCall t true; mkCall f false]
       ∨ calls (snd run)
         = calls s ++ [mkCall t true; mkCall f true; mkCall d false]).
Proof.
  intros C Hg. cbv zeta.
  destruct (backupAndDelete_on_gone Gone config owner repo b sha s C Hg)
    as (text & s' & Hrun & Hg').
  rewrite Hrun. cbn [fst snd].
  split; [eauto|]. split; [exact Hg'|]. split.
  - intros Hoff.
    pose proof (backupAndDelete_without_backup config owner repo b sha s
                  Hoff) as Hsteps.
    cbv zeta in Hsteps. rewrite Hrun in Hsteps. cbn [fst snd] in Hsteps.
    destruct Hsteps as [(Hc & _)|(_ & Hbad)];
      [exact Hc|discriminate].
  - intros Hon.
    destruct (backupAndDelete_with_backup config owner repo b sha s Hon)
      as (object & Hsteps).
    cbv zeta in Hsteps. rewrite Hrun in Hsteps. cbn [fst snd] in Hsteps.
    exists object.
    destruct Hsteps as [(Hc & _)|[(Hc & _)|[(Hc & _)|(_ & Hbad)]]];
      [auto|auto|auto|discriminate].
Qed.

End GoneBranchSteps.

(** C5, as the code has it.  On a host that honours the contract of a
    gone branch (the tag object and the tag ref are created or refused
    with 422, the deletion of the missing ref is refused with 422 or
    404), a live [backupAndDelete] on a branch that is gone resolves to
    AlreadyDeleted, and so does a second one, right after the first or
    from any later state in which the branch is still gone.  With
    backups on, each invocation attempts the tag again: it ends at the
    refused tag object, or at the refused tag ref (the duplicate of an
    earlier invocation) without attempting the deletion, or at the
    refused deletion. *)
Theorem backupAndDelete_twice_on_deleted_branch {W : Type} `{Host W}
    (Gone : W → Prop) (config : SafetyConfig)
    (owner repo branchName sha : string) (s : Run W) :
  gone_branch_contract Gone owner repo branchName sha →
  Gone (world s) →
  let first := backupAndDelete config owner repo branchName sha false s in
  (∃ text, fst first = inr (ResAlreadyDeleted text))
  ∧ Gone (world (snd first))
  ∧ ∀ t : Run W,
      Gone (world t) →
      let second := backupAndDelete config owner repo branchName sha false t in
      let d := DeleteRef owner repo ("heads/" +:+ branchName) in
      (∃ text, fst second = inr (ResAlreadyDeleted text))
      ∧ (create_backup_tag config = false →
         calls (snd second) = calls t ++ [mkCall d false])
      ∧ (create_backup_tag config = true →
         ∃ object,
           let tag :=
             backup_tag_name config branchName (dayjs_now (world t)) in
           let o := PostTag owner repo tag
                      (backup_message config branchName
                         (dayjs_now (world t))) sha in
           let f := PostRef owner repo ("refs/tags/" +:+ tag) object in
           calls (snd second) = calls t ++ [mkCall o false]
           ∨ calls (snd second) = calls t ++ [mkCall o true; mkCall f false]
           ∨ calls (snd second)
             = calls t ++ [mkCall o true; mkCall f true; mkCall d false]).
Proof.
  intros C Hg. cbv zeta.
  destruct (backupAndDelete_on_gone_steps Gone config owner repo branchName
              sha s C Hg) as (H1 & Hg1 & _).
  split; [exact H1|]. split; [exact Hg1|].
  intros t Ht.
  destruct (backupAndDelete_on_gone_steps Gone config owner repo branchName
              sha t C Ht) as (H2 & _ & Hoff & Hon).
  auto.
Qed.

Lemma backupAndDelete_twice_on_deleted_branch_witness :
  let Gone := fun w =>
    GitHubModel.mem "refs/heads/bot/gone" (GitHubModel.refs w) = false in
  let s := GitHubModel.start Samples.world in
  let first := backupAndDelete (safety Samples.config) "acme" "app"
                 "bot/gone" "0a1b" false s in
  let second := backupAndDelete (safety Samples.config) "acme" "app"
                  "bot/gone" "0a1b" false (snd first) in
  Gone (world s)
  ∧ (∃ text, fst first = inr (ResAlreadyDeleted text))
  ∧ (∃ text, fst second = inr (ResAlreadyDeleted text))
  ∧ map (fun c => (mutating (call_request c), call_ok c)) (calls (snd first))
    = [(true, true); (true, true); (true, false)]
  ∧ map (fun c => (mutating (call_request c), call_ok c))
      (calls (snd second))
    = [(true, true); (true, true); (true, false);
       (true, true); (true, false)].
Proof.
  cbv zeta.
  assert (Hg : GitHubModel.mem "refs/heads/bot/gone"
                 (GitHubModel.refs
                    (world (GitHubModel.start Samples.world))) = false)
    by reflexivity.
  destruct (backupAndDelete_twice_on_deleted_branch
              (fun w => GitHubModel.mem "refs/heads/bot/gone"
                          (GitHubModel.refs w) = false)
              (safety Samples.config) "acme" "app" "bot/gone" "0a1b"
              (GitHubModel.start Samples.world)
              (DeletedBranchFacts.reference_model_contract
                 "acme" "app" "bot/gone" "0a1b") Hg)
    as (H1 & Hg1 & Hsecond).
  destruct (Hsecond _ Hg1) as (H2 & _).
  split; [exact Hg|]. split; [exact H1|]. split; [exact H2|].
  split; vm_compute; reflexivity.
Defined.

(** C5 as stated fails on a host that does not create the tag object:
    while tag objects are answered 500, both invocations on the gone
    branch resolve to Error. *)
Lemma backupAndDelete_twice_on_deleted_branch_counterexample :
  let host :=
    Samples.refusing_host
      (Samples.tag_objects (GitHubModel.http 500 "Internal Server Error")) in
  let s := GitHubModel.start Samples.world in
  let first := @backupAndDelete _ host (safety Samples.config) "acme" "app"
                 "bot/gone" "0a1b" false s in
  let second := @backupAndDelete _ host (safety Samples.config) "acme" "app"
                  "bot/gone" "0a1b" false (snd first) in
  GitHubModel.mem "refs/heads/bot/gone" (GitHubModel.refs (world s)) = false
  ∧ fst first = inr (ResError "Internal Server Error")
  ∧ fst second = inr (ResError "Internal Server Error").
Proof. cbv zeta. repeat split; vm_compute; reflexivity. Qed.

(** The second invocation on the same day stops at the duplicate tag
    ref: the tag object is created again, the ref creation is refused,
    and no deletion is attempted. *)
Example backupAndDelete_second_invocation_calls :
  let s1 := snd (backupAndDelete (safety Samples.config) "acme" "app"
                   "bot/gone" "0a1b" false
                   (GitHubModel.start Samples.world)) in
  let run2 := backupAndDelete (safety Samples.config) "acme" "app"
                "bot/gone" "0a1b" false
                {| world := world s1; calls := []; issueCache := ∅;
                   records := [] |} in
  fst run2 = inr (ResAlreadyDeleted "Branch reference not found")
  ∧ map (fun c => (mutating (call_request c), call_ok c)) (calls (snd run2))
    = [(true, true); (true, false)]
  ∧ map call_ok (calls s1) = [true; true; false].
Proof. vm_compute. auto. Qed.

(** ** The per-branch pipeline *)

Section BranchFacts.

Context {W : Type} `{Host W}.

(** What [checkBranch] does with each answer of the host. *)
Lemma checkBranch_run (owner repo branch : string) (s : Run W) :
  checkBranch owner repo branch s =
  let r := GetBranch owner repo branch in
  let s1 := snd (request r s) in
  match fst (request r s) with
  | inr p => (inr {| bi_name := branch; bi_protected := p;
                     bi_exists := true |}, s1)
  | inl e =>
      if status_is e 404
      then (inr {| bi_name := branch; bi_protected := false;
                   bi_exists := false |}, s1)
      else (inl e, s1)
  end.
Proof.
  unfold checkBranch, try_catch, bind, ret, throw. cbv zeta.
  destruct (request (GetBranch owner repo branch) s) as [[e|p] s1]; simpl.
  - destruct (status_is e 404); reflexivity.
  - reflexivity.
Qed.

Lemma checkBranch_missing (owner repo branch : string) (s s1 : Run W)
    (info : BranchInfo) :
  checkBranch owner repo branch s = (inr info, s1) →
  bi_exists info = false →
  calls s1 = calls s ++ [mkCall (GetBranch owner repo branch) false]
  ∧ records s1 = records s ∧ issueCache s1 = issueCache s.
Proof.
  rewrite checkBranch_run. cbv zeta. rewrite request_run.
  destruct (octokit_request (GetBranch owner repo branch) (world s))
    as [[e|p] w']; simpl.
  - destruct (status_is e 404); intros Hc He; [|discriminate Hc].
    inversion Hc; subst; simpl. auto.
  - intros Hc He. inversion Hc; subst. discriminate He.
Qed.

Lemma tooRecent_no_timestamp (config : Config) (now : Dayjs)
    (candidate : BranchCandidate) :
  mergedAt candidate = None → tooRecent config now candidate = None.
Proof. intros Hm. unfold tooRecent. rewrite Hm. reflexivity. Qed.

(** Past the existence, protection and age checks, with a reachable
    branch, the record is the outcome of [backupAndDelete]. *)
Lemma processBranch_proceeds (config : Config) (dryRun : bool)
    (owner repo defaultBranch : string) (candidate : BranchCandidate)
    (s s1 s2 s3 : Run W) (info : BranchInfo) (result : DeletionResult) :
  checkBranch owner repo (branchName candidate) s = (inr info, s1) →
  bi_exists info = true →
  bi_protected info = false →
  tooRecent config (dayjs_now (world s1)) candidate = None →
  isBranchReachable owner repo defaultBranch (branchName candidate) s1
  = (inr true, s2) →
  backupAndDelete (safety config) owner repo (branchName candidate)
    (sha candidate) dryRun s2 = (inr result, s3) →
  processBranch config dryRun owner repo defaultBranch candidate s
  = (inr (baseRecord owner repo defaultBranch candidate false
            (status result) (result_backupTag result)
            (result_error result)), s3).
Proof.
  intros Hc He Hp Ht Hr Hb.
  unfold processBranch. rewrite (bind_inr _ _ _ _ _ Hc).
  rewrite He, Hp. cbn [negb].
  unfold dayjs at 1. unfold bind at 1. rewrite Ht.
  unfold reachAndDelete. rewrite (bind_inr _ _ _ _ _ Hr). cbn [negb].
  rewrite (bind_inr _ _ _ _ _ Hb). reflexivity.
Qed.

Lemma status_not_SkippedExcluded (result : DeletionResult) :
  status result ≠ SkippedExcluded.
Proof. destruct result; discriminate. Qed.

(** No path of [processBranch] records SkippedExcluded. *)
Lemma processBranch_never_SkippedExcluded (config : Config) (dryRun : bool)
    (owner repo defaultBranch : string) (candidate : BranchCandidate)
    (s s' : Run W) (record : CleanupRecord) :
  processBranch config dryRun owner repo defaultBranch candidate s
  = (inr record, s') →
  actionTaken record ≠ SkippedExcluded.
Proof.
  unfold processBranch. intros Hp.
  apply bind_inv in Hp as [(e & _ & Hbad) | (info & s1 & _ & Hp)];
    [discriminate|].
  destruct (bi_exists info); cbn [negb] in Hp.
  2:{ inversion Hp; subst. discriminate. }
  destruct (bi_protected info).
  { inversion Hp; subst. discriminate. }
  apply bind_inv in Hp as [(e & _ & Hbad) | (now & s2 & _ & Hp)];
    [discriminate|].
  destruct (tooRecent config now candidate).
  { inversion Hp; subst. discriminate. }
  unfold reachAndDelete in Hp.
  apply bind_inv in Hp as [(e & _ & Hbad) | (reach & s3 & _ & Hp)];
    [discriminate|].
  destruct reach; cbn [negb] in Hp.
  2:{ inversion Hp; subst. discriminate. }
  apply bind_inv in Hp as [(e & _ & Hbad) | (result & s4 & _ & Hp)];
    [discriminate|].
  inversion Hp; subst. apply status_not_SkippedExcluded.
Qed.

End BranchFacts.

(** C1. When the branch lookup of [processBranch] reports that the
    branch does not exist, the record is AlreadyDeleted whatever the
    candidate, the configuration and the dry-run flag are, and the only
    request issued for the candidate is that (failed) lookup: no mutating
    call is made. *)
Theorem processBranch_missing_is_AlreadyDeleted {W : Type} `{Host W}
    (config : Config) (dryRun : bool) (owner repo defaultBranch : string)
    (candidate : BranchCandidate) (s s1 : Run W) (info : BranchInfo) :
  checkBranch owner repo (branchName candidate) s = (inr info, s1) →
  bi_exists info = false →
  processBranch config dryRun owner repo defaultBranch candidate s
  = (inr (baseRecord owner repo defaultBranch candidate false
            AlreadyDeleted EmptyString EmptyString), s1)
  ∧ calls s1
    = calls s ++ [mkCall (GetBranch owner repo (branchName candidate)) false]
  ∧ (∀ c, c ∈ calls s1 → c ∈ calls s ∨ mutating (call_request c) = false).
Proof.
  intros Hc He.
  destruct (checkBranch_missing _ _ _ _ _ _ Hc He) as (Hcalls & _ & _).
  split; [|split].
  - unfold processBranch. rewrite (bind_inr _ _ _ _ _ Hc), He. reflexivity.
  - exact Hcalls.
  - intros c Hin. rewrite Hcalls in Hin.
    apply elem_of_app in Hin as [Hin|Hin]; [left; exact Hin|right].
    apply list_elem_of_singleton in Hin. subst c. reflexivity.
Qed.

Lemma processBranch_missing_is_AlreadyDeleted_witness :
  let s := GitHubModel.start Samples.world in
  let info := {| bi_name := "bot/gone"; bi_protected := false;
                 bi_exists := false |} in
  let s1 := snd (checkBranch "acme" "app" "bot/gone" s) in
  checkBranch "acme" "app" "bot/gone" s = (inr info, s1)
  ∧ fst (processBranch Samples.config false "acme" "app" "main"
           Samples.gone s)
    = inr (baseRecord "acme" "app" "main" Samples.gone false
             AlreadyDeleted EmptyString EmptyString)
  ∧ calls s1 = [mkCall (GetBranch "acme" "app" "bot/gone") false].
Proof.
  cbv zeta.
  assert (Hc : checkBranch "acme" "app" (branchName Samples.gone)
                 (GitHubModel.start Samples.world)
               = (inr {| bi_name := "bot/gone"; bi_protected := false;
                         bi_exists := false |},
                  snd (checkBranch "acme" "app" "bot/gone"
                         (GitHubModel.start Samples.world))))
    by (vm_compute; reflexivity).
  split; [exact Hc|].
  destruct (processBranch_missing_is_AlreadyDeleted Samples.config false
              "acme" "app" "main" Samples.gone _ _ _ Hc eq_refl)
    as (Hrun & Hcalls & _).
  split; [rewrite Hrun; reflexivity | exact Hcalls].
Defined.

(** C9. A candidate without a merge timestamp skips the age gate: if it
    exists, is unprotected and is reachable from the default branch, it
    goes to [backupAndDelete] and the record carries that outcome,
    whatever [minimum_age_days] is. *)
Theorem processBranch_without_mergedAt_proceeds {W : Type} `{Host W}
    (config : Config) (dryRun : bool) (owner repo defaultBranch : string)
    (candidate : BranchCandidate) (s s1 s2 : Run W) (info : BranchInfo) :
  mergedAt candidate = None →
  checkBranch owner repo (branchName candidate) s = (inr info, s1) →
  bi_exists info = true →
  bi_protected info = false →
  isBranchReachable owner repo defaultBranch (branchName candidate) s1
  = (inr true, s2) →
  ∃ result s3,
    backupAndDelete (safety config) owner repo (branchName candidate)
      (sha candidate) dryRun s2 = (inr result, s3)
    ∧ processBranch config dryRun owner repo defaultBranch candidate s
      = (inr (baseRecord owner repo defaultBranch candidate false
                (status result) (result_backupTag result)
                (result_error result)), s3).
Proof.
  intros Hm Hc He Hp Hr.
  destruct (backupAndDelete_total (safety config) owner repo
              (branchName candidate) (sha candidate) dryRun s2)
    as (result & s3 & Hb).
  exists result, s3. split; [exact Hb|].
  eapply processBranch_proceeds; eauto using tooRecent_no_timestamp.
Qed.

Lemma processBranch_without_mergedAt_proceeds_witness :
  let s := GitHubModel.start Samples.world in
  let info := {| bi_name := "bot/fix-1"; bi_protected := false;
                 bi_exists := true |} in
  let s1 := snd (checkBranch "acme" "app" "bot/fix-1" s) in
  let s2 := snd (isBranchReachable "acme" "app" "main" "bot/fix-1" s1) in
  mergedAt Samples.undated = None
  ∧ checkBranch "acme" "app" "bot/fix-1" s = (inr info, s1)
  ∧ isBranchReachable "acme" "app" "main" "bot/fix-1" s1 = (inr true, s2)
  ∧ ∃ result s3,
      backupAndDelete (safety Samples.strict_config) "acme" "app" "bot/fix-1"
        "abc" true s2 = (inr result, s3)
      ∧ processBranch Samples.strict_config true "acme" "app" "main"
          Samples.undated s
        = (inr (baseRecord "acme" "app" "main" Samples.undated false
                  (status result) (result_backupTag result)
                  (result_error result)), s3).
Proof.
  cbv zeta.
  assert (Hc : checkBranch "acme" "app" (branchName Samples.undated)
                 (GitHubModel.start Samples.world)
               = (inr {| bi_name := "bot/fix-1"; bi_protected := false;
                         bi_exists := true |},
                  snd (checkBranch "acme" "app" "bot/fix-1"
                         (GitHubModel.start Samples.world))))
    by (vm_compute; reflexivity).
  assert (Hr : isBranchReachable "acme" "app" "main"
                 (branchName Samples.undated)
                 (snd (checkBranch "acme" "app" "bot/fix-1"
                         (GitHubModel.start Samples.world)))
               = (inr true,
                  snd (isBranchReachable "acme" "app" "main" "bot/fix-1"
                         (snd (checkBranch "acme" "app" "bot/fix-1"
                                 (GitHubModel.start Samples.world))))))
    by (vm_compute; reflexivity).
  split; [reflexivity|]. split; [exact Hc|]. split; [exact Hr|].
  exact (processBranch_without_mergedAt_proceeds Samples.strict_config true
           "acme" "app" "main" Samples.undated _ _ _ _
           eq_refl Hc eq_refl eq_refl Hr).
Defined.

Section AgeGateFacts.

Context {W : Type} `{Host W}.

(** With a merge timestamp that parses, a candidate younger than the
    minimum age is recorded as SkippedTooRecent. *)
Lemma processBranch_too_recent (config : Config) (dryRun : bool)
    (owner repo defaultBranch : string) (candidate : BranchCandidate)
    (s s1 : Run W) (info : BranchInfo) (age : Z) :
  checkBranch owner repo (branchName candidate) s = (inr info, s1) →
  bi_exists info = true →
  bi_protected info = false →
  tooRecent config (dayjs_now (world s1)) candidate = Some age →
  processBranch config dryRun owner repo defaultBranch candidate s
  = (inr (baseRecord owner repo defaultBranch candidate false
            SkippedTooRecent EmptyString
            ("Only " +:+ pretty age +:+ " days old")), s1).
Proof.
  intros Hc He Hp Ht.
  unfold processBranch. rewrite (bind_inr _ _ _ _ _ Hc).
  rewrite He, Hp. cbn [negb].
  rewrite (bind_inr _ _ s1 s1 (dayjs_now (world s1))) by reflexivity.
  rewrite Ht. reflexivity.
Qed.

Lemma tooRecent_bound (config : Config) (now : Dayjs)
    (candidate : BranchCandidate) (age : Z) :
  tooRecent config now candidate = Some age →
  age < minimum_age_days (safety config)
  ∧ ∃ m, mergedAt candidate = Some m ∧ m ≠ EmptyString
         ∧ ageInDays now m = Some age.
Proof.
  unfold tooRecent. destruct (mergedAt candidate) as [m|]; [|discriminate].
  unfold Js.truthy. destruct (String.eqb_spec m EmptyString) as [->|Hne];
    cbn [negb]; [discriminate|].
  destruct (ageInDays now m) as [a|] eqn:Ea; [|discriminate].
  destruct (a <? minimum_age_days (safety config)) eqn:Elt; [|discriminate].
  apply Z.ltb_lt in Elt.
  intros Heq. inversion Heq; subst. split; [exact Elt|].
  exists m. repeat split; assumption.
Qed.

End AgeGateFacts.

(** The same branch under a minimum age nothing passes: skipped when the
    candidate carries its merge time, deleted (in a dry run) when it
    carries none. *)
Example age_gate_needs_a_timestamp :
  let s := GitHubModel.start Samples.world in
  Samples.outcome (fst (processBranch Samples.strict_config true "acme" "app"
                          "main" Samples.fix1 s))
  = Some (SkippedTooRecent, "Only 40 days old")
  ∧ Samples.outcome (fst (processBranch Samples.strict_config true "acme"
                            "app" "main" Samples.undated s))
    = Some (Deleted, EmptyString).
Proof. vm_compute. auto. Qed.

(** ** Discovery *)

Section DiscoveryFacts.

Context {W : Type} `{Host W}.

Lemma map_has_app (k : string) (m1 m2 : list (string * BranchCandidate)) :
  map_has k (m1 ++ m2) = map_has k m1 || map_has k m2.
Proof. unfold map_has. apply existsb_app. Qed.

Lemma map_has_elem (k : string) (v : BranchCandidate)
    (m : list (string * BranchCandidate)) :
  (k, v) ∈ m → map_has k m = true.
Proof.
  intros Hin. unfold map_has. apply existsb_exists.
  exists (k, v). split; [apply list_elem_of_In, Hin|].
  apply String.eqb_refl.
Qed.

Lemma map_has_true (k : string) (m : list (string * BranchCandidate)) :
  map_has k m = true → ∃ v, (k, v) ∈ m.
Proof.
  unfold map_has. intros Hex. apply existsb_exists in Hex as ([k' v] & Hin & Heq).
  apply String.eqb_eq in Heq. simpl in Heq. subst k'.
  exists v. apply list_elem_of_In, Hin.
Qed.

Lemma map_set_fresh (k : string) (v : BranchCandidate)
    (m : list (string * BranchCandidate)) :
  map_has k m = false → map_set k v m = m ++ [(k, v)].
Proof.
  induction m as [|[k' v'] m IH]; intros Hf; [reflexivity|].
  cbn [map_set]. unfold map_has in Hf. cbn [existsb fst] in Hf.
  apply orb_false_iff in Hf as [Hk Hm].
  rewrite Hk. cbn [app]. f_equal. apply IH, Hm.
Qed.

(** One turn of the discovery loop. *)
Lemma collectCandidates_step (config : Config) (defaultBranch : string)
    (pr : MergedPR) (rest : list MergedPR)
    (acc out : list (string * BranchCandidate)) :
  collectCandidates config defaultBranch (pr :: rest) acc = inr out →
  (qualifies config defaultBranch pr = false
   ∧ collectCandidates config defaultBranch rest acc = inr out)
  ∨ (qualifies config defaultBranch pr = true
     ∧ map_has (headRefName pr) acc = true
     ∧ collectCandidates config defaultBranch rest acc = inr out)
  ∨ (qualifies config defaultBranch pr = true
     ∧ map_has (headRefName pr) acc = false
     ∧ collectCandidates config defaultBranch rest
         (acc ++ [(headRefName pr, candidate_of pr)]) = inr out).
Proof.
  cbn [collectCandidates]. unfold qualifies.
  destruct (String.eqb (baseRefName pr) defaultBranch); cbn [negb andb];
    [|auto].
  destruct (matchesPatterns config (headRefName pr)) as [e|[|]];
    [discriminate| |auto].
  destruct (isExcluded config (headRefName pr)) as [e|[|]];
    [discriminate|auto|].
  destruct (map_has (headRefName pr) acc) eqn:Eh; cbn [negb]; [auto|].
  rewrite (map_set_fresh _ _ _ Eh). auto.
Qed.

Lemma first_for_skip (config : Config) (defaultBranch name : string)
    (pr : MergedPR) (rest : list MergedPR) :
  qualifies config defaultBranch pr && String.eqb (headRefName pr) name
  = false →
  first_for config defaultBranch name (pr :: rest)
  = first_for config defaultBranch name rest.
Proof. intros Hq. unfold first_for. cbn [find]. rewrite Hq. reflexivity. Qed.

Lemma first_for_hit (config : Config) (defaultBranch : string)
    (pr : MergedPR) (rest : list MergedPR) :
  qualifies config defaultBranch pr = true →
  first_for config defaultBranch (headRefName pr) (pr :: rest) = Some pr.
Proof.
  intros Hq. unfold first_for. cbn [find].
  rewrite Hq, String.eqb_refl. reflexivity.
Qed.

(** The loop only appends; each entry it appends has a fresh key and
    comes from the first qualifying pull request with that head; every
    qualifying pull request ends up with an entry. *)
Lemma collectCandidates_spec (config : Config) (defaultBranch : string)
    (mergedPRs : list MergedPR) :
  ∀ acc out,
    collectCandidates config defaultBranch mergedPRs acc = inr out →
    ∃ new,
      out = acc ++ new
      ∧ NoDup (map fst new)
      ∧ (∀ k v, (k, v) ∈ new →
           map_has k acc = false
           ∧ ∃ pr, first_for config defaultBranch k mergedPRs = Some pr
                   ∧ v = candidate_of pr)
      ∧ (∀ pr, pr ∈ mergedPRs → qualifies config defaultBranch pr = true →
           map_has (headRefName pr) out = true).
Proof.
  induction mergedPRs as [|pr rest IH]; intros acc out Hc.
  - inversion Hc; subst. exists []. rewrite app_nil_r.
    split; [reflexivity|]. split; [constructor|]. split.
    + intros k v Hin. exfalso. eapply not_elem_of_nil; eauto.
    + intros pr Hin. exfalso. eapply not_elem_of_nil; eauto.
  - apply collectCandidates_step in Hc
      as [(Hq & Hc) | [(Hq & Hh & Hc) | (Hq & Hh & Hc)]].
    + (* the pull request does not qualify *)
      destruct (IH _ _ Hc) as (new & -> & Hnd & Hnew & Hall).
      exists new. split; [reflexivity|]. split; [exact Hnd|]. split.
      * intros k v Hin. destruct (Hnew k v Hin) as (Hk & pr' & Hf & ->).
        split; [exact Hk|]. exists pr'. split; [|reflexivity].
        rewrite first_for_skip; [exact Hf|]. rewrite Hq. reflexivity.
      * intros pr' Hin Hq'. apply elem_of_cons in Hin as [->|Hin].
        -- congruence.
        -- apply Hall; assumption.
    + (* its head already has a candidate *)
      destruct (IH _ _ Hc) as (new & -> & Hnd & Hnew & Hall).
      exists new. split; [reflexivity|]. split; [exact Hnd|]. split.
      * intros k v Hin. destruct (Hnew k v Hin) as (Hk & pr' & Hf & ->).
        split; [exact Hk|]. exists pr'. split; [|reflexivity].
        rewrite first_for_skip; [exact Hf|].
        destruct (String.eqb_spec (headRefName pr) k) as [<-|Hne];
          [congruence|]. apply andb_false_r.
      * intros pr' Hin Hq'. apply elem_of_cons in Hin as [->|Hin].
        -- rewrite map_has_app, Hh. reflexivity.
        -- apply Hall; assumption.
    + (* it becomes the candidate of its head *)
      destruct (IH _ _ Hc) as (new & -> & Hnd & Hnew & Hall).
      exists ((headRefName pr, candidate_of pr) :: new).
      rewrite <- app_assoc. cbn [app].
      assert (Hfresh : ∀ k v, (k, v) ∈ new →
                map_has k acc = false ∧ k ≠ headRefName pr).
      { intros k v Hin. destruct (Hnew k v Hin) as (Hk & _).
        rewrite map_has_app in Hk. apply orb_false_iff in Hk as [Hk1 Hk2].
        split; [exact Hk1|]. intros ->.
        unfold map_has in Hk2. cbn in Hk2.
        rewrite String.eqb_refl in Hk2. discriminate. }
      split; [reflexivity|]. split; [|split].
      * cbn [map fst]. constructor; [|exact Hnd].
        intros Hin. apply list_elem_of_fmap in Hin as ([k v] & Hk & Hin).
        cbn in Hk. subst k.
        destruct (Hfresh _ _ Hin) as (_ & Hne). congruence.
      * intros k v Hin. apply elem_of_cons in Hin as [Heq|Hin].
        -- inversion Heq; subst. split; [exact Hh|]. exists pr.
           split; [apply first_for_hit, Hq|reflexivity].
        -- destruct (Hfresh _ _ Hin) as (Hk & Hne).
           split; [exact Hk|].
           destruct (Hnew k v Hin) as (_ & pr' & Hf & ->).
           exists pr'. split; [|reflexivity].
           rewrite first_for_skip; [exact Hf|].
           destruct (String.eqb_spec (headRefName pr) k) as [<-|Hne'];
             [congruence|]. apply andb_false_r.
      * intros pr' Hin Hq'. apply elem_of_cons in Hin as [->|Hin].
        -- rewrite map_has_app. apply orb_true_iff. right.
           apply (map_has_elem _ (candidate_of pr)). apply elem_of_cons. auto.
        -- specialize (Hall pr' Hin Hq').
           rewrite <- app_assoc in Hall. exact Hall.
Qed.

End DiscoveryFacts.

Section FindCandidatesFacts.

Context {W : Type} `{Host W}.

Lemma findCandidates_inv (config : Config) (owner repo defaultBranch : string)
    (s s' : Run W) (candidates : list BranchCandidate) :
  findCandidates config owner repo defaultBranch s = (inr candidates, s') →
  ∃ mergedPRs entries,
    getMergedPRs owner repo s = (inr mergedPRs, s')
    ∧ collectCandidates config defaultBranch mergedPRs [] = inr entries
    ∧ candidates = map snd entries.
Proof.
  unfold findCandidates. intros Hf.
  apply bind_inv in Hf as [(e & _ & Hbad) | (prs & s1 & Hg & Hf)];
    [discriminate|].
  apply bind_inv in Hf as [(e & _ & Hbad) | (entries & s2 & Hl & Hf)];
    [discriminate|].
  unfold lift in Hl. inversion Hl; subst.
  inversion Hf; subst. eauto.
Qed.

(** Every entry of the candidate map is keyed by its own branch name. *)
Lemma first_for_head (config : Config) (defaultBranch name : string)
    (mergedPRs : list MergedPR) (pr : MergedPR) :
  first_for config defaultBranch name mergedPRs = Some pr →
  pr ∈ mergedPRs ∧ qualifies config defaultBranch pr = true
  ∧ headRefName pr = name.
Proof.
  unfold first_for. intros Hf. apply find_some in Hf as (Hin & Hq).
  apply andb_true_iff in Hq as (Hq & Hn). apply String.eqb_eq in Hn.
  split; [apply list_elem_of_In, Hin|auto].
Qed.

Lemma findCandidates_spec (config : Config)
    (owner repo defaultBranch : string) (s s' : Run W)
    (candidates : list BranchCandidate) :
  findCandidates config owner repo defaultBranch s = (inr candidates, s') →
  ∃ mergedPRs,
    getMergedPRs owner repo s = (inr mergedPRs, s')
    ∧ NoDup (map branchName candidates)
    ∧ (∀ c, c ∈ candidates →
         ∃ pr, first_for config defaultBranch (branchName c) mergedPRs
               = Some pr
               ∧ c = candidate_of pr)
    ∧ (∀ pr, pr ∈ mergedPRs → qualifies config defaultBranch pr = true →
         ∃ c, c ∈ candidates ∧ branchName c = headRefName pr).
Proof.
  intros Hf.
  apply findCandidates_inv in Hf as (prs & entries & Hg & Hc & ->).
  apply collectCandidates_spec in Hc as (new & Hout & Hnd & Hnew & Hall).
  cbn [app] in Hout. subst entries.
  assert (Hkey : ∀ k v, (k, v) ∈ new → branchName v = k).
  { intros k v Hin. destruct (Hnew k v Hin) as (_ & pr & Hfirst & ->).
    apply first_for_head in Hfirst as (_ & _ & Hh). exact Hh. }
  exists prs. split; [exact Hg|]. split; [|split].
  - assert (Heq : map branchName (map snd new) = map fst new).
    { rewrite map_map. apply map_ext_in. intros [k v] Hin. cbn.
      apply Hkey, list_elem_of_In, Hin. }
    rewrite Heq. exact Hnd.
  - intros c Hin. apply list_elem_of_fmap in Hin as ([k v] & -> & Hin).
    cbn. destruct (Hnew k v Hin) as (_ & pr & Hfirst & ->).
    exists pr. split; [|reflexivity].
    rewrite (Hkey _ _ Hin). exact Hfirst.
  - intros pr Hin Hq. specialize (Hall pr Hin Hq).
    apply map_has_true in Hall as (v & Hv).
    exists v. split.
    + apply list_elem_of_fmap. exists (headRefName pr, v). auto.
    + apply (Hkey _ _ Hv).
Qed.

Lemma qualifies_not_excluded (config : Config) (defaultBranch : string)
    (pr : MergedPR) :
  qualifies config defaultBranch pr = true →
  isExcluded config (headRefName pr) = inr false.
Proof.
  unfold qualifies. intros Hq. apply andb_true_iff in Hq as (_ & Hq).
  destruct (matchesPatterns config (headRefName pr)) as [e|[|]];
    try discriminate.
  destruct (isExcluded config (headRefName pr)) as [e|[|]];
    try discriminate.
  reflexivity.
Qed.

(** Discovery drops every branch that matches an exclude pattern. *)
Lemma findCandidates_not_excluded (config : Config)
    (owner repo defaultBranch : string) (s s' : Run W)
    (candidates : list BranchCandidate) (c : BranchCandidate) :
  findCandidates config owner repo defaultBranch s = (inr candidates, s') →
  c ∈ candidates →
  isExcluded config (branchName c) = inr false.
Proof.
  intros Hf Hin.
  apply findCandidates_spec in Hf as (prs & _ & _ & Hfirst & _).
  destruct (Hfirst c Hin) as (pr & Hpr & ->).
  apply first_for_head in Hpr as (_ & Hq & _).
  apply (qualifies_not_excluded _ _ _ Hq).
Qed.

End FindCandidatesFacts.

(** The deduplication of [findCandidates] as it is written.  The
    candidates of one repository pass have pairwise distinct branch
    names; the candidate kept for a branch name (head SHA, pull-request
    number, merge time) is the one of the first qualifying pull request
    with that head in the order the enumeration returns them; and every
    qualifying pull request has a candidate of its head name. *)
Theorem findCandidates_first_listed_wins {W : Type} `{Host W}
    (config : Config) (owner repo defaultBranch : string) (s s' : Run W)
    (candidates : list BranchCandidate) :
  findCandidates config owner repo defaultBranch s = (inr candidates, s') →
  ∃ mergedPRs,
    getMergedPRs owner repo s = (inr mergedPRs, s')
    ∧ NoDup (map branchName candidates)
    ∧ (∀ c, c ∈ candidates →
         ∃ pr, first_for config defaultBranch (branchName c) mergedPRs = Some pr
               ∧ sha c = headRefOid pr
               ∧ prNumber c = Some (number pr)
               ∧ mergedAt c = Some (pr_mergedAt pr))
    ∧ (∀ pr, pr ∈ mergedPRs → qualifies config defaultBranch pr = true →
         ∃ c, c ∈ candidates ∧ branchName c = headRefName pr).
Proof.
  intros Hf.
  apply findCandidates_spec in Hf as (prs & Hg & Hnd & Hfirst & Hall).
  exists prs. repeat split; [exact Hg|exact Hnd| |exact Hall].
  intros c Hin. destruct (Hfirst c Hin) as (pr & Hpr & ->).
  exists pr. repeat split. exact Hpr.
Qed.

Lemma findCandidates_first_listed_wins_witness :
  let s := GitHubModel.start Samples.world in
  let s' := snd (findCandidates Samples.config "acme" "app" "main" s) in
  findCandidates Samples.config "acme" "app" "main" s
  = (inr [Samples.fix1; Samples.fix2; Samples.fix3], s')
  ∧ ∃ mergedPRs,
      getMergedPRs "acme" "app" s = (inr mergedPRs, s')
      ∧ NoDup (map branchName [Samples.fix1; Samples.fix2; Samples.fix3]).
Proof.
  cbv zeta.
  assert (Hf : findCandidates Samples.config "acme" "app" "main"
                 (GitHubModel.start Samples.world)
               = (inr [Samples.fix1; Samples.fix2; Samples.fix3],
                  snd (findCandidates Samples.config "acme" "app" "main"
                         (GitHubModel.start Samples.world))))
    by (vm_compute; reflexivity).
  split; [exact Hf|].
  destruct (findCandidates_first_listed_wins _ _ _ _ _ _ _ Hf)
    as (prs & Hg & Hnd & _).
  exists prs. split; assumption.
Defined.

(** On the sample repository pull requests 7 and 9 were both merged
    from bot/fix-1 into main, 9 after 7; the enumeration lists 7 first,
    and the candidate kept for bot/fix-1 is the one of pull request 7,
    not of the most recently merged pull request 9. *)
Lemma findCandidates_most_recently_merged_counterexample :
  let s := GitHubModel.start Samples.world in
  ∃ candidates c merged_c merged_9,
    fst (findCandidates Samples.config "acme" "app" "main" s) = inr candidates
    ∧ c ∈ candidates
    ∧ branchName c = headRefName Samples.pr9
    ∧ Samples.pr9 ∈ concat (GitHubModel.pulls Samples.world)
    ∧ qualifies Samples.config "main" Samples.pr9 = true
    ∧ prNumber c = Some 7
    ∧ mergedAt c = Some "2025-10-01T00:00:00Z"
    ∧ dayjs_parse "2025-10-01T00:00:00Z" = Some merged_c
    ∧ dayjs_parse (pr_mergedAt Samples.pr9) = Some merged_9
    ∧ dj_ms merged_c < dj_ms merged_9.
Proof.
  cbv zeta.
  exists [Samples.fix1; Samples.fix2; Samples.fix3], Samples.fix1.
  eexists. eexists.
  split; [vm_compute; reflexivity|].
  split; [apply elem_of_cons; left; reflexivity|].
  split; [reflexivity|].
  split; [apply list_elem_of_In; vm_compute; auto|].
  split; [vm_compute; reflexivity|].
  split; [reflexivity|].
  split; [reflexivity|].
  split; [vm_compute; reflexivity|].
  split; [vm_compute; reflexivity|].
  vm_compute. reflexivity.
Qed.

(** C4.  The code does not keep the most recently merged pull request
    of a branch, which its own comment announces ("Use the most recent
    PR for each branch"): it keeps the first one the enumeration lists,
    and the enumeration is ordered by update time.  bot/hot was last
    merged two days before the clock, by pull request 22, yet the
    candidate kept is the one of pull request 21, merged forty days
    before and listed first; its age passes the gate of seven days that
    the later merge would not pass, and a live pass deletes the branch
    and records the head of pull request 21. *)
Lemma findCandidates_keeps_a_stale_pull_request :
  let s := GitHubModel.start Samples.stale_world in
  let now := GitHubModel.clock Samples.stale_world in
  fst (getMergedPRs "acme" "app" s) = inr [Samples.pr21; Samples.pr22]
  ∧ fst (findCandidates Samples.config "acme" "app" "main" s)
    = inr [candidate_of Samples.pr21]
  ∧ ageInDays now (pr_mergedAt Samples.pr21) = Some 40
  ∧ ageInDays now (pr_mergedAt Samples.pr22) = Some 2
  ∧ minimum_age_days (safety Samples.config) = 7
  ∧ map (fun r => (branch r, headSha r, mergedPr r, actionTaken r))
      (records (snd (processRepo Samples.config false "acme" "app" s)))
    = [("bot/hot", "old", Some 21, Deleted)].
Proof. cbv zeta. repeat split; vm_compute; reflexivity. Qed.

(** C2, as the code has it.  The per-branch pipeline never consults the
    exclude patterns: a candidate that exists, is unprotected, passes
    the age gate and is reachable goes to [backupAndDelete], its record
    carries that outcome, and no run of [processBranch] records
    SkippedExcluded.  Exclusion is applied at discovery: no candidate
    returned by [findCandidates] matches an exclude pattern. *)
Theorem exclusion_is_applied_at_discovery {W : Type} `{Host W}
    (config : Config) (dryRun : bool) (owner repo defaultBranch : string)
    (candidate : BranchCandidate) (s s1 s2 : Run W) (info : BranchInfo) :
  checkBranch owner repo (branchName candidate) s = (inr info, s1) →
  bi_exists info = true →
  bi_protected info = false →
  tooRecent config (dayjs_now (world s1)) candidate = None →
  isBranchReachable owner repo defaultBranch (branchName candidate) s1
  = (inr true, s2) →
  (∃ result s3,
     backupAndDelete (safety config) owner repo (branchName candidate)
       (sha candidate) dryRun s2 = (inr result, s3)
     ∧ processBranch config dryRun owner repo defaultBranch candidate s
       = (inr (baseRecord owner repo defaultBranch candidate false
                 (status result) (result_backupTag result)
                 (result_error result)), s3)
     ∧ status result ≠ SkippedExcluded)
  ∧ (∀ c t t' record,
       processBranch config dryRun owner repo defaultBranch c t
       = (inr record, t') →
       actionTaken record ≠ SkippedExcluded)
  ∧ (∀ t t' candidates c,
       findCandidates config owner repo defaultBranch t = (inr candidates, t') →
       c ∈ candidates →
       isExcluded config (branchName c) = inr false).
Proof.
  intros Hc He Hp Ht Hr. split; [|split].
  - destruct (backupAndDelete_total (safety config) owner repo
                (branchName candidate) (sha candidate) dryRun s2)
      as (result & s3 & Hb).
    exists result, s3. split; [exact Hb|]. split.
    + eapply processBranch_proceeds; eauto.
    + apply status_not_SkippedExcluded.
  - intros c t t' record. apply processBranch_never_SkippedExcluded.
  - intros t t' candidates c. apply findCandidates_not_excluded.
Qed.

Lemma exclusion_is_applied_at_discovery_witness :
  let s := GitHubModel.start Samples.world in
  let info := {| bi_name := "release/1.0"; bi_protected := false;
                 bi_exists := true |} in
  let s1 := snd (checkBranch "acme" "app" "release/1.0" s) in
  let s2 := snd (isBranchReachable "acme" "app" "main" "release/1.0" s1) in
  checkBranch "acme" "app" "release/1.0" s = (inr info, s1)
  ∧ tooRecent Samples.config (dayjs_now (world s1)) Samples.release = None
  ∧ isBranchReachable "acme" "app" "main" "release/1.0" s1 = (inr true, s2)
  ∧ ∃ result s3,
      backupAndDelete (safety Samples.config) "acme" "app" "release/1.0"
        "r1" false s2 = (inr result, s3)
      ∧ processBranch Samples.config false "acme" "app" "main"
          Samples.release s
        = (inr (baseRecord "acme" "app" "main" Samples.release false
                  (status result) (result_backupTag result)
                  (result_error result)), s3)
      ∧ status result ≠ SkippedExcluded.
Proof.
  cbv zeta.
  assert (Hc : checkBranch "acme" "app" (branchName Samples.release)
                 (GitHubModel.start Samples.world)
               = (inr {| bi_name := "release/1.0"; bi_protected := false;
                         bi_exists := true |},
                  snd (checkBranch "acme" "app" "release/1.0"
                         (GitHubModel.start Samples.world))))
    by (vm_compute; reflexivity).
  assert (Ht : tooRecent Samples.config
                 (dayjs_now
                    (world (snd (checkBranch "acme" "app" "release/1.0"
                                   (GitHubModel.start Samples.world)))))
                 Samples.release = None)
    by (vm_compute; reflexivity).
  assert (Hr : isBranchReachable "acme" "app" "main"
                 (branchName Samples.release)
                 (snd (checkBranch "acme" "app" "release/1.0"
                         (GitHubModel.start Samples.world)))
               = (inr true,
                  snd (isBranchReachable "acme" "app" "main" "release/1.0"
                         (snd (checkBranch "acme" "app" "release/1.0"
                                 (GitHubModel.start Samples.world))))))
    by (vm_compute; reflexivity).
  split; [exact Hc|]. split; [exact Ht|]. split; [exact Hr|].
  exact (proj1 (exclusion_is_applied_at_discovery Samples.config false
                  "acme" "app" "main" Samples.release _ _ _ _
                  Hc eq_refl eq_refl Ht Hr)).
Defined.

(** C2 as stated fails: release/1.0 matches the exclude pattern
    release/*, exists, is unprotected, was merged 39 days ago (the
    minimum is 7) and is behind main; the pipeline records Deleted, not
    SkippedExcluded, and the branch is removed. *)
Lemma processBranch_excluded_counterexample :
  let s := GitHubModel.start Samples.world in
  isExcluded Samples.config (branchName Samples.release) = inr true
  ∧ fst (checkBranch "acme" "app" (branchName Samples.release) s)
    = inr {| bi_name := "release/1.0"; bi_protected := false;
             bi_exists := true |}
  ∧ ageInDays (GitHubModel.clock Samples.world) "2025-10-02T00:00:00Z"
    = Some 39
  ∧ fst (compareCommits "acme" "app" "main" (branchName Samples.release) s)
    = inr {| cmp_status := "behind"; ahead_by := 0; behind_by := 0 |}
  ∧ ∃ record s',
      processBranch Samples.config false "acme" "app" "main"
        Samples.release s = (inr record, s')
      ∧ actionTaken record = Deleted
      ∧ actionTaken record ≠ SkippedExcluded
      ∧ GitHubModel.mem "refs/heads/release/1.0"
          (GitHubModel.refs (world s')) = false.
Proof.
  cbv zeta.
  split; [vm_compute; reflexivity|].
  split; [vm_compute; reflexivity|].
  split; [vm_compute; reflexivity|].
  split; [vm_compute; reflexivity|].
  eexists. eexists.
  split; [vm_compute; reflexivity|].
  split; [reflexivity|].
  split; [discriminate|].
  vm_compute. reflexivity.
Qed.

(** ** Escalation *)

Section PermissionFacts.

Context {W : Type} `{Host W}.

Lemma count_snoc (f : Call → bool) (l : list Call) (c : Call) :
  length (List.filter f (l ++ [c]))
  = (length (List.filter f l) + (if f c then 1 else 0))%nat.
Proof.
  rewrite List.filter_app, length_app. cbn [List.filter].
  destruct (f c); reflexivity.
Qed.

(** What one call of [createPermissionIssue] does to the log and to
    the cache. *)
Lemma createPermissionIssue_effect (owner repo : string) (blockedCount : Z)
    (dryRun : bool) (s : Run W) :
  ∃ s',
    createPermissionIssue owner repo blockedCount dryRun s = (inr tt, s')
    ∧ (issueCreations (calls s) ≤ issueCreations (calls s')
       ≤ issueCreations (calls s) + 1)%nat
    ∧ (successfulCreations (calls s) ≤ successfulCreations (calls s')
       ≤ successfulCreations (calls s) + 1)%nat
    ∧ (owner +:+ "/" +:+ repo ∈ issueCache s → calls s' = calls s)
    ∧ (issueCreations (calls s') = S (issueCreations (calls s)) →
       failedCreations (calls s') = failedCreations (calls s) →
       owner +:+ "/" +:+ repo ∈ issueCache s')
    ∧ (successfulCreations (calls s') = S (successfulCreations (calls s)) →
       owner +:+ "/" +:+ repo ∈ issueCache s').
Proof.
  unfold createPermissionIssue, issueCache_has, bind at 1.
  case_bool_decide as Hk.
  - exists s. unfold ret. repeat split; try lia; intros; try lia; assumption.
  - destruct dryRun.
    + eexists. unfold issueCache_add. split; [reflexivity|]. cbn [calls issueCache].
      repeat split; try lia; intros; try lia; try set_solver.
    + unfold try_catch, bind. rewrite request_run.
      destruct (octokit_request (GetIssues owner repo) (world s))
        as [[e|existingIssues] w1]; cbn [fst snd is_ok].
      * eexists. unfold ret. split; [reflexivity|]. cbn [calls issueCache].
        unfold issueCreations, failedCreations, successfulCreations.
        rewrite !count_snoc. cbn.
        repeat split; try lia; intros; try lia; try contradiction.
      * destruct (existsb _ existingIssues).
        -- eexists. unfold issueCache_add. split; [reflexivity|].
           cbn [calls issueCache].
           unfold issueCreations, failedCreations, successfulCreations.
           rewrite !count_snoc. cbn.
           repeat split; try lia; intros; try lia; try set_solver.
        -- rewrite request_run. cbn [world calls issueCache records].
           match goal with
           | |- context [octokit_request ?r w1] =>
               destruct (octokit_request r w1) as [[e|u] w2]
           end; cbn [fst snd is_ok].
           ++ eexists. unfold ret. split; [reflexivity|].
              cbn [calls issueCache].
              unfold issueCreations, failedCreations, successfulCreations.
              rewrite !count_snoc. cbn.
              repeat split; try lia; intros; try lia; try contradiction.
           ++ eexists. unfold issueCache_add. split; [reflexivity|].
              cbn [calls issueCache].
              unfold issueCreations, failedCreations, successfulCreations.
              rewrite !count_snoc. cbn.
              repeat split; try lia; intros; try lia; try set_solver.
Qed.

End PermissionFacts.

(** However the first call ends, at most one issue is actually created
    by two calls for the same repository. *)
Lemma createPermissionIssue_twice_creates_once {W : Type} `{Host W}
    (owner repo : string) (count1 count2 : Z) (dryRun1 dryRun2 : bool)
    (s : Run W) :
  let s1 := snd (createPermissionIssue owner repo count1 dryRun1 s) in
  let s2 := snd (createPermissionIssue owner repo count2 dryRun2 s1) in
  (successfulCreations (calls s2) ≤ successfulCreations (calls s) + 1)%nat.
Proof.
  cbv zeta.
  destruct (createPermissionIssue_effect owner repo count1 dryRun1 s)
    as (s1 & -> & _ & Hs1 & _ & _ & Hk1). cbn [snd].
  destruct (createPermissionIssue_effect owner repo count2 dryRun2 s1)
    as (s2 & -> & _ & Hs2 & Hc2 & _ & _). cbn [snd].
  destruct (decide (successfulCreations (calls s1)
                    = S (successfulCreations (calls s)))) as [Heq|Hne].
  - rewrite (Hc2 (Hk1 Heq)). lia.
  - lia.
Qed.

(** C7, as the code has it.  Two calls of [createPermissionIssue] for
    the same owner and repository, with any counts and dry-run flags,
    issue at most one issue-creation request, provided the first call
    did not end in a refused creation request: after a dry run, after
    finding the issue open, after a successful creation and after a
    failed listing the bound holds. *)
Theorem createPermissionIssue_twice_one_creation {W : Type} `{Host W}
    (owner repo : string) (count1 count2 : Z) (dryRun1 dryRun2 : bool)
    (s : Run W) :
  let s1 := snd (createPermissionIssue owner repo count1 dryRun1 s) in
  let s2 := snd (createPermissionIssue owner repo count2 dryRun2 s1) in
  failedCreations (calls s1) = failedCreations (calls s) →
  (issueCreations (calls s2) ≤ issueCreations (calls s) + 1)%nat.
Proof.
  cbv zeta.
  destruct (createPermissionIssue_effect owner repo count1 dryRun1 s)
    as (s1 & -> & Hn1 & _ & _ & Hk1 & _). cbn [snd].
  destruct (createPermissionIssue_effect owner repo count2 dryRun2 s1)
    as (s2 & -> & Hn2 & _ & Hc2 & _ & _). cbn [snd].
  intros Hfail.
  destruct (decide (issueCreations (calls s1) = S (issueCreations (calls s))))
    as [Heq|Hne].
  - rewrite (Hc2 (Hk1 Heq Hfail)). lia.
  - lia.
Qed.

Lemma createPermissionIssue_twice_one_creation_witness :
  let s := GitHubModel.start Samples.world in
  let s1 := snd (createPermissionIssue "acme" "app" 2 false s) in
  let s2 := snd (createPermissionIssue "acme" "app" 2 false s1) in
  failedCreations (calls s1) = failedCreations (calls s)
  ∧ (issueCreations (calls s2) ≤ issueCreations (calls s) + 1)%nat
  ∧ issueCreations (calls s2) = 1%nat.
Proof.
  cbv zeta.
  split; [vm_compute; reflexivity|].
  split; [|vm_compute; reflexivity].
  apply (createPermissionIssue_twice_one_creation "acme" "app" 2 2 false
           false (GitHubModel.start Samples.world)).
  vm_compute; reflexivity.
Defined.

(** C7 as stated fails for a first call that ends in a creation
    failure: with issues turned off the creation request is refused,
    the key is not cached, and the second call issues the request
    again. *)
Lemma createPermissionIssue_twice_counterexample :
  let s := GitHubModel.start Samples.world_without_issues in
  let s1 := snd (createPermissionIssue "acme" "app" 2 false s) in
  let s2 := snd (createPermissionIssue "acme" "app" 2 false s1) in
  issueCreations (calls s) = 0%nat
  ∧ failedCreations (calls s1) = 1%nat
  ∧ issueCreations (calls s2) = 2%nat
  ∧ ¬ (issueCreations (calls s2) ≤ issueCreations (calls s) + 1)%nat.
Proof.
  cbv zeta.
  assert (H2 : issueCreations
                 (calls (snd (createPermissionIssue "acme" "app" 2 false
                    (snd (createPermissionIssue "acme" "app" 2 false
                       (GitHubModel.start Samples.world_without_issues))))))
               = 2%nat) by (vm_compute; reflexivity).
  split; [reflexivity|]. split; [vm_compute; reflexivity|].
  split; [exact H2|]. rewrite H2. cbn. lia.
Qed.

(** ** The repository boundary *)

Section RecordFacts.

Context {W : Type} `{Host W}.

Lemma keeps_ret {A} (a : A) : keeps_records (ret (W:=W) a).
Proof. intros s r s' Hr. inversion Hr; reflexivity. Qed.

Lemma keeps_throw {A} (e : JsError) : keeps_records (throw (W:=W) (A:=A) e).
Proof. intros s r s' Hr. inversion Hr; reflexivity. Qed.

Lemma keeps_lift {A} (x : Result A) : keeps_records (lift (W:=W) x).
Proof. intros s r s' Hr. inversion Hr; reflexivity. Qed.

Lemma keeps_bind {A B} (m : M W A) (k : A → M W B) :
  keeps_records m → (∀ a, keeps_records (k a)) → keeps_records (bind m k).
Proof.
  intros Hm Hk s r s'' Hr.
  apply bind_inv in Hr as [(e & Hr & _) | (a & s' & Hr & Hr')].
  - apply (Hm _ _ _ Hr).
  - rewrite (Hk _ _ _ _ Hr'). apply (Hm _ _ _ Hr).
Qed.

Lemma keeps_try_catch {A} (m : M W A) (h : JsError → M W A) :
  keeps_records m → (∀ e, keeps_records (h e)) →
  keeps_records (try_catch m h).
Proof.
  intros Hm Hh s r s'' Hr. unfold try_catch in Hr.
  destruct (m s) as [[e|a] s'] eqn:Em.
  - rewrite (Hh _ _ _ _ Hr). apply (Hm _ _ _ Em).
  - inversion Hr; subst. apply (Hm _ _ _ Em).
Qed.

Lemma keeps_request (r : Request) : keeps_records (request r).
Proof. intros s x s' Hr. rewrite request_run in Hr. inversion Hr; reflexivity. Qed.

Lemma keeps_dayjs : keeps_records dayjs.
Proof. intros s r s' Hr. inversion Hr; reflexivity. Qed.

Lemma keeps_delay (ms : Z) : keeps_records (delay ms).
Proof. intros s r s' Hr. inversion Hr; reflexivity. Qed.

Lemma keeps_issueCache_has (k : string) : keeps_records (issueCache_has (W:=W) k).
Proof. intros s r s' Hr. inversion Hr; reflexivity. Qed.

Lemma keeps_issueCache_add (k : string) : keeps_records (issueCache_add (W:=W) k).
Proof. intros s r s' Hr. inversion Hr; reflexivity. Qed.

End RecordFacts.

Create HintDb keeps.

Ltac keeps_step :=
  first
    [ solve [auto with keeps nocore]
    | apply keeps_ret | apply keeps_throw | apply keeps_lift
    | match goal with
      | |- keeps_records (request ?r) => exact (keeps_request r)
      end
    | apply keeps_dayjs | apply keeps_delay
    | apply keeps_issueCache_has | apply keeps_issueCache_add
    | apply keeps_bind; [|intros ?]
    | apply keeps_try_catch; [|intros ?]
    | match goal with
      | |- keeps_records (if ?b then _ else _) => destruct b
      | |- keeps_records (match ?x with _ => _ end) => destruct x
      end ].

Ltac keeps := repeat keeps_step.

Section PipelineRecordFacts.

Context {W : Type} `{Host W}.

Lemma keeps_checkBranch (owner repo b : string) :
  keeps_records (checkBranch owner repo b).
Proof. unfold checkBranch. keeps. Qed.

End PipelineRecordFacts.


#[global] Hint Resolve keeps_checkBranch : keeps.

Section DeletionRecordFacts.

Context {W : Type} `{Host W}.

Lemma keeps_backupAndDelete (config : SafetyConfig)
    (owner repo b sha : string) (dryRun : bool) :
  keeps_records (backupAndDelete config owner repo b sha dryRun).
Proof.
  unfold backupAndDelete, backupAndDelete_try, createBackupTag,
    getBackupTagName, deleteBranch. keeps.
Qed.

End DeletionRecordFacts.

#[global] Hint Resolve keeps_backupAndDelete : keeps.

Section BranchRecordFacts.

Context {W : Type} `{Host W}.

Lemma keeps_processBranch (config : Config) (dryRun : bool)
    (owner repo defaultBranch : string) (candidate : BranchCandidate) :
  keeps_records
    (processBranch config dryRun owner repo defaultBranch candidate).
Proof.
  unfold processBranch, reachAndDelete, isBranchReachable, compareCommits.
  keeps.
Qed.

Lemma keeps_findCandidates (config : Config)
    (owner repo defaultBranch : string) :
  keeps_records (findCandidates config owner repo defaultBranch).
Proof. unfold findCandidates, getMergedPRs. keeps. Qed.

Lemma keeps_checkPermissions (owner repo : string) :
  keeps_records (checkPermissions owner repo).
Proof. unfold checkPermissions. keeps. Qed.

Lemma keeps_getDefaultBranch (owner repo : string) :
  keeps_records (getDefaultBranch owner repo).
Proof. unfold getDefaultBranch. keeps. Qed.

Lemma keeps_enableAutoDelete (owner repo : string) (dryRun : bool) :
  keeps_records (enableAutoDelete owner repo dryRun).
Proof. unfold enableAutoDelete. keeps. Qed.

Lemma keeps_createPermissionIssue (owner repo : string) (n : Z)
    (dryRun : bool) :
  keeps_records (createPermissionIssue owner repo n dryRun).
Proof. unfold createPermissionIssue. keeps. Qed.

(** Every record of [processBranch] is about its candidate. *)
Lemma processBranch_branch (config : Config) (dryRun : bool)
    (owner repo defaultBranch : string) (candidate : BranchCandidate)
    (s s' : Run W) (record : CleanupRecord) :
  processBranch config dryRun owner repo defaultBranch candidate s
  = (inr record, s') →
  branch record = branchName candidate.
Proof.
  unfold processBranch. intros Hp.
  apply bind_inv in Hp as [(e & _ & Hbad) | (info & s1 & _ & Hp)];
    [discriminate|].
  destruct (bi_exists info); cbn [negb] in Hp.
  2:{ inversion Hp; subst. reflexivity. }
  destruct (bi_protected info).
  { inversion Hp; subst. reflexivity. }
  apply bind_inv in Hp as [(e & _ & Hbad) | (now & s2 & _ & Hp)];
    [discriminate|].
  destruct (tooRecent config now candidate).
  { inversion Hp; subst. reflexivity. }
  unfold reachAndDelete in Hp.
  apply bind_inv in Hp as [(e & _ & Hbad) | (reach & s3 & _ & Hp)];
    [discriminate|].
  destruct reach; cbn [negb] in Hp.
  2:{ inversion Hp; subst. reflexivity. }
  apply bind_inv in Hp as [(e & _ & Hbad) | (result & s4 & _ & Hp)];
    [discriminate|].
  inversion Hp; subst. reflexivity.
Qed.

End BranchRecordFacts.

#[global] Hint Resolve keeps_processBranch keeps_findCandidates
  keeps_checkPermissions keeps_getDefaultBranch keeps_enableAutoDelete
  keeps_createPermissionIssue : keeps.

Section RepoFacts.

Context {W : Type} `{Host W}.

Lemma processCandidates_cons (config : Config) (dryRun : bool)
    (owner repo defaultBranch : string) (c : BranchCandidate)
    (rest : list BranchCandidate) (blockedCount : Z) (s : Run W) :
  processCandidates config dryRun owner repo defaultBranch (c :: rest)
    blockedCount s
  = match processBranch config dryRun owner repo defaultBranch c
            (snd (delay (per_repo_delay_ms config) s)) with
    | (inl e, s1) => (inl e, s1)
    | (inr result, s1) =>
        processCandidates config dryRun owner repo defaultBranch rest
          (if isBlocked (actionTaken result) then blockedCount + 1
           else blockedCount)
          (snd (addRecord result s1))
    end.
Proof. reflexivity. Qed.

(** A loop that completes has appended one record per candidate. *)
Lemma processCandidates_completed (config : Config) (dryRun : bool)
    (owner repo defaultBranch : string) (candidates : list BranchCandidate) :
  ∀ blockedCount s blocked s',
    processCandidates config dryRun owner repo defaultBranch candidates
      blockedCount s = (inr blocked, s') →
    ∃ done,
      records s' = records s ++ done
      ∧ Forall2 (produced_by config dryRun owner repo defaultBranch)
          done candidates.
Proof.
  induction candidates as [|c rest IH]; intros b s b' s' Hl.
  - inversion Hl; subst. exists []. rewrite app_nil_r. auto.
  - rewrite processCandidates_cons in Hl.
    destruct (processBranch config dryRun owner repo defaultBranch c
                (snd (delay (per_repo_delay_ms config) s)))
      as [[e|result] s1] eqn:Hp; [discriminate|].
    apply IH in Hl as (done & Hrec & Hdone).
    exists (result :: done). split.
    + rewrite Hrec. cbn [addRecord snd records].
      rewrite (keeps_processBranch _ _ _ _ _ _ _ _ _ Hp).
      cbn [delay snd records]. rewrite <- app_assoc. reflexivity.
    + constructor; [|exact Hdone]. split.
      * apply (processBranch_branch _ _ _ _ _ _ _ _ _ Hp).
      * eauto.
Qed.

(** A loop that is interrupted has appended one record per candidate
    before the one that failed, and none for that one and the rest. *)
Lemma processCandidates_interrupted (config : Config) (dryRun : bool)
    (owner repo defaultBranch : string) (candidates : list BranchCandidate) :
  ∀ blockedCount s e s',
    processCandidates config dryRun owner repo defaultBranch candidates
      blockedCount s = (inl e, s') →
    ∃ pre c post done t,
      candidates = pre ++ c :: post
      ∧ records s' = records s ++ done
      ∧ Forall2 (produced_by config dryRun owner repo defaultBranch)
          done pre
      ∧ processBranch config dryRun owner repo defaultBranch c t
        = (inl e, s').
Proof.
  induction candidates as [|c rest IH]; intros b s e s' Hl.
  - discriminate.
  - rewrite processCandidates_cons in Hl.
    destruct (processBranch config dryRun owner repo defaultBranch c
                (snd (delay (per_repo_delay_ms config) s)))
      as [[e1|result] s1] eqn:Hp.
    + inversion Hl; subst.
      exists [], c, rest, [], (snd (delay (per_repo_delay_ms config) s)).
      repeat split; [|constructor|exact Hp].
      rewrite app_nil_r.
      rewrite (keeps_processBranch _ _ _ _ _ _ _ _ _ Hp). reflexivity.
    + apply IH in Hl as (pre & c' & post & done & t & -> & Hrec & Hdone & Hf).
      exists (c :: pre), c', post, (result :: done), t.
      repeat split; [| |exact Hf].
      * rewrite Hrec. cbn [addRecord snd records].
        rewrite (keeps_processBranch _ _ _ _ _ _ _ _ _ Hp).
        cbn [delay snd records]. rewrite <- app_assoc. reflexivity.
      * constructor; [|exact Hdone]. split.
        -- apply (processBranch_branch _ _ _ _ _ _ _ _ _ Hp).
        -- eauto.
Qed.

Lemma hasErrors_app (l1 l2 : list CleanupRecord) :
  Reporter.hasErrors (l1 ++ l2)
  = Reporter.hasErrors l1 || Reporter.hasErrors l2.
Proof. unfold Reporter.hasErrors. apply existsb_app. Qed.

Lemma processRepo_total (config : Config) (dryRun : bool)
    (owner repo : string) (s : Run W) :
  ∃ s', processRepo config dryRun owner repo s = (inr tt, s').
Proof.
  unfold processRepo, try_catch.
  destruct (processRepo_try config dryRun owner repo s) as [[e|[]] s'];
    eauto.
Qed.

(** Where the records stand when the [try] block of [processRepo]
    throws. *)
Lemma processRepo_try_interrupted (config : Config) (dryRun : bool)
    (owner repo : string) (s s_f : Run W) (e : JsError) :
  processRepo_try config dryRun owner repo s = (inl e, s_f) →
  ∃ done,
    records s_f = records s ++ done
    ∧ (done = []
       ∨ ∃ perms s1 d s2 candidates s3,
           checkPermissions owner repo s = (inr perms, s1)
           ∧ getDefaultBranch owner repo s1 = (inr d, s2)
           ∧ findCandidates config owner repo d s2 = (inr candidates, s3)
           ∧ ((∃ pre c post t,
                 candidates = pre ++ c :: post
                 ∧ Forall2 (produced_by config dryRun owner repo d) done pre
                 ∧ processBranch config dryRun owner repo d c t
                   = (inl e, s_f))
              ∨ Forall2 (produced_by config dryRun owner repo d)
                  done candidates)).
Proof.
  unfold processRepo_try. intros Ht.
  apply bind_inv in Ht as [(e1 & Hperm & _) | (perms & s1 & Hperm & Ht)].
  { exists []. rewrite app_nil_r.
    split; [apply (keeps_checkPermissions _ _ _ _ _ Hperm)|auto]. }
  pose proof (keeps_checkPermissions _ _ _ _ _ Hperm) as R1.
  destruct (canDelete perms); cbn [negb] in Ht; [|discriminate].
  apply bind_inv in Ht as [(e1 & Hd & _) | (d & s2 & Hd & Ht)].
  { exists []. rewrite app_nil_r.
    split; [|auto]. rewrite (keeps_getDefaultBranch _ _ _ _ _ Hd). exact R1. }
  pose proof (keeps_getDefaultBranch _ _ _ _ _ Hd) as R2.
  apply bind_inv in Ht as [(e1 & Hf & _) | (cands & s3 & Hf & Ht)].
  { exists []. rewrite app_nil_r. split; [|auto].
    rewrite (keeps_findCandidates _ _ _ _ _ _ _ Hf). congruence. }
  pose proof (keeps_findCandidates _ _ _ _ _ _ _ Hf) as R3.
  destruct (length cands =? 0)%nat; [discriminate|].
  apply bind_inv in Ht as [(e1 & Hl & He) | (blocked & s4 & Hl & Ht)].
  { inversion He; subst e1.
    apply processCandidates_interrupted in Hl
      as (pre & c & post & done & t & Hc & Hrec & Hdone & Hfail).
    exists done. split; [rewrite Hrec; congruence|].
    right. exists perms, s1, d, s2, cands, s3.
    repeat split; try assumption. left. exists pre, c, post, t. auto. }
  apply processCandidates_completed in Hl as (done & Hrec & Hdone).
  assert (Hkeep : records s_f = records s4).
  { destruct (autoDeleteEnabled perms); cbn [negb] in Ht; [discriminate|].
    apply bind_inv in Ht as [(e1 & Hen & _) | (enabled & s5 & Hen & Ht)].
    - apply (keeps_enableAutoDelete _ _ _ _ _ _ Hen).
    - rewrite <- (keeps_enableAutoDelete _ _ _ _ _ _ Hen).
      destruct (negb enabled && (0 <? blocked)); [|discriminate].
      apply (keeps_createPermissionIssue _ _ _ _ _ _ _ Ht). }
  exists done. split; [rewrite Hkeep, Hrec; congruence|].
  right. exists perms, s1, d, s2, cands, s3. repeat split; auto.
Qed.

End RepoFacts.

(** ** Calls in progress

    What a call given by its steps does alone, which steps it takes,
    and what it may resolve to. *)

Section TaskFacts.

Context {W : Type}.

Lemma alone_step {X} (io : M W X) (s : Run W) : alone (step io) s = io s.
Proof. cbn. destruct (io s); reflexivity. Qed.

Lemma alone_bind {A B} (t : Task W A) (k : A → Task W B) :
  ∀ s, alone (task_bind t k) s = bind (alone t) (fun a => alone (k a)) s.
Proof.
  induction t as [[e|a]|X io k' IH]; intros s; cbn [task_bind alone].
  - reflexivity.
  - reflexivity.
  - unfold bind. cbn [alone]. destruct (io s) as [r s'].
    rewrite IH. reflexivity.
Qed.

Lemma alone_try_catch {A} (t : Task W A) (h : JsError → Task W A) :
  ∀ s, alone (task_try_catch t h) s
       = try_catch (alone t) (fun e => alone (h e)) s.
Proof.
  induction t as [[e|a]|X io k' IH]; intros s;
    cbn [task_try_catch alone].
  - reflexivity.
  - reflexivity.
  - unfold try_catch. cbn [alone]. destruct (io s) as [r s'].
    rewrite IH. reflexivity.
Qed.

Lemma every_mono {A} (Q Q' : ∀ X : Type, M W X → Prop) (R R' : A → Prop)
    (t : Task W A) :
  (∀ X io, Q X io → Q' X io) → (∀ a, R a → R' a) →
  every_step Q R t → every_step Q' R' t.
Proof.
  intros HQ HR. induction t as [[e|a]|X io k IH]; cbn [every_step].
  - auto.
  - apply HR.
  - intros (Hio & Hk). split; [apply HQ, Hio|].
    intros s r s' Hr. apply IH, (Hk _ _ _ Hr).
Qed.

Lemma every_ret {A} (Q : ∀ X : Type, M W X → Prop) (R : A → Prop) (a : A) :
  R a → every_step Q R (task_ret a).
Proof. intros Ha. exact Ha. Qed.

Lemma every_throw {A} (Q : ∀ X : Type, M W X → Prop) (R : A → Prop)
    (e : JsError) :
  every_step Q R (task_throw (A:=A) e).
Proof. exact I. Qed.

Lemma every_io {X} (Q : ∀ X : Type, M W X → Prop) (R : X → Prop)
    (io : M W X) :
  Q X io → (∀ s a s', io s = (inr a, s') → R a) →
  every_step Q R (step io).
Proof.
  intros Hio HR. split; [exact Hio|].
  intros s [e|a] s' Hr; cbn [every_step]; [exact I|].
  apply (HR _ _ _ Hr).
Qed.

Lemma every_bind {A B} (Q : ∀ X : Type, M W X → Prop) (R1 : A → Prop)
    (R2 : B → Prop) (t : Task W A) (k : A → Task W B) :
  every_step Q R1 t → (∀ a, R1 a → every_step Q R2 (k a)) →
  every_step Q R2 (task_bind t k).
Proof.
  intros Ht Hk. induction t as [[e|a]|X io k' IH];
    cbn [task_bind every_step] in *.
  - exact I.
  - apply Hk, Ht.
  - destruct Ht as (Hio & Hk'). split; [exact Hio|].
    intros s r s' Hr. apply IH, (Hk' _ _ _ Hr).
Qed.

Lemma every_try_catch {A} (Q : ∀ X : Type, M W X → Prop) (R : A → Prop)
    (t : Task W A) (h : JsError → Task W A) :
  every_step Q (fun _ => True) t →
  (∀ a, resolves_to t a → R a) →
  (∀ e, every_step Q R (h e)) →
  every_step Q R (task_try_catch t h).
Proof.
  intros Ht HR Hh. induction t as [[e|a]|X io k IH];
    cbn [task_try_catch every_step] in *.
  - apply Hh.
  - apply HR. constructor.
  - destruct Ht as (Hio & Hk). split; [exact Hio|].
    intros s r s' Hr. apply IH; [apply (Hk _ _ _ Hr)|].
    intros a Ha. apply HR. econstructor; eassumption.
Qed.

(** What a call may resolve to is among its settled values. *)
Lemma every_resolves {A} (Q : ∀ X : Type, M W X → Prop) (R : A → Prop)
    (t : Task W A) (a : A) :
  every_step Q R t → resolves_to t a → R a.
Proof.
  intros Ht Ha. induction Ha as [a|X io k s s' r a Hr Ha IH];
    cbn [every_step] in Ht.
  - exact Ht.
  - destruct Ht as (_ & Hk). apply IH, (Hk _ _ _ Hr).
Qed.

Lemma every_itself {A} (Q : ∀ X : Type, M W X → Prop) (R : A → Prop)
    (t : Task W A) :
  every_step Q R t → every_step Q (fun a => R a ∧ resolves_to t a) t.
Proof.
  induction t as [[e|a]|X io k IH]; cbn [every_step].
  - auto.
  - intros Ha. split; [exact Ha|constructor].
  - intros (Hio & Hk). split; [exact Hio|].
    intros s r s' Hr.
    apply (every_mono Q Q (fun a => R a ∧ resolves_to (k r) a));
      [auto| |apply IH, (Hk _ _ _ Hr)].
    intros a (Ha & Hres). split; [exact Ha|].
    econstructor; eassumption.
Qed.

(** The steps of a [try] block are the steps of the [try]/[catch]
    around it. *)
Lemma after_steps_try_catch {A} (t t' : Task W A)
    (trace : list (Run W * Run W)) (h : JsError → Task W A) :
  after_steps t trace t' →
  after_steps (task_try_catch t h) trace (task_try_catch t' h).
Proof.
  intros Hsteps.
  induction Hsteps as [t|X io k s s' r trace t' Hio Hsteps IH].
  - constructor.
  - cbn [task_try_catch]. econstructor; [exact Hio|exact IH].
Qed.

Lemma never_rejects_try_catch {A} (t : Task W A) (h : JsError → Task W A) :
  (∀ e, never_rejects (h e)) → never_rejects (task_try_catch t h).
Proof.
  intros Hh. induction t as [[e|a]|X io k IH];
    cbn [task_try_catch never_rejects].
  - apply Hh.
  - reflexivity.
  - intros r. apply IH.
Qed.

End TaskFacts.

(** ** The passes, step by step, and as one computation *)

Section AloneFacts.

Context {W : Type} `{Host W}.

Lemma bind_cong {A B} (m m' : M W A) (f g : A → M W B) :
  (∀ s, m s = m' s) → (∀ a s, f a s = g a s) →
  ∀ s, bind m f s = bind m' g s.
Proof.
  intros Hm Hf s. unfold bind. rewrite Hm.
  destruct (m' s) as [[e|a] s']; [reflexivity|apply Hf].
Qed.

Lemma try_catch_cong {A} (m m' : M W A) (f g : JsError → M W A) :
  (∀ s, m s = m' s) → (∀ e s, f e s = g e s) →
  ∀ s, try_catch m f s = try_catch m' g s.
Proof.
  intros Hm Hf s. unfold try_catch. rewrite Hm.
  destruct (m' s) as [[e|a] s']; [apply Hf|reflexivity].
Qed.

Lemma alone_createBackupTag (config : SafetyConfig)
    (owner repo b sha : string) (s : Run W) :
  alone (Interleaved.createBackupTag config owner repo b sha) s
  = createBackupTag config owner repo b sha s.
Proof.
  revert s. unfold Interleaved.createBackupTag, createBackupTag.
  intros s. rewrite alone_bind. revert s.
  apply bind_cong; [apply alone_step|intros tagName s].
  rewrite alone_bind. revert s.
  apply bind_cong; [apply alone_step|intros now s].
  rewrite alone_bind. revert s.
  apply bind_cong; [apply alone_step|intros tagObject s].
  rewrite alone_bind. revert s.
  apply bind_cong; [apply alone_step|intros u s]. reflexivity.
Qed.

Lemma alone_backupAndDelete (config : SafetyConfig)
    (owner repo b sha : string) (dryRun : bool) (s : Run W) :
  alone (Interleaved.backupAndDelete config owner repo b sha dryRun) s
  = backupAndDelete config owner repo b sha dryRun s.
Proof.
  revert s.
  unfold Interleaved.backupAndDelete, backupAndDelete,
    Interleaved.backupAndDelete_try, backupAndDelete_try.
  intros s. rewrite alone_try_catch. revert s.
  apply try_catch_cong; [|reflexivity]. intros s.
  rewrite alone_bind. revert s. apply bind_cong.
  - intros s. destruct (create_backup_tag config), dryRun; cbn [andb negb];
      first [apply alone_createBackupTag|apply alone_step|reflexivity].
  - intros tag s. rewrite alone_bind. revert s.
    apply bind_cong; [|reflexivity].
    intros s. destruct dryRun; cbn [negb];
      [reflexivity|apply alone_step].
Qed.

Lemma alone_createPermissionIssue (owner repo : string) (n : Z)
    (dryRun : bool) (s : Run W) :
  alone (Interleaved.createPermissionIssue owner repo n dryRun) s
  = createPermissionIssue owner repo n dryRun s.
Proof.
  revert s.
  unfold Interleaved.createPermissionIssue, createPermissionIssue.
  intros s. rewrite alone_bind. revert s.
  apply bind_cong; [apply alone_step|intros cached s].
  destruct cached; [reflexivity|].
  destruct dryRun; [apply alone_step|].
  rewrite alone_try_catch. revert s.
  apply try_catch_cong; [|reflexivity]. intros s.
  rewrite alone_bind. revert s.
  apply bind_cong; [apply alone_step|intros issues s].
  destruct (existsb _ issues); [apply alone_step|].
  rewrite alone_bind. revert s.
  apply bind_cong; [apply alone_step|intros u s]. apply alone_step.
Qed.

Lemma alone_processBranch (config : Config) (dryRun : bool)
    (owner repo d : string) (c : BranchCandidate) (s : Run W) :
  alone (Interleaved.processBranch config dryRun owner repo d c) s
  = processBranch config dryRun owner repo d c s.
Proof.
  revert s. unfold Interleaved.processBranch, processBranch.
  intros s. rewrite alone_bind. revert s.
  apply bind_cong; [apply alone_step|intros info s].
  destruct (negb (bi_exists info)); [reflexivity|].
  destruct (bi_protected info); [reflexivity|].
  rewrite alone_bind. revert s.
  apply bind_cong; [apply alone_step|intros now s].
  destruct (tooRecent config now c); [reflexivity|].
  unfold Interleaved.reachAndDelete, reachAndDelete.
  rewrite alone_bind. revert s.
  apply bind_cong; [apply alone_step|intros reach s].
  destruct (negb reach); [reflexivity|].
  rewrite alone_bind. revert s.
  apply bind_cong; [apply alone_backupAndDelete|reflexivity].
Qed.

Lemma alone_processCandidates (config : Config) (dryRun : bool)
    (owner repo d : string) (candidates : list BranchCandidate) :
  ∀ blockedCount s,
    alone (Interleaved.processCandidates config dryRun owner repo d
             candidates blockedCount) s
    = processCandidates config dryRun owner repo d candidates
        blockedCount s.
Proof.
  induction candidates as [|c rest IH]; intros b s;
    cbn [Interleaved.processCandidates processCandidates];
    [reflexivity|].
  rewrite alone_bind. revert s.
  apply bind_cong; [apply alone_step|intros u s].
  rewrite alone_bind. revert s.
  apply bind_cong; [apply alone_processBranch|intros result s].
  rewrite alone_bind. revert s.
  apply bind_cong; [apply alone_step|intros u' s]. apply IH.
Qed.

(** Run with no other call in between, a pass given by its steps is
    the pass as one computation. *)
Lemma alone_processRepo (config : Config) (dryRun : bool)
    (owner repo : string) (s : Run W) :
  alone (Interleaved.processRepo config dryRun owner repo) s
  = processRepo config dryRun owner repo s.
Proof.
  revert s.
  unfold Interleaved.processRepo, processRepo,
    Interleaved.processRepo_try, processRepo_try.
  intros s. rewrite alone_try_catch. revert s.
  apply try_catch_cong; [|reflexivity]. intros s.
  rewrite alone_bind. revert s.
  apply bind_cong; [apply alone_step|intros perms s].
  destruct (negb (canDelete perms)); [reflexivity|].
  rewrite alone_bind. revert s.
  apply bind_cong; [apply alone_step|intros d s].
  rewrite alone_bind. revert s.
  apply bind_cong; [apply alone_step|intros cands s].
  destruct (length cands =? 0)%nat; [reflexivity|].
  rewrite alone_bind. revert s.
  apply bind_cong; [apply alone_processCandidates|intros blocked s].
  destruct (negb (autoDeleteEnabled perms)); [|reflexivity].
  rewrite alone_bind. revert s.
  apply bind_cong; [apply alone_step|intros enabled s].
  destruct (negb enabled && (0 <? blocked));
    [apply alone_createPermissionIssue|reflexivity].
Qed.

End AloneFacts.

(** ** The steps of a pass *)

Ltac one_step :=
  apply every_io;
  [solve [constructor; first [reflexivity|assumption]]|intros; exact I].

Section StepFacts.

Context {W : Type} `{Host W}.
Variables (config : Config) (owner repoName : string).

Lemma steps_createBackupTag (b sha : string) :
  every_step (StepOf config false owner repoName) (fun _ => True)
    (Interleaved.createBackupTag (safety config) owner repoName b sha).
Proof.
  unfold Interleaved.createBackupTag.
  eapply every_bind; [one_step|intros tagName _].
  eapply every_bind; [one_step|intros now _].
  eapply every_bind; [one_step|intros tagObject _].
  eapply every_bind; [one_step|intros u _]. exact I.
Qed.

Lemma steps_backupAndDelete (dryRun : bool) (b sha : string) :
  every_step (StepOf config dryRun owner repoName) (fun _ => True)
    (Interleaved.backupAndDelete (safety config) owner repoName b sha
       dryRun).
Proof.
  unfold Interleaved.backupAndDelete, Interleaved.backupAndDelete_try.
  apply every_try_catch; [|auto|intros e; exact I].
  eapply every_bind with (R1 := fun _ => True).
  - destruct (create_backup_tag (safety config)), dryRun;
      cbn [andb negb];
      first [exact I|one_step|apply steps_createBackupTag].
  - intros tag _.
    eapply every_bind with (R1 := fun _ => True); [|intros u _; exact I].
    destruct dryRun; cbn [negb]; [exact I|one_step].
Qed.

Lemma steps_processBranch (dryRun : bool) (defaultBranch : string)
    (candidate : BranchCandidate) :
  every_step (StepOf config dryRun owner repoName)
    (fun record => org record = owner ∧ repo record = repoName)
    (Interleaved.processBranch config dryRun owner repoName defaultBranch
       candidate).
Proof.
  unfold Interleaved.processBranch.
  eapply every_bind with (R1 := fun _ => True); [one_step|intros info _].
  destruct (negb (bi_exists info)); [split; reflexivity|].
  destruct (bi_protected info); [split; reflexivity|].
  eapply every_bind with (R1 := fun _ => True); [one_step|intros now _].
  destruct (tooRecent config now candidate); [split; reflexivity|].
  unfold Interleaved.reachAndDelete.
  eapply every_bind with (R1 := fun _ => True); [one_step|intros reach _].
  destruct (negb reach); [split; reflexivity|].
  eapply every_bind with (R1 := fun _ => True);
    [apply steps_backupAndDelete|intros result _].
  split; reflexivity.
Qed.

Lemma steps_processCandidates (dryRun : bool) (defaultBranch : string)
    (candidates : list BranchCandidate) :
  ∀ blockedCount,
    every_step (StepOf config dryRun owner repoName) (fun _ => True)
      (Interleaved.processCandidates config dryRun owner repoName
         defaultBranch candidates blockedCount).
Proof.
  induction candidates as [|c rest IH]; intros blocked;
    cbn [Interleaved.processCandidates]; [exact I|].
  eapply every_bind with (R1 := fun _ => True); [one_step|intros u _].
  eapply every_bind.
  - apply every_itself, steps_processBranch.
  - intros record ((Ho & Hr) & Hres). cbn beta.
    eapply every_bind with (R1 := fun _ => True);
      [|intros u' _; apply IH].
    apply every_io; [|intros; exact I].
    apply (step_addRecord _ _ _ _ defaultBranch c); assumption.
Qed.

Lemma steps_createPermissionIssue (n : Z) :
  every_step (StepOf config false owner repoName) (fun _ => True)
    (Interleaved.createPermissionIssue owner repoName n false).
Proof.
  unfold Interleaved.createPermissionIssue.
  eapply every_bind with (R1 := fun _ => True); [one_step|intros cached _].
  destruct cached; [exact I|].
  apply every_try_catch; [|auto|intros e; exact I].
  eapply every_bind with (R1 := fun _ => True); [one_step|intros issues _].
  destruct (existsb _ issues); [one_step|].
  eapply every_bind with (R1 := fun _ => True); [one_step|intros u _].
  one_step.
Qed.

(** Every step of a pass is one of [StepOf]. *)
Lemma steps_processRepo (dryRun : bool) :
  every_step (StepOf config dryRun owner repoName) (fun _ => True)
    (Interleaved.processRepo config dryRun owner repoName).
Proof.
  unfold Interleaved.processRepo, Interleaved.processRepo_try.
  apply every_try_catch; [|auto|intros e; exact I].
  eapply every_bind with (R1 := fun _ => True); [one_step|intros perms _].
  destruct (negb (canDelete perms)); [exact I|].
  eapply every_bind with (R1 := fun _ => True); [one_step|intros d _].
  eapply every_bind with (R1 := fun _ => True); [one_step|intros cands _].
  destruct (length cands =? 0)%nat; [exact I|].
  eapply every_bind with (R1 := fun _ => True);
    [apply steps_processCandidates|intros blocked _].
  destruct (negb (autoDeleteEnabled perms)); [|exact I].
  eapply every_bind
    with (R1 := fun enabled => dryRun = true → enabled = true).
  - apply every_io; [constructor|].
    intros s enabled s' Hr Hdry. rewrite Hdry in Hr.
    unfold enableAutoDelete, ret in Hr. congruence.
  - intros enabled Hen. destruct dryRun.
    + rewrite Hen by reflexivity. exact I.
    + destruct (negb enabled && (0 <? blocked)); [|exact I].
      apply steps_createPermissionIssue.
Qed.

Lemma never_rejects_processRepo (dryRun : bool) :
  never_rejects (Interleaved.processRepo config dryRun owner repoName).
Proof.
  unfold Interleaved.processRepo.
  apply never_rejects_try_catch. intros e. reflexivity.
Qed.

End StepFacts.

(** ** The pool of passes *)

Section PoolFacts.

Context {W : Type}.
Import Interleaved.
Implicit Types (p : Pool (W:=W)) (s : Run W) (schedule : list nat).

Lemma runPool_idle schedule p s :
  idle p = true → runPool schedule p s = (Resolved, s).
Proof. intros Hi. destruct schedule; cbn [runPool]; rewrite Hi; auto. Qed.

Lemma runPool_cons i schedule p s :
  idle p = false →
  runPool (i :: schedule) p s
  = match resume i p s with
    | (Pending p', s') => runPool schedule p' s'
    | settled => settled
    end.
Proof. intros Hi. cbn [runPool]. rewrite Hi. reflexivity. Qed.

Lemma idle_lookup i p t : active p !! i = Some t → idle p = false.
Proof.
  unfold idle. destruct (active p); [discriminate|reflexivity].
Qed.

(** A pending [Promise.all] goes on with the rest of the schedule. *)
Lemma runPool_app schedule more :
  ∀ p s,
    runPool (schedule ++ more) p s
    = match runPool schedule p s with
      | (Pending p', s') => runPool more p' s'
      | settled => settled
      end.
Proof.
  induction schedule as [|i later IH]; intros p s.
  - cbn [app]. destruct (idle p) eqn:Hi.
    + rewrite !runPool_idle by exact Hi. reflexivity.
    + cbn [runPool]. rewrite Hi. reflexivity.
  - cbn [app]. destruct (idle p) eqn:Hi.
    + rewrite !runPool_idle by exact Hi. reflexivity.
    + rewrite !runPool_cons by exact Hi.
      destruct (resume i p s) as [[| e | p'] s']; auto.
Qed.

(** What every resumption keeps holds wherever the pool gets to. *)
Lemma runPool_invariant (Inv : Pool (W:=W) → Run W → Prop) :
  (∀ i p s p' s',
      Inv p s → resume i p s = (Pending p', s') → Inv p' s') →
  ∀ schedule p s,
    Inv p s →
    ∃ p', Inv p' (snd (runPool schedule p s))
          ∧ match fst (runPool schedule p s) with
            | Resolved => idle p' = true
            | Pending q => q = p'
            | Rejected e =>
                ∃ i, fst (resume i p' (snd (runPool schedule p s)))
                     = Rejected e
            end.
Proof.
  intros Hstep. induction schedule as [|i later IH]; intros p s Hinv.
  - cbn [runPool]. destruct (idle p) eqn:Hi; exists p; cbn [fst snd];
      auto.
  - destruct (idle p) eqn:Hi.
    + rewrite runPool_idle by exact Hi. exists p. cbn [fst snd]. auto.
    + rewrite runPool_cons by exact Hi.
      destruct (resume i p s) as [[| e | p'] s'] eqn:Hr.
      * unfold resume in Hr.
        destruct (active p !! i) as [[[e|a]|X io k]|];
          try discriminate.
        destruct (io s); discriminate.
      * assert (Hs : s' = s).
        { unfold resume in Hr.
          destruct (active p !! i) as [[[e'|a]|X io k]|];
            try (inversion Hr; reflexivity).
          destruct (io s); discriminate. }
        subst s'. exists p. cbn [fst snd].
        split; [exact Hinv|exists i; rewrite Hr; reflexivity].
      * apply IH, (Hstep _ _ _ _ _ Hinv Hr).
Qed.

Lemma resume_all_tasks (P : Task W unit → Prop) :
  (∀ X (io : M W X) k s r s',
      P (Await io k) → io s = (r, s') → P (k r)) →
  ∀ i p s p' s',
    all_tasks P p → resume i p s = (Pending p', s') → all_tasks P p'.
Proof.
  intros Hk i p s p' s' (Ha & Hq) Hr. unfold resume in Hr.
  destruct (active p !! i) as [[[e|a]|X io k]|] eqn:Hi.
  - discriminate.
  - inversion Hr; subst. split; cbn [leave active queued].
    + apply Forall_app. split; [apply Forall_delete, Ha|].
      apply Forall_take, Hq.
    + apply Forall_drop, Hq.
  - destruct (io s) as [r s1] eqn:Hio. inversion Hr; subst.
    split; cbn [active queued]; [|exact Hq].
    apply Forall_insert; [exact Ha|].
    apply (Hk _ _ _ _ _ _ (Forall_lookup_1 _ _ _ _ Ha Hi) Hio).
  - inversion Hr; subst. split; assumption.
Qed.

Lemma resume_busy i p s p' s' :
  busy p → resume i p s = (Pending p', s') → busy p'.
Proof.
  unfold busy. intros Hb Hr. unfold resume in Hr.
  destruct (active p !! i) as [[[e|a]|X io k]|] eqn:Hi.
  - discriminate.
  - inversion Hr; subst. cbn [leave active queued].
    destruct (queued p) as [|t q]; [reflexivity|].
    cbn [take]. intros Hnil. apply app_eq_nil in Hnil as (_ & Hbad).
    discriminate.
  - destruct (io s) as [r s1]. inversion Hr; subst.
    cbn [active queued]. intros Hnil.
    apply (f_equal length) in Hnil. rewrite length_insert in Hnil.
    apply Hb. apply nil_length_inv. exact Hnil.
  - inversion Hr; subst. exact Hb.
Qed.

(** The state only changes by the steps of the calls. *)
Lemma resume_every (Q : ∀ X : Type, M W X → Prop) (P : Run W → Prop) :
  (∀ X (io : M W X) s r s', Q X io → P s → io s = (r, s') → P s') →
  ∀ i p s p' s',
    all_tasks (every_step Q (fun _ => True)) p → P s →
    resume i p s = (Pending p', s') → P s'.
Proof.
  intros HQ i p s p' s' (Ha & _) Hs Hr. unfold resume in Hr.
  destruct (active p !! i) as [[[e|a]|X io k]|] eqn:Hi.
  - discriminate.
  - inversion Hr; subst. exact Hs.
  - destruct (io s) as [r s1] eqn:Hio. inversion Hr; subst.
    pose proof (Forall_lookup_1 _ _ _ _ Ha Hi) as (Hio' & _).
    apply (HQ _ _ _ _ _ Hio' Hs Hio).
  - inversion Hr; subst. exact Hs.
Qed.

Lemma runPool_every (Q : ∀ X : Type, M W X → Prop) (P : Run W → Prop) :
  (∀ X (io : M W X) s r s', Q X io → P s → io s = (r, s') → P s') →
  ∀ schedule p s,
    all_tasks (every_step Q (fun _ => True)) p → P s →
    P (snd (runPool schedule p s)).
Proof.
  intros HQ schedule p s Hall Hs.
  destruct (runPool_invariant
              (fun p s => all_tasks (every_step Q (fun _ => True)) p ∧ P s))
    with (schedule := schedule) (p := p) (s := s)
    as (p' & (_ & Hp) & _); [|auto|exact Hp].
  intros i q t q' t' (Hq & Ht) Hr. split.
  - apply (resume_all_tasks _) with (i := i) (p := q) (s := t) (s' := t');
      [|exact Hq|exact Hr].
    intros X io k s0 r s1 (_ & Hk) Hio. apply (Hk _ _ _ Hio).
  - apply (resume_every Q P HQ _ _ _ _ _ Hq Ht Hr).
Qed.

(** Calls that cannot reject never make [Promise.all] reject. *)
Lemma runPool_never_rejects schedule p s (e : JsError) :
  all_tasks never_rejects p → fst (runPool schedule p s) ≠ Rejected e.
Proof.
  intros Hall Hrej.
  destruct (runPool_invariant (fun p _ => all_tasks never_rejects p))
    with (schedule := schedule) (p := p) (s := s)
    as (p' & (Ha & _) & Hend); [|exact Hall|].
  - intros i q t q' t' Hq Hr.
    apply (resume_all_tasks _) with (i := i) (p := q) (s := t) (s' := t');
      [|exact Hq|exact Hr].
    intros X io k s0 r s1 Hk _. apply Hk.
  - rewrite Hrej in Hend. destruct Hend as (i & Hi).
    unfold resume in Hi.
    destruct (active p' !! i) as [[[e'|a]|X io k]|] eqn:Hl;
      try discriminate.
    + pose proof (Forall_lookup_1 _ _ _ _ Ha Hl) as Hbad. discriminate.
    + destruct (io _); discriminate.
Qed.

Lemma runPool_pending schedule p s q :
  fst (runPool schedule p s) = Pending q →
  all_tasks never_rejects p → busy p →
  all_tasks never_rejects q ∧ busy q.
Proof.
  intros Hpend Hall Hbusy.
  destruct (runPool_invariant
              (fun p _ => all_tasks never_rejects p ∧ busy p))
    with (schedule := schedule) (p := p) (s := s)
    as (p' & Hinv & Hend); [|auto|].
  - intros i q0 t q' t' (Hq & Hb) Hr. split.
    + apply (resume_all_tasks _) with (i := i) (p := q0) (s := t)
        (s' := t'); [|exact Hq|exact Hr].
      intros X io k s0 r s1 Hk _. apply Hk.
    + apply (resume_busy _ _ _ _ _ Hb Hr).
  - rewrite Hpend in Hend. subst. exact Hinv.
Qed.

Lemma delete_insert_same {A} (l : list A) (i : nat) (x : A) :
  delete i (<[i := x]> l) = delete i l.
Proof.
  revert i. induction l as [|y l IH]; intros [|i]; cbn; auto.
  f_equal. apply IH.
Qed.

(** A call resumed again and again until it has left the pool takes
    the steps it takes alone. *)
Lemma runPool_alone (t : Task W unit) :
  ∀ i p s s' later,
    active p !! i = Some t → alone t s = (inr tt, s') →
    runPool (replicate (S (stepsAlone t s)) i ++ later) p s
    = runPool later (leave i p) s'.
Proof.
  induction t as [[e|[]]|X io k IH]; intros i p s s' later Hi Hrun.
  - discriminate.
  - cbn [alone] in Hrun. inversion Hrun; subst.
    cbn [stepsAlone replicate app].
    rewrite runPool_cons by (eapply idle_lookup; eauto).
    unfold resume. rewrite Hi. reflexivity.
  - cbn [alone] in Hrun. cbn [stepsAlone].
    destruct (io s) as [r s1] eqn:Hio.
    change (replicate (S (S (stepsAlone (k r) s1))) i ++ later)
      with (i :: (replicate (S (stepsAlone (k r) s1)) i ++ later)).
    rewrite runPool_cons by (eapply idle_lookup; eauto).
    unfold resume at 1. rewrite Hi, Hio.
    rewrite (IH r i _ s1 s' later); [| |exact Hrun].
    + unfold leave. cbn [active queued].
      rewrite delete_insert_same. reflexivity.
    + cbn [active]. apply list_lookup_insert_eq.
      apply lookup_lt_Some in Hi. exact Hi.
Qed.

(** The first call in progress, resumed until it leaves. *)
Lemma runPool_first_leaves (t : Task W unit) :
  never_rejects t →
  ∀ rest q s, ∃ n s',
    ∀ later,
      runPool (replicate n 0%nat ++ later)
        {| active := t :: rest; queued := q |} s
      = runPool later (leave 0 {| active := t :: rest; queued := q |}) s'.
Proof.
  induction t as [[e|[]]|X io k IH]; intros Hnr rest q s.
  - discriminate.
  - exists 1%nat, s. intros later. cbn [replicate app].
    rewrite runPool_cons by reflexivity. reflexivity.
  - destruct (io s) as [r s1] eqn:Hio.
    destruct (IH r (Hnr r) rest q s1) as (n & s' & Hn).
    exists (S n), s'. intros later. cbn [replicate app].
    rewrite runPool_cons by reflexivity.
    unfold resume. cbn [active lookup list_lookup]. rewrite Hio.
    cbn [insert list_insert queued]. apply Hn.
Qed.

Lemma runPool_can_finish (n : nat) :
  ∀ p s,
    (length (active p) + length (queued p) <= n)%nat →
    all_tasks never_rejects p → busy p →
    ∃ schedule, fst (runPool schedule p s) = Resolved.
Proof.
  induction n as [|n IH]; intros p s Hlen Hall Hbusy.
  - exists []. rewrite runPool_idle; [reflexivity|].
    unfold idle. destruct (active p), (queued p); cbn in Hlen; auto; lia.
  - destruct p as [[|t rest] q].
    + exists []. rewrite runPool_idle; [reflexivity|].
      assert (Hq : q = []) by apply (Hbusy eq_refl).
      subst q. reflexivity.
    + destruct Hall as (Ha & Hq). cbn [active queued] in *.
      destruct (runPool_first_leaves t (Forall_inv Ha) rest q s)
        as (k & s' & Hk).
      destruct (IH (leave 0 {| active := t :: rest; queued := q |}) s')
        as (more & Hmore).
      * unfold leave. cbn [active queued delete list_delete].
        rewrite length_app, length_take, length_drop.
        cbn [length] in Hlen. lia.
      * split; unfold leave; cbn [active queued delete list_delete].
        -- apply Forall_app. split; [apply (Forall_inv_tail Ha)|].
           apply Forall_take, Hq.
        -- apply Forall_drop, Hq.
      * unfold busy, leave. cbn [active queued delete list_delete].
        destruct q as [|t' q]; [reflexivity|].
        intros Hnil. apply app_eq_nil in Hnil as (_ & Hbad).
        discriminate.
      * exists (replicate k 0%nat ++ more). rewrite Hk. exact Hmore.
Qed.

(** Whatever the order so far, the calls can all be brought to their
    end. *)
Lemma runPool_finishes schedule p s :
  all_tasks never_rejects p → busy p →
  ∃ more, fst (runPool (schedule ++ more) p s) = Resolved.
Proof.
  intros Hall Hbusy.
  destruct (runPool schedule p s) as [[| e | q] s'] eqn:Hrun.
  - exists []. rewrite app_nil_r, Hrun. reflexivity.
  - exfalso. apply (runPool_never_rejects schedule p s e Hall).
    rewrite Hrun. reflexivity.
  - destruct (runPool_pending schedule p s q) as (Hq & Hb);
      [rewrite Hrun; reflexivity|exact Hall|exact Hbusy|].
    destruct (runPool_can_finish _ q s' (le_n _) Hq Hb) as (more & Hmore).
    exists more. rewrite runPool_app, Hrun. exact Hmore.
Qed.

Lemma all_tasks_start (P : Task W unit → Prop) (limit : nat)
    (tasks : list (Task W unit)) :
  Forall P tasks → all_tasks P (start limit tasks).
Proof.
  intros Hall. split; cbn [start active queued];
    [apply Forall_take|apply Forall_drop]; exact Hall.
Qed.

Lemma busy_start (limit : nat) (tasks : list (Task W unit)) :
  (1 <= limit)%nat → busy (start limit tasks).
Proof.
  unfold busy, start. cbn [active queued]. intros Hl Hnil.
  destruct tasks as [|t tasks]; [apply drop_nil|].
  destruct limit; [lia|discriminate].
Qed.

End PoolFacts.

(** ** The passes of a run *)

Ltac keeping :=
  match goal with
  | Hio : ?io ?s = (?r, ?s') |- records ?s' = records ?s =>
      revert s r s' Hio; change (keeps_records io)
  end.

Section PassesFacts.

Context {W : Type} `{Host W}.

Lemma pLimit_from_one (concurrency : Z) :
  1 ≤ concurrency →
  Interleaved.pLimit concurrency = inr (Z.to_nat concurrency)
  ∧ (1 <= Z.to_nat concurrency)%nat.
Proof.
  intros Hc. unfold Interleaved.pLimit.
  destruct (Z.leb_spec 1 concurrency); [split; [reflexivity|lia]|lia].
Qed.

Lemma pLimit_below_one (concurrency : Z) :
  concurrency < 1 → ∃ e, Interleaved.pLimit concurrency = inl e.
Proof.
  intros Hc. unfold Interleaved.pLimit.
  destruct (Z.leb_spec 1 concurrency); [lia|eauto].
Qed.

Lemma passes_never_reject (config : Config) (dryRun : bool) :
  Forall (never_rejects (W:=W)) (Interleaved.passes config dryRun).
Proof.
  unfold Interleaved.passes. apply List.Forall_map, Forall_forall.
  intros [owner repoName] _. apply never_rejects_processRepo.
Qed.

Lemma passes_steps (config : Config) (dryRun : bool) :
  Forall (every_step (StepOfRun config dryRun) (fun _ => True))
    (Interleaved.passes config dryRun).
Proof.
  unfold Interleaved.passes. apply List.Forall_map, Forall_forall.
  intros [owner repoName] Hin. cbn [fst snd].
  eapply every_mono; [| |apply steps_processRepo]; [|auto].
  intros X io Hstep. exists owner, repoName. auto.
Qed.

(** A step of a run leaves the records as they are or adds what a
    call of [processBranch] resolved to. *)
Lemma StepOfRun_records (config : Config) (dryRun : bool)
    (X : Type) (io : M W X) (s s' : Run W) (r : Result X) :
  StepOfRun config dryRun X io → io s = (r, s') →
  records s' = records s
  ∨ ∃ record,
      recorded_by config dryRun record
      ∧ records s' = records s ++ [record].
Proof.
  intros (owner & repoName & Hin & Hstep) Hio.
  destruct Hstep as [| |d|ms|b| |d b|b|d c record Hres Ho Hr| |q Hlive
                    |b Hlive|key Hlive|key Hlive];
    try (left; keeping;
         unfold checkPermissions, getDefaultBranch, findCandidates,
           getMergedPRs, checkBranch, isBranchReachable, compareCommits,
           getBackupTagName, enableAutoDelete, deleteBranch;
         keeps; fail).
  right. exists record. split.
  - exists owner, repoName, d, c. auto.
  - inversion Hio; reflexivity.
Qed.

(** Under every schedule, the records a run adds are what calls of
    [processBranch] resolved to. *)
Lemma runPool_records (config : Config) (dryRun : bool)
    (schedule : list nat) (p : Interleaved.Pool) (s : Run W) :
  all_tasks (every_step (StepOfRun config dryRun) (fun _ => True)) p →
  ∃ done,
    records (snd (Interleaved.runPool schedule p s)) = records s ++ done
    ∧ Forall (recorded_by config dryRun) done.
Proof.
  intros Hall.
  apply (runPool_every (StepOfRun config dryRun)
           (fun t => ∃ done, records t = records s ++ done
                             ∧ Forall (recorded_by config dryRun) done));
    [|exact Hall|exists []; rewrite app_nil_r; auto].
  intros X io t r t' Hstep (done & Hrec & Hdone) Hio.
  destruct (StepOfRun_records _ _ _ _ _ _ _ Hstep Hio)
    as [Hkeep|(record & Hby & Hadd)].
  - exists done. rewrite Hkeep. auto.
  - exists (done ++ [record]). rewrite Hadd, Hrec, app_assoc.
    split; [reflexivity|]. apply Forall_app. auto.
Qed.

Lemma runPasses_records (config : Config) (dryRun : bool)
    (schedule : list nat) (s : Run W) :
  ∃ done,
    records (snd (runPasses config dryRun schedule s)) = records s ++ done
    ∧ Forall (recorded_by config dryRun) done.
Proof. apply runPool_records, all_tasks_start, passes_steps. Qed.

Lemma runPasses_never_rejects (config : Config) (dryRun : bool)
    (schedule : list nat) (s : Run W) (e : JsError) :
  fst (runPasses config dryRun schedule s) ≠ Interleaved.Rejected e.
Proof.
  apply runPool_never_rejects, all_tasks_start, passes_never_reject.
Qed.

Lemma runPasses_finishes (config : Config) (dryRun : bool)
    (schedule : list nat) (s : Run W) :
  1 ≤ max_concurrency config →
  ∃ more,
    fst (runPasses config dryRun (schedule ++ more) s)
    = Interleaved.Resolved.
Proof.
  intros Hc. apply runPool_finishes.
  - apply all_tasks_start, passes_never_reject.
  - apply busy_start, (pLimit_from_one _ Hc).
Qed.

(** The run in terms of its pool. *)
Lemma run_from_one (config : Config) (dryRun : bool)
    (schedule : list nat) (s : Run W) :
  1 ≤ max_concurrency config →
  Interleaved.run config dryRun schedule s
  = match runPasses config dryRun schedule s with
    | (Interleaved.Pending _, s') => (None, s')
    | (Interleaved.Rejected e, s') => (Some (inl e), s')
    | (Interleaved.Resolved, s') =>
        let '(r, s'') :=
          bind (writeReports dryRun)
            (fun _ => bind hasErrors
               (fun failed : bool => if failed then ret 1 else ret 0))
            s' in
        (Some r, s'')
    end.
Proof.
  intros Hc. unfold Interleaved.run, runPasses.
  rewrite (proj1 (pLimit_from_one _ Hc)). reflexivity.
Qed.

Lemma exitCode_resolved (config : Config) (dryRun : bool)
    (schedule : list nat) (s : Run W) :
  1 ≤ max_concurrency config →
  fst (runPasses config dryRun schedule s) = Interleaved.Resolved →
  Interleaved.exitCode config dryRun schedule s
  = Some (exitAfter dryRun (snd (runPasses config dryRun schedule s))).
Proof.
  intros Hc Hres. unfold Interleaved.exitCode.
  rewrite (run_from_one _ _ _ _ Hc).
  destruct (runPasses config dryRun schedule s) as [pr s1].
  cbn [fst snd] in *. subst pr.
  unfold exitAfter, bind, writeReports, hasErrors, ret.
  destruct (fs_writeReports dryRun (records s1) (world s1)) as [[e|u] w'];
    cbn [fst is_ok andb records]; [reflexivity|].
  destruct (Reporter.hasErrors (records s1)); reflexivity.
Qed.

Lemma exitCode_pending (config : Config) (dryRun : bool)
    (schedule : list nat) (s : Run W) (p : Interleaved.Pool) :
  1 ≤ max_concurrency config →
  fst (runPasses config dryRun schedule s) = Interleaved.Pending p →
  Interleaved.exitCode config dryRun schedule s = None.
Proof.
  intros Hc Hres. unfold Interleaved.exitCode.
  rewrite (run_from_one _ _ _ _ Hc).
  destruct (runPasses config dryRun schedule s) as [pr s1].
  cbn [fst] in Hres. subst pr. reflexivity.
Qed.

End PassesFacts.

(** C10. When an error escapes the [try] block of [processRepo]
    (default-branch lookup, enumeration, a per-branch step, or the
    auto-delete update), [processRepo] still resolves, in the state at
    the throw: nothing is recorded for the failure.  The records added
    are those of the candidates completed before it, so the failing
    candidate and the ones after it have none.  In the pool of [run],
    the pass resumed from that state until it has left gives its place
    to the next pass waiting, in the state at the throw; and however
    the steps of the pass lie among those of the other passes, the
    steps that bring its [try] block to throw bring the pass to
    resolve, with no step after them.  Whatever the concurrency (from 1
    up) and the order in which the passes are resumed, [Promise.all]
    never rejects, the passes can all be brought to their end, every
    record added is what a call of [processBranch] resolved to, and the
    exit code of a run whose passes have ended is decided by the report
    writing and the records alone. *)
Theorem processRepo_contains_failure {W : Type} `{Host W}
    (config : Config) (dryRun : bool) (owner repo : string)
    (s s_f : Run W) (e : JsError) :
  processRepo_try config dryRun owner repo s = (inl e, s_f) →
  processRepo config dryRun owner repo s = (inr tt, s_f)
  ∧ (∀ p i later,
       let pass := Interleaved.processRepo config dryRun owner repo in
       Interleaved.active p !! i = Some pass →
       Interleaved.runPool (replicate (S (stepsAlone pass s)) i ++ later) p s
       = Interleaved.runPool later (Interleaved.leave i p) s_f)
  ∧ (∀ trace e',
       after_steps (Interleaved.processRepo_try config dryRun owner repo)
         trace (Settled (inl e')) →
       after_steps (Interleaved.processRepo config dryRun owner repo)
         trace (Settled (inr tt)))
  ∧ (∀ schedule t,
       1 ≤ max_concurrency config →
       let pool := runPasses config dryRun schedule t in
       (∀ e', fst pool ≠ Interleaved.Rejected e')
       ∧ (∃ more,
            fst (runPasses config dryRun (schedule ++ more) t)
            = Interleaved.Resolved)
       ∧ (∃ done,
            records (snd pool) = records t ++ done
            ∧ Forall (recorded_by config dryRun) done)
       ∧ (fst pool = Interleaved.Resolved →
          Interleaved.exitCode config dryRun schedule t
          = Some (exitAfter dryRun (snd pool)))
       ∧ (∀ q, fst pool = Interleaved.Pending q →
          Interleaved.exitCode config dryRun schedule t = None))
  ∧ ∃ done,
      records s_f = records s ++ done
      ∧ Reporter.hasErrors (records s_f)
        = Reporter.hasErrors (records s) || Reporter.hasErrors done
      ∧ (done = []
         ∨ ∃ perms s1 d s2 candidates s3,
             checkPermissions owner repo s = (inr perms, s1)
             ∧ getDefaultBranch owner repo s1 = (inr d, s2)
             ∧ findCandidates config owner repo d s2 = (inr candidates, s3)
             ∧ ((∃ pre c post t,
                   candidates = pre ++ c :: post
                   ∧ Forall2 (produced_by config dryRun owner repo d) done pre
                   ∧ processBranch config dryRun owner repo d c t
                     = (inl e, s_f))
                ∨ Forall2 (produced_by config dryRun owner repo d)
                    done candidates)).
Proof.
  intros Ht.
  assert (Hrepo : processRepo config dryRun owner repo s = (inr tt, s_f)).
  { unfold processRepo. rewrite (try_catch_inl _ _ _ _ _ Ht). reflexivity. }
  split; [exact Hrepo|]. split; [|split; [|split]].
  - intros p i later pass Hi. apply runPool_alone; [exact Hi|].
    unfold pass. rewrite alone_processRepo. exact Hrepo.
  - intros trace e' Hsteps.
    apply (after_steps_try_catch _ _ _ (fun _ => task_ret tt)) in Hsteps.
    exact Hsteps.
  - intros schedule t Hc pool.
    split; [intros e'; apply runPasses_never_rejects|].
    split; [apply runPasses_finishes, Hc|].
    split; [apply runPasses_records|].
    split; [apply exitCode_resolved, Hc|].
    intros q. apply exitCode_pending, Hc.
  - apply processRepo_try_interrupted in Ht as (done & Hrec & Hcase).
    exists done. split; [exact Hrec|]. split; [|exact Hcase].
    rewrite Hrec. apply hasErrors_app.
Qed.

Lemma processRepo_contains_failure_witness :
  let host := Samples.pair_host in
  let s := Samples.pair_start (Samples.world_with_outage, Samples.world) in
  let s_f :=
    snd (@processRepo_try _ host Samples.pair_config false "acme" "app" s) in
  let schedule := Samples.in_turn 40 in
  @processRepo_try _ host Samples.pair_config false "acme" "app" s
  = (inl (GitHubModel.http 500 "Server Error"), s_f)
  ∧ 1 ≤ max_concurrency Samples.pair_config
  ∧ @processRepo _ host Samples.pair_config false "acme" "app" s
    = (inr tt, s_f)
  ∧ map (fun x => (repo x, branch x, actionTaken x)) (records s_f)
    = [("app", "bot/fix-1", Deleted)]
  ∧ (∀ e, fst (@runPasses _ host Samples.pair_config false schedule s)
          ≠ Interleaved.Rejected e)
  ∧ fst (@runPasses _ host Samples.pair_config false schedule s)
    = Interleaved.Resolved
  ∧ map (fun x => (repo x, branch x, actionTaken x))
      (records (snd (@runPasses _ host Samples.pair_config false schedule s)))
    = [("app", "bot/fix-1", Deleted); ("lib", "bot/fix-1", Deleted);
       ("lib", "bot/fix-2", Deleted); ("lib", "bot/fix-3", Deleted)]
  ∧ @Interleaved.exitCode _ host Samples.pair_config false schedule s
    = Some 0.
Proof.
  cbv zeta.
  assert (Ht : @processRepo_try _ Samples.pair_host Samples.pair_config false
                 "acme" "app"
                 (Samples.pair_start (Samples.world_with_outage, Samples.world))
               = (inl (GitHubModel.http 500 "Server Error"),
                  snd (@processRepo_try _ Samples.pair_host
                         Samples.pair_config false "acme" "app"
                         (Samples.pair_start
                            (Samples.world_with_outage, Samples.world)))))
    by (vm_compute; reflexivity).
  assert (Hc : 1 ≤ max_concurrency Samples.pair_config)
    by (vm_compute; discriminate).
  destruct (processRepo_contains_failure _ _ _ _ _ _ _ Ht)
    as (Hrepo & _ & _ & Hrun & _).
  destruct (Hrun (Samples.in_turn 40)
              (Samples.pair_start (Samples.world_with_outage, Samples.world))
              Hc) as (Hnever & _ & _ & Hexit & _).
  split; [exact Ht|]. split; [exact Hc|]. split; [exact Hrepo|].
  split; [vm_compute; reflexivity|]. split; [exact Hnever|].
  split; [vm_compute; reflexivity|]. split; [vm_compute; reflexivity|].
  rewrite Hexit by (vm_compute; reflexivity). vm_compute. reflexivity.
Defined.

(** ** Further checks on the sample repository *)

(** The tag of the tool's documentation. *)
Example backup_tag_of_the_readme :
  backup_tag_name (safety Samples.config) "claude/feature-xyz"
    (GitHubModel.clock Samples.world)
  = "cleanup-backup/claude-feature-xyz/20251110".
Proof. vm_compute. reflexivity. Qed.

(** A dry run over the sample repository: three candidates, three
    records, no mutating request, exit code 0. *)
Example dry_run_of_the_sample :
  let r := Interleaved.run Samples.config true (replicate 25 0%nat)
             (GitHubModel.start Samples.world) in
  fst r = Some (inr 0)
  ∧ map (fun x => (branch x, actionTaken x, backupTag x)) (records (snd r))
    = [("bot/fix-1", Deleted, "cleanup-backup/bot-fix-1/20251110");
       ("bot/fix-2", Deleted, "cleanup-backup/bot-fix-2/20251110");
       ("bot/fix-3", Deleted, "cleanup-backup/bot-fix-3/20251110")]
  ∧ forallb (fun c => negb (mutating (call_request c))) (calls (snd r)) = true
  ∧ GitHubModel.refs (world (snd r)) = GitHubModel.refs Samples.world.
Proof. vm_compute. auto. Qed.

(** A live run during the outage: bot/fix-1 is deleted, the lookup of
    bot/fix-2 throws, bot/fix-3 is never looked at, and the exit code
    is 0. *)
Example live_run_during_the_outage :
  let r := Interleaved.run Samples.config false (replicate 20 0%nat)
             (GitHubModel.start Samples.world_with_outage) in
  fst r = Some (inr 0)
  ∧ map (fun x => (branch x, actionTaken x)) (records (snd r))
    = [("bot/fix-1", Deleted)]
  ∧ GitHubModel.mem "refs/heads/bot/fix-3" (GitHubModel.refs (world (snd r)))
    = true.
Proof. vm_compute. auto. Qed.

(** Two repositories, two passes at a time, resumed in turn: the pass
    over acme/app is cut short by the outage after its first record
    while the pass over acme/lib records all three of its branches. *)
Example live_run_of_two_repositories :
  let r := @Interleaved.run _ Samples.pair_host Samples.pair_config false
             (Samples.in_turn 40)
             (Samples.pair_start (Samples.world_with_outage, Samples.world)) in
  fst r = Some (inr 0)
  ∧ map (fun x => (repo x, branch x, actionTaken x)) (records (snd r))
    = [("app", "bot/fix-1", Deleted); ("lib", "bot/fix-1", Deleted);
       ("lib", "bot/fix-2", Deleted); ("lib", "bot/fix-3", Deleted)]
  ∧ map (fun c => Samples.repository (call_request c))
      (take 6 (calls (snd r)))
    = ["app"; "lib"; "app"; "lib"; "app"; "lib"].
Proof. vm_compute. auto. Qed.

(** While passes are in progress [run] has not returned; with a
    concurrency below 1 it throws before any pass is started. *)
Example run_before_its_end :
  Interleaved.exitCode Samples.config true (replicate 10 0%nat)
    (GitHubModel.start Samples.world) = None
  ∧ Interleaved.run
      {| orgs := orgs Samples.config;
         branch_patterns := branch_patterns Samples.config;
         exclude_patterns := exclude_patterns Samples.config;
         safety := safety Samples.config;
         max_concurrency := 0;
         per_repo_delay_ms := 250 |} false (replicate 25 0%nat)
      (GitHubModel.start Samples.world)
    = (Some (inl {| err_name := "TypeError";
                    err_message :=
                      "Expected `concurrency` to be a number from 1 and up";
                    err_status := None |}),
       GitHubModel.start Samples.world).
Proof. vm_compute. auto. Qed.

(** * Further properties *)

(** ** Reporter: what the summary counts *)

Module SummaryFacts.
Import Reporter.

Lemma fold_bump_lookup {A : Type} (key : A → string) (l : list A) :
  ∀ (m : gmap string nat) (k : string),
    fold_left (fun m x => bump (key x) m) l m !! k
    = match length (List.filter (fun x => String.eqb (key x) k) l) with
      | O => m !! k
      | S n => Some (default O (m !! k) + S n)%nat
      end.
Proof.
  induction l as [|x l IH]; intros m k; [reflexivity|].
  cbn [fold_left List.filter]. rewrite IH, ReporterFacts.bump_insert.
  destruct (String.eqb_spec (key x) k) as [->|Hne].
  - rewrite lookup_insert_eq. cbn [length].
    destruct (length (List.filter _ l)); simpl; f_equal; lia.
  - rewrite lookup_insert_ne by exact Hne. reflexivity.
Qed.

Lemma fold_count_byStatus (l : list CleanupRecord) :
  ∀ s, byStatus (fold_left count_record l s)
       = fold_left (fun m r => bump (action_name (actionTaken r)) m) l
           (byStatus s).
Proof. induction l as [|r l IH]; intros s; [reflexivity|]. apply IH. Qed.

Lemma fold_count_byRepo (l : list CleanupRecord) :
  ∀ s, byRepo (fold_left count_record l s)
       = fold_left (fun m r => bump (org r +:+ "/" +:+ repo r) m) l
           (byRepo s).
Proof. induction l as [|r l IH]; intros s; [reflexivity|]. apply IH. Qed.

Lemma action_name_eqb (a b : ActionTaken) :
  String.eqb (action_name a) (action_name b) = bool_decide (a = b).
Proof. destruct a, b; reflexivity. Qed.

Lemma filter_ext_length {A : Type} (f g : A → bool) (l : list A) :
  (∀ x, f x = g x) →
  length (List.filter f l) = length (List.filter g l).
Proof. intros Hfg. rewrite (List.filter_ext f g Hfg). reflexivity. Qed.

Lemma fold_count_fields (l : list CleanupRecord) :
  ∀ s,
    deleted (fold_left count_record l s)
    = (deleted s + count_action Deleted l)%nat
    ∧ errors (fold_left count_record l s)
      = (errors s + count_action Error l)%nat.
Proof.
  unfold count_action.
  induction l as [|r l IH]; intros s; cbn [fold_left List.filter].
  - cbn. lia.
  - destruct (IH (count_record s r)) as (-> & ->).
    unfold count_record; cbn [deleted errors].
    destruct (actionTaken r); simpl; lia.
Qed.

Lemma getSummary_errors (l : list CleanupRecord) :
  errors (getSummary l) = count_action Error l.
Proof.
  unfold getSummary.
  destruct (fold_count_fields l
              {| totalBranches := length l; deleted := O; skipped := O;
                 errors := O; byStatus := ∅; byRepo := ∅ |}) as (_ & He).
  exact He.
Qed.

Lemma counter_length_filter {A : Type} (f : A → bool) (l : list A) :
  match length (List.filter f l) with
  | O => None
  | S n => Some (default O (@None nat) + S n)%nat
  end = counter (length (List.filter f l)).
Proof. destruct (length (List.filter f l)); reflexivity. Qed.

Lemma count_action_pos (r : CleanupRecord) (l : list CleanupRecord) :
  In r l → (0 < count_action (actionTaken r) l)%nat.
Proof.
  unfold count_action.
  induction l as [|x l IH]; intros Hin; [contradiction|].
  cbn [List.filter]. destruct Hin as [->|Hin].
  - rewrite bool_decide_eq_true_2 by reflexivity. cbn. lia.
  - destruct (bool_decide _); cbn [length]; [lia|]. apply IH, Hin.
Qed.

End SummaryFacts.

(** X1. The totals of the summary are counts of records: [totalBranches]
    is the number of records, [deleted] the number with action Deleted,
    [errors] the number with action Error, and [skipped] all the
    others. *)
Theorem getSummary_totals (l : list CleanupRecord) :
  totalBranches (Reporter.getSummary l) = length l
  ∧ deleted (Reporter.getSummary l) = count_action Deleted l
  ∧ errors (Reporter.getSummary l) = count_action Error l
  ∧ skipped (Reporter.getSummary l)
    = (length l - count_action Deleted l - count_action Error l)%nat.
Proof.
  pose proof (ReporterFacts.fold_count_tally l
                {| totalBranches := length l; deleted := O; skipped := O;
                   errors := O; byStatus := ∅; byRepo := ∅ |}) as Ht.
  unfold tally in Ht. cbn [deleted skipped errors] in Ht.
  unfold Reporter.getSummary.
  destruct (SummaryFacts.fold_count_fields l
              {| totalBranches := length l; deleted := O; skipped := O;
                 errors := O; byStatus := ∅; byRepo := ∅ |}) as (Hd & He).
  cbn [deleted errors] in Hd, He.
  rewrite ReporterFacts.fold_count_total. cbn [totalBranches].
  repeat split; lia.
Qed.

(** X2. [byStatus] holds, under the name of each action, the number of
    records with that action, and has no entry for an action that no
    record carries nor for any other key. *)
Theorem getSummary_byStatus (l : list CleanupRecord) :
  (∀ a, byStatus (Reporter.getSummary l) !! action_name a
        = counter (count_action a l))
  ∧ (∀ k, is_Some (byStatus (Reporter.getSummary l) !! k) →
          ∃ a, k = action_name a ∧ (0 < count_action a l)%nat).
Proof.
  assert (Hk : ∀ k, byStatus (Reporter.getSummary l) !! k
               = counter (length (List.filter
                   (fun r => String.eqb (action_name (actionTaken r)) k) l))).
  { intros k. unfold Reporter.getSummary.
    rewrite SummaryFacts.fold_count_byStatus. cbn [byStatus].
    rewrite (SummaryFacts.fold_bump_lookup
               (fun r => action_name (actionTaken r))).
    rewrite lookup_empty. apply SummaryFacts.counter_length_filter. }
  split.
  - intros a. rewrite Hk. unfold count_action. f_equal.
    apply SummaryFacts.filter_ext_length. intros r.
    apply SummaryFacts.action_name_eqb.
  - intros k [n Hn]. rewrite Hk in Hn.
    destruct (List.filter _ l) as [|r rest] eqn:Hf; [discriminate|].
    assert (Hin : In r (List.filter
                          (fun r => String.eqb (action_name (actionTaken r)) k)
                          l)) by (rewrite Hf; left; reflexivity).
    apply List.filter_In in Hin as (Hin & Heq).
    apply String.eqb_eq in Heq. exists (actionTaken r). split; [auto|].
    apply SummaryFacts.count_action_pos, Hin.
Qed.

(** X3. [byRepo] holds, under [org/repo], the number of records of that
    repository, and no entry for a repository without records. *)
Theorem getSummary_byRepo (l : list CleanupRecord) (key : string) :
  byRepo (Reporter.getSummary l) !! key = counter (count_repo key l).
Proof.
  unfold Reporter.getSummary, count_repo.
  rewrite SummaryFacts.fold_count_byRepo. cbn [byRepo].
  rewrite (SummaryFacts.fold_bump_lookup (fun r => org r +:+ "/" +:+ repo r)).
  rewrite lookup_empty. apply SummaryFacts.counter_length_filter.
Qed.

(** X4. [hasErrors] is true exactly when the summary counts at least
    one error. *)
Theorem hasErrors_iff_summary_errors (l : list CleanupRecord) :
  Reporter.hasErrors l = negb (errors (Reporter.getSummary l) =? 0)%nat.
Proof.
  rewrite SummaryFacts.getSummary_errors.
  unfold Reporter.hasErrors, count_action.
  induction l as [|r l IH]; [reflexivity|].
  cbn [existsb List.filter].
  destruct (bool_decide (actionTaken r = Error)); [reflexivity|].
  exact IH.
Qed.

(** ** What a computation adds to the call log *)

Section LogFacts.

Context {W : Type} `{Host W}.

Lemma logs_ret {A} (P : Call → bool) (a : A) : logs_only P (ret (W:=W) a).
Proof.
  intros s r s' Hr. inversion Hr; subst. exists []. rewrite app_nil_r. auto.
Qed.

Lemma logs_throw {A} (P : Call → bool) (e : JsError) :
  logs_only P (throw (W:=W) (A:=A) e).
Proof.
  intros s r s' Hr. inversion Hr; subst. exists []. rewrite app_nil_r. auto.
Qed.

Lemma logs_lift {A} (P : Call → bool) (x : Result A) :
  logs_only P (lift (W:=W) x).
Proof.
  intros s r s' Hr. inversion Hr; subst. exists []. rewrite app_nil_r. auto.
Qed.

Lemma logs_dayjs (P : Call → bool) : logs_only P dayjs.
Proof.
  intros s r s' Hr. inversion Hr; subst. exists []. rewrite app_nil_r. auto.
Qed.

Lemma logs_delay (P : Call → bool) (ms : Z) : logs_only P (delay ms).
Proof.
  intros s r s' Hr. inversion Hr; subst. exists []. cbn.
  rewrite app_nil_r. auto.
Qed.

Lemma logs_addRecord (P : Call → bool) (x : CleanupRecord) :
  logs_only P (addRecord (W:=W) x).
Proof.
  intros s r s' Hr. inversion Hr; subst. exists []. cbn.
  rewrite app_nil_r. auto.
Qed.

Lemma logs_issueCache_has (P : Call → bool) (k : string) :
  logs_only P (issueCache_has (W:=W) k).
Proof.
  intros s r s' Hr. inversion Hr; subst. exists []. rewrite app_nil_r. auto.
Qed.

Lemma logs_issueCache_add (P : Call → bool) (k : string) :
  logs_only P (issueCache_add (W:=W) k).
Proof.
  intros s r s' Hr. inversion Hr; subst. exists []. cbn.
  rewrite app_nil_r. auto.
Qed.

Lemma logs_writeReports (P : Call → bool) (dryRun : bool) :
  logs_only P (writeReports dryRun).
Proof.
  intros s r s' Hr. unfold writeReports in Hr.
  destruct (fs_writeReports dryRun (records s) (world s)) as [x w'].
  inversion Hr; subst. exists []. cbn. rewrite app_nil_r. auto.
Qed.

Lemma logs_hasErrors (P : Call → bool) : logs_only P (hasErrors (W:=W)).
Proof.
  intros s r s' Hr. inversion Hr; subst. exists []. rewrite app_nil_r. auto.
Qed.

Lemma logs_request (P : Call → bool) (r : Request) :
  P (mkCall r true) = true → P (mkCall r false) = true →
  logs_only P (request r).
Proof.
  intros Ht Hf s x s' Hr. rewrite request_run in Hr.
  inversion Hr; subst. cbn [calls]. eexists. split; [reflexivity|].
  cbn [forallb]. destruct (is_ok _); rewrite ?Ht, ?Hf; reflexivity.
Qed.

Lemma logs_bind {A B} (P : Call → bool) (m : M W A) (k : A → M W B) :
  logs_only P m → (∀ a, logs_only P (k a)) → logs_only P (bind m k).
Proof.
  intros Hm Hk s r s'' Hr.
  apply bind_inv in Hr as [(e & Hr & _) | (a & s' & Hr & Hr')].
  - apply (Hm _ _ _ Hr).
  - destruct (Hm _ _ _ Hr) as (n1 & E1 & F1).
    destruct (Hk _ _ _ _ Hr') as (n2 & E2 & F2).
    exists (n1 ++ n2). rewrite E2, E1, app_assoc. split; [reflexivity|].
    rewrite forallb_app, F1, F2. reflexivity.
Qed.

Lemma logs_try_catch {A} (P : Call → bool) (m : M W A)
    (h : JsError → M W A) :
  logs_only P m → (∀ e, logs_only P (h e)) → logs_only P (try_catch m h).
Proof.
  intros Hm Hh s r s'' Hr. unfold try_catch in Hr.
  destruct (m s) as [[e|a] s'] eqn:Em.
  - destruct (Hm _ _ _ Em) as (n1 & E1 & F1).
    destruct (Hh _ _ _ _ Hr) as (n2 & E2 & F2).
    exists (n1 ++ n2). rewrite E2, E1, app_assoc. split; [reflexivity|].
    rewrite forallb_app, F1, F2. reflexivity.
  - inversion Hr; subst. apply (Hm _ _ _ Em).
Qed.

End LogFacts.

Create HintDb logs.

Ltac logs_step :=
  first
    [ solve [auto with logs nocore]
    | apply logs_ret | apply logs_throw | apply logs_lift
    | apply logs_dayjs | apply logs_delay | apply logs_addRecord
    | apply logs_issueCache_has | apply logs_issueCache_add
    | apply logs_writeReports | apply logs_hasErrors
    | match goal with
      | |- logs_only ?P (request ?r) =>
          exact (logs_request P r eq_refl eq_refl)
      end
    | apply logs_bind; [|intros ?]
    | apply logs_try_catch; [|intros ?]
    | match goal with
      | |- logs_only _ (if ?b then _ else _) => destruct b
      | |- logs_only _ (match ?x with _ => _ end) => destruct x
      end ].

Ltac logs := repeat logs_step.

(** ** A dry run only reads *)

Section DryRunLogFacts.

Context {W : Type} `{Host W}.

Lemma readonly_checkBranch (owner repo b : string) :
  logs_only readonly (checkBranch owner repo b).
Proof. unfold checkBranch. logs. Qed.

Lemma readonly_isBranchReachable (owner repo base head : string) :
  logs_only readonly (isBranchReachable owner repo base head).
Proof. unfold isBranchReachable, compareCommits. logs. Qed.

Lemma readonly_backupAndDelete_dry (config : SafetyConfig)
    (owner repo b sha : string) :
  logs_only readonly (backupAndDelete config owner repo b sha true).
Proof.
  unfold backupAndDelete, backupAndDelete_try, getBackupTagName.
  destruct (create_backup_tag config); cbn [andb negb]; logs.
Qed.

Lemma readonly_findCandidates (config : Config)
    (owner repo defaultBranch : string) :
  logs_only readonly (findCandidates config owner repo defaultBranch).
Proof. unfold findCandidates, getMergedPRs. logs. Qed.

Lemma readonly_checkPermissions (owner repo : string) :
  logs_only readonly (checkPermissions owner repo).
Proof. unfold checkPermissions. logs. Qed.

Lemma readonly_getDefaultBranch (owner repo : string) :
  logs_only readonly (getDefaultBranch owner repo).
Proof. unfold getDefaultBranch. logs. Qed.

Lemma readonly_createPermissionIssue_dry (owner repo : string) (n : Z) :
  logs_only readonly (createPermissionIssue owner repo n true).
Proof. unfold createPermissionIssue. logs. Qed.

End DryRunLogFacts.

#[global] Hint Resolve readonly_checkBranch readonly_isBranchReachable
  readonly_backupAndDelete_dry readonly_findCandidates
  readonly_checkPermissions readonly_getDefaultBranch
  readonly_createPermissionIssue_dry : logs.

Section DryRunPipelineFacts.

Context {W : Type} `{Host W}.

Lemma readonly_processBranch_dry (config : Config)
    (owner repo defaultBranch : string) (candidate : BranchCandidate) :
  logs_only readonly
    (processBranch config true owner repo defaultBranch candidate).
Proof. unfold processBranch, reachAndDelete. logs. Qed.

Lemma readonly_processCandidates_dry (config : Config)
    (owner repo defaultBranch : string) (candidates : list BranchCandidate) :
  ∀ blockedCount,
    logs_only readonly
      (processCandidates config true owner repo defaultBranch candidates
         blockedCount).
Proof.
  induction candidates as [|c rest IH]; intros b;
    cbn [processCandidates]; [apply logs_ret|].
  apply logs_bind; [apply logs_delay|intros _].
  apply logs_bind; [apply readonly_processBranch_dry|intros result].
  apply logs_bind; [apply logs_addRecord|intros _]. apply IH.
Qed.

Lemma readonly_processRepo_dry (config : Config) (owner repo : string) :
  logs_only readonly (processRepo config true owner repo).
Proof.
  unfold processRepo, processRepo_try, enableAutoDelete.
  apply logs_try_catch; [|intros e; apply logs_ret].
  apply logs_bind; [apply readonly_checkPermissions|intros perms].
  destruct (negb (canDelete perms)); [apply logs_ret|].
  apply logs_bind; [apply readonly_getDefaultBranch|intros d].
  apply logs_bind; [apply readonly_findCandidates|intros cands].
  destruct (length cands =? 0)%nat; [apply logs_ret|].
  apply logs_bind; [apply readonly_processCandidates_dry|intros blocked].
  logs.
Qed.

(** The steps of a dry pass only read. *)
Lemma StepOf_dry_readonly (config : Config) (owner repoName : string)
    (X : Type) (io : M W X) :
  StepOf config true owner repoName X io → logs_only readonly io.
Proof.
  intros Hstep.
  destruct Hstep as [| |d|ms|b| |d b|b|d c record Hres Ho Hr| |q Hlive
                    |b Hlive|key Hlive|key Hlive];
    try discriminate;
    unfold getBackupTagName, enableAutoDelete; logs.
Qed.

Lemma readonly_after_reports (dryRun : bool) :
  logs_only readonly
    (bind (writeReports (W:=W) dryRun)
       (fun _ => bind hasErrors
          (fun failed : bool => if failed then ret 1 else ret 0))).
Proof. logs. Qed.

Lemma readonly_run_dry (config : Config) (schedule : list nat)
    (s : Run W) :
  ∃ new,
    calls (snd (Interleaved.run config true schedule s)) = calls s ++ new
    ∧ forallb readonly new = true.
Proof.
  assert (Hnone : ∃ new, calls s = calls s ++ new
                         ∧ forallb readonly new = true).
  { exists []. rewrite app_nil_r. auto. }
  unfold Interleaved.run.
  destruct (Interleaved.pLimit (max_concurrency config)) as [e|limit];
    [exact Hnone|].
  pose proof (runPool_every (StepOfRun config true)
                (fun t => ∃ new, calls t = calls s ++ new
                                 ∧ forallb readonly new = true)) as Hpool.
  specialize (Hpool ltac:(
    intros X io t r t' (owner & repoName & _ & Hstep)
      (new & Hnew & Hread) Hio;
    destruct (StepOf_dry_readonly _ _ _ _ _ Hstep _ _ _ Hio)
      as (more & Hmore & Hread');
    exists (new ++ more); rewrite Hmore, Hnew, app_assoc;
    split; [reflexivity|]; rewrite forallb_app, Hread, Hread';
    reflexivity)).
  specialize (Hpool schedule
                (Interleaved.start limit (Interleaved.passes config true))
                s (all_tasks_start _ _ _ (passes_steps config true)) Hnone).
  destruct (Interleaved.runPool schedule
              (Interleaved.start limit (Interleaved.passes config true)) s)
    as [[| e | p] s1]; cbn [snd] in *; try exact Hpool.
  destruct (bind (writeReports true)
              (fun _ => bind hasErrors
                 (fun failed : bool => if failed then ret 1 else ret 0))
              s1) as [r s2] eqn:Hw.
  cbn [snd]. destruct Hpool as (new & Hnew & Hread).
  destruct (readonly_after_reports true _ _ _ Hw)
    as (more & Hmore & Hread').
  exists (new ++ more). rewrite Hmore, Hnew, app_assoc.
  split; [reflexivity|]. rewrite forallb_app, Hread, Hread'. reflexivity.
Qed.

End DryRunPipelineFacts.

(** X5. A whole run with [dryRun = true] issues no mutating request,
    whatever the concurrency, the order in which the passes are resumed
    and the answers of the host: every call it adds to the log is a
    read (repository, pull requests, branch, comparison). *)
Theorem dry_run_only_reads {W : Type} `{Host W} (config : Config)
    (schedule : list nat) (s : Run W) :
  ∃ new,
    calls (snd (Interleaved.run config true schedule s)) = calls s ++ new
    ∧ forallb readonly new = true.
Proof. apply readonly_run_dry. Qed.

(** ** The safety gates of the per-branch pipeline *)

Section GateFacts.

Context {W : Type} `{Host W}.

Lemma checkBranch_found (owner repo branch : string) (s s1 : Run W)
    (info : BranchInfo) :
  checkBranch owner repo branch s = (inr info, s1) →
  bi_exists info = true →
  calls s1 = calls s ++ [mkCall (GetBranch owner repo branch) true].
Proof.
  rewrite checkBranch_run. cbv zeta. rewrite request_run.
  destruct (octokit_request (GetBranch owner repo branch) (world s))
    as [[e|p] w']; simpl.
  - destruct (status_is e 404); intros Hc He; [|discriminate Hc].
    inversion Hc; subst. discriminate He.
  - intros Hc He. inversion Hc; subst. reflexivity.
Qed.

Lemma checkBranch_failed (owner repo branch : string) (s s1 : Run W)
    (e : JsError) :
  checkBranch owner repo branch s = (inl e, s1) →
  calls s1 = calls s ++ [mkCall (GetBranch owner repo branch) false]
  ∧ status_is e 404 = false
  ∧ fst (octokit_request (GetBranch owner repo branch) (world s)) = inl e.
Proof.
  rewrite checkBranch_run. cbv zeta. rewrite request_run.
  destruct (octokit_request (GetBranch owner repo branch) (world s))
    as [[e'|p] w']; simpl; [|discriminate].
  destruct (status_is e' 404) eqn:E4; [discriminate|].
  intros Hc. inversion Hc; subst. auto.
Qed.

(** What [isBranchReachable] makes of each answer of the host. *)
Lemma isBranchReachable_run (owner repo base head : string) (s : Run W) :
  isBranchReachable owner repo base head s =
  let r := GetCompare owner repo (base +:+ "..." +:+ head) in
  let s1 := snd (request r s) in
  match fst (request r s) with
  | inr data =>
      (inr (String.eqb (cmp_status data) "behind"
            || String.eqb (cmp_status data) "identical"), s1)
  | inl e => if status_is e 404 then (inr false, s1) else (inl e, s1)
  end.
Proof.
  unfold isBranchReachable, compareCommits, try_catch, bind, ret, throw.
  cbv zeta.
  destruct (request (GetCompare owner repo (base +:+ "..." +:+ head)) s)
    as [[e|data] s1]; simpl.
  - destruct (status_is e 404); reflexivity.
  - reflexivity.
Qed.

Lemma isBranchReachable_calls (owner repo base head : string)
    (s s1 : Run W) (r : Result bool) :
  isBranchReachable owner repo base head s = (r, s1) →
  ∃ ok, calls s1
        = calls s
          ++ [mkCall (GetCompare owner repo (base +:+ "..." +:+ head)) ok]
        ∧ (is_ok r = false → ok = false).
Proof.
  rewrite isBranchReachable_run. cbv zeta. rewrite request_run.
  destruct (octokit_request
              (GetCompare owner repo (base +:+ "..." +:+ head)) (world s))
    as [[e|data] w']; simpl.
  - destruct (status_is e 404); intros Hc; inversion Hc; subst; simpl;
      eauto.
  - intros Hc. inversion Hc; subst; simpl. exists true.
    split; [reflexivity|discriminate].
Qed.

Lemma isBranchReachable_failed (owner repo base head : string)
    (s s1 : Run W) (e : JsError) :
  isBranchReachable owner repo base head s = (inl e, s1) →
  status_is e 404 = false.
Proof.
  rewrite isBranchReachable_run. cbv zeta.
  destruct (fst (request _ s)) as [e'|data]; [|discriminate].
  destruct (status_is e' 404) eqn:E4; [discriminate|].
  intros Hc. inversion Hc; subst. exact E4.
Qed.

End GateFacts.

(** X6. A branch that exists and is protected is recorded as
    SkippedProtected with its protection flag set, after the single
    branch lookup: no comparison and no mutating call follow, whatever
    the age and the ancestry are. *)
Theorem processBranch_protected_is_skipped {W : Type} `{Host W}
    (config : Config) (dryRun : bool) (owner repo defaultBranch : string)
    (candidate : BranchCandidate) (s s1 : Run W) (info : BranchInfo) :
  checkBranch owner repo (branchName candidate) s = (inr info, s1) →
  bi_exists info = true →
  bi_protected info = true →
  processBranch config dryRun owner repo defaultBranch candidate s
  = (inr (baseRecord owner repo defaultBranch candidate true
            SkippedProtected EmptyString EmptyString), s1)
  ∧ calls s1
    = calls s ++ [mkCall (GetBranch owner repo (branchName candidate)) true].
Proof.
  intros Hc He Hp. split.
  - unfold processBranch. rewrite (bind_inr _ _ _ _ _ Hc), He, Hp.
    reflexivity.
  - apply (checkBranch_found _ _ _ _ _ _ Hc He).
Qed.

Lemma processBranch_protected_is_skipped_witness :
  let s := @GitHubModel.start MoreSamples.guarded_world in
  let info := {| bi_name := "bot/fix-1"; bi_protected := true;
                 bi_exists := true |} in
  let s1 := snd (checkBranch "acme" "app" "bot/fix-1" s) in
  checkBranch "acme" "app" "bot/fix-1" s = (inr info, s1)
  ∧ processBranch Samples.config false "acme" "app" "main" Samples.fix1 s
    = (inr (baseRecord "acme" "app" "main" Samples.fix1 true
              SkippedProtected EmptyString EmptyString), s1)
  ∧ calls s1 = [mkCall (GetBranch "acme" "app" "bot/fix-1") true].
Proof.
  cbv zeta.
  assert (Hc : checkBranch "acme" "app" (branchName Samples.fix1)
                 (GitHubModel.start MoreSamples.guarded_world)
               = (inr {| bi_name := "bot/fix-1"; bi_protected := true;
                         bi_exists := true |},
                  snd (checkBranch "acme" "app" "bot/fix-1"
                         (GitHubModel.start MoreSamples.guarded_world))))
    by (vm_compute; reflexivity).
  split; [exact Hc|].
  exact (processBranch_protected_is_skipped Samples.config false "acme" "app"
           "main" Samples.fix1 _ _ _ Hc eq_refl eq_refl).
Defined.

(** X7. A candidate whose merge time parses and whose age in whole days
    is below [minimum_age_days] is recorded as SkippedTooRecent with the
    text [Only <age> days old], after the single branch lookup, provided
    the branch exists and is unprotected. *)
Theorem processBranch_young_is_skipped {W : Type} `{Host W}
    (config : Config) (dryRun : bool) (owner repo defaultBranch : string)
    (candidate : BranchCandidate) (s s1 : Run W) (info : BranchInfo)
    (merged : string) (mergedDate : Dayjs) :
  checkBranch owner repo (branchName candidate) s = (inr info, s1) →
  bi_exists info = true →
  bi_protected info = false →
  mergedAt candidate = Some merged →
  merged ≠ EmptyString →
  dayjs_parse merged = Some mergedDate →
  diff_days (dayjs_now (world s1)) mergedDate
  < minimum_age_days (safety config) →
  processBranch config dryRun owner repo defaultBranch candidate s
  = (inr (baseRecord owner repo defaultBranch candidate false
            SkippedTooRecent EmptyString
            ("Only "
             +:+ pretty (diff_days (dayjs_now (world s1)) mergedDate)
             +:+ " days old")), s1)
  ∧ calls s1
    = calls s ++ [mkCall (GetBranch owner repo (branchName candidate)) true].
Proof.
  intros Hc He Hp Hm Hne Hparse Hage. split.
  - apply (processBranch_too_recent _ _ _ _ _ _ _ _ _ _ Hc He Hp).
    unfold tooRecent, ageInDays, Js.truthy. rewrite Hm, Hparse.
    destruct (String.eqb_spec merged EmptyString); [contradiction|].
    cbn [negb]. apply Z.ltb_lt in Hage. rewrite Hage. reflexivity.
  - apply (checkBranch_found _ _ _ _ _ _ Hc He).
Qed.

Lemma processBranch_young_is_skipped_witness :
  let s := GitHubModel.start Samples.world in
  let info := {| bi_name := "bot/fix-1"; bi_protected := false;
                 bi_exists := true |} in
  let s1 := snd (checkBranch "acme" "app" "bot/fix-1" s) in
  checkBranch "acme" "app" "bot/fix-1" s = (inr info, s1)
  ∧ processBranch Samples.strict_config false "acme" "app" "main"
      Samples.fix1 s
    = (inr (baseRecord "acme" "app" "main" Samples.fix1 false
              SkippedTooRecent EmptyString "Only 40 days old"), s1).
Proof.
  cbv zeta.
  assert (Hc : checkBranch "acme" "app" (branchName Samples.fix1)
                 (GitHubModel.start Samples.world)
               = (inr {| bi_name := "bot/fix-1"; bi_protected := false;
                         bi_exists := true |},
                  snd (checkBranch "acme" "app" "bot/fix-1"
                         (GitHubModel.start Samples.world))))
    by (vm_compute; reflexivity).
  split; [exact Hc|].
  exact (proj1
           (processBranch_young_is_skipped Samples.strict_config false
              "acme" "app" "main" Samples.fix1 _ _ _
              "2025-10-01T00:00:00Z"
              (GitHubModel.utc 2025 10 1 0 0 0 "2025-10-01T00:00:00Z")
              Hc eq_refl eq_refl eq_refl ltac:(discriminate) eq_refl
              ltac:(vm_compute; reflexivity))).
Defined.

(** X8. A branch that passed the existence, protection and age checks
    and is not reachable from the default branch is recorded as
    SkippedUnsafe after two reads, the branch lookup and the comparison:
    neither a backup tag nor a deletion is requested. *)
Theorem processBranch_unreachable_is_skipped {W : Type} `{Host W}
    (config : Config) (dryRun : bool) (owner repo defaultBranch : string)
    (candidate : BranchCandidate) (s s1 s2 : Run W) (info : BranchInfo) :
  checkBranch owner repo (branchName candidate) s = (inr info, s1) →
  bi_exists info = true →
  bi_protected info = false →
  tooRecent config (dayjs_now (world s1)) candidate = None →
  isBranchReachable owner repo defaultBranch (branchName candidate) s1
  = (inr false, s2) →
  processBranch config dryRun owner repo defaultBranch candidate s
  = (inr (baseRecord owner repo defaultBranch candidate false
            SkippedUnsafe EmptyString
            "Branch has commits not in default branch"), s2)
  ∧ ∃ ok,
      calls s2
      = calls s
        ++ [mkCall (GetBranch owner repo (branchName candidate)) true;
            mkCall (GetCompare owner repo
                      (defaultBranch +:+ "..." +:+ branchName candidate)) ok].
Proof.
  intros Hc He Hp Ht Hr. split.
  - unfold processBranch. rewrite (bind_inr _ _ _ _ _ Hc), He, Hp.
    cbn [negb].
    rewrite (bind_inr _ _ _ _ _ (dayjs_run s1)), Ht.
    unfold reachAndDelete. rewrite (bind_inr _ _ _ _ _ Hr). reflexivity.
  - destruct (isBranchReachable_calls _ _ _ _ _ _ _ Hr) as (ok & Hcalls & _).
    exists ok. rewrite Hcalls, (checkBranch_found _ _ _ _ _ _ Hc He).
    rewrite <- app_assoc. reflexivity.
Qed.

Lemma processBranch_unreachable_is_skipped_witness :
  let s := GitHubModel.start MoreSamples.guarded_world in
  let info := {| bi_name := "bot/fix-2"; bi_protected := false;
                 bi_exists := true |} in
  let s1 := snd (checkBranch "acme" "app" "bot/fix-2" s) in
  let s2 := snd (isBranchReachable "acme" "app" "main" "bot/fix-2" s1) in
  checkBranch "acme" "app" "bot/fix-2" s = (inr info, s1)
  ∧ isBranchReachable "acme" "app" "main" "bot/fix-2" s1 = (inr false, s2)
  ∧ processBranch Samples.config false "acme" "app" "main" Samples.fix2 s
    = (inr (baseRecord "acme" "app" "main" Samples.fix2 false
              SkippedUnsafe EmptyString
              "Branch has commits not in default branch"), s2).
Proof.
  cbv zeta.
  assert (Hc : checkBranch "acme" "app" (branchName Samples.fix2)
                 (GitHubModel.start MoreSamples.guarded_world)
               = (inr {| bi_name := "bot/fix-2"; bi_protected := false;
                         bi_exists := true |},
                  snd (checkBranch "acme" "app" "bot/fix-2"
                         (GitHubModel.start MoreSamples.guarded_world))))
    by (vm_compute; reflexivity).
  assert (Hr : isBranchReachable "acme" "app" "main"
                 (branchName Samples.fix2)
                 (snd (checkBranch "acme" "app" "bot/fix-2"
                         (GitHubModel.start MoreSamples.guarded_world)))
               = (inr false,
                  snd (isBranchReachable "acme" "app" "main" "bot/fix-2"
                         (snd (checkBranch "acme" "app" "bot/fix-2"
                                 (GitHubModel.start
                                    MoreSamples.guarded_world))))))
    by (vm_compute; reflexivity).
  split; [exact Hc|]. split; [exact Hr|].
  exact (proj1
           (processBranch_unreachable_is_skipped Samples.config false
              "acme" "app" "main" Samples.fix2 _ _ _ _
              Hc eq_refl eq_refl ltac:(vm_compute; reflexivity) Hr)).
Defined.

(** X9. [isBranchReachable] issues one comparison and resolves to true
    exactly for the statuses behind and identical; a comparison that is
    answered 404 resolves to false (not reachable) instead of
    rejecting, and any other failure is rethrown as it is. *)
Theorem isBranchReachable_answers {W : Type} `{Host W}
    (owner repo base head : string) (s : Run W) :
  fst (isBranchReachable owner repo base head s)
  = match fst (octokit_request
                 (GetCompare owner repo (base +:+ "..." +:+ head)) (world s))
    with
    | inr data =>
        inr (bool_decide (cmp_status data = "behind"
                          ∨ cmp_status data = "identical"))
    | inl e => if status_is e 404 then inr false else inl e
    end
  ∧ ∃ ok,
      calls (snd (isBranchReachable owner repo base head s))
      = calls s
        ++ [mkCall (GetCompare owner repo (base +:+ "..." +:+ head)) ok].
Proof.
  split.
  - rewrite isBranchReachable_run. cbv zeta. rewrite request_run.
    destruct (octokit_request
                (GetCompare owner repo (base +:+ "..." +:+ head)) (world s))
      as [[e|data] w']; cbn [fst snd].
    + destruct (status_is e 404); reflexivity.
    + cbn [fst]. f_equal.
      destruct (String.eqb_spec (cmp_status data) "behind") as [->|Hb];
        [reflexivity|].
      destruct (String.eqb_spec (cmp_status data) "identical") as [->|Hi];
        [reflexivity|].
      cbn [orb]. symmetry. apply bool_decide_eq_false_2. tauto.
  - destruct (isBranchReachable owner repo base head s) as [r s1] eqn:Hr.
    destruct (isBranchReachable_calls _ _ _ _ _ _ _ Hr) as (ok & Hc & _).
    eauto.
Qed.

(** X10. [processBranch] rejects only when the branch lookup or the
    comparison fails with a status other than 404: the error is the
    host's own, the last call in the log is that failed read, and
    nothing was mutated before it. *)
Theorem processBranch_rejects_only_on_failed_reads {W : Type} `{Host W}
    (config : Config) (dryRun : bool) (owner repo defaultBranch : string)
    (candidate : BranchCandidate) (s s' : Run W) (e : JsError) :
  processBranch config dryRun owner repo defaultBranch candidate s
  = (inl e, s') →
  status_is e 404 = false
  ∧ ∃ new r,
      calls s' = calls s ++ new ++ [mkCall r false]
      ∧ forallb readonly new = true
      ∧ (r = GetBranch owner repo (branchName candidate)
         ∨ r = GetCompare owner repo
                 (defaultBranch +:+ "..." +:+ branchName candidate)).
Proof.
  unfold processBranch. intros Hp.
  apply bind_inv in Hp as [(e1 & Hc & He) | (info & s1 & Hc & Hp)].
  { inversion He; subst e1.
    destruct (checkBranch_failed _ _ _ _ _ _ Hc) as (Hcalls & H404 & _).
    split; [exact H404|].
    exists [], (GetBranch owner repo (branchName candidate)).
    auto. }
  destruct (bi_exists info) eqn:He; cbn [negb] in Hp; [|discriminate].
  destruct (bi_protected info); [discriminate|].
  apply bind_inv in Hp as [(e1 & Hd & _) | (now & s2 & Hd & Hp)];
    [discriminate|].
  inversion Hd; subst now s2.
  destruct (tooRecent config (dayjs_now (world s1)) candidate);
    [discriminate|].
  unfold reachAndDelete in Hp.
  apply bind_inv in Hp as [(e1 & Hr & He1) | (reach & s3 & Hr & Hp)].
  { inversion He1; subst e1.
    split; [apply (isBranchReachable_failed _ _ _ _ _ _ _ Hr)|].
    destruct (isBranchReachable_calls _ _ _ _ _ _ _ Hr) as (ok & Hcalls & Hok).
    rewrite (Hok eq_refl) in Hcalls.
    exists [mkCall (GetBranch owner repo (branchName candidate)) true],
      (GetCompare owner repo
         (defaultBranch +:+ "..." +:+ branchName candidate)).
    rewrite Hcalls, (checkBranch_found _ _ _ _ _ _ Hc He), <- app_assoc.
    auto. }
  destruct reach; cbn [negb] in Hp; [|discriminate].
  apply bind_inv in Hp as [(e1 & Hb & _) | (result & s4 & Hb & Hp)];
    [|discriminate].
  destruct (backupAndDelete_total (safety config) owner repo
              (branchName candidate) (sha candidate) dryRun s3)
    as (result & s4 & Hb').
  rewrite Hb' in Hb. discriminate.
Qed.

Lemma processBranch_rejects_only_on_failed_reads_witness :
  let s := GitHubModel.start Samples.world_with_outage in
  let s' := snd (processBranch Samples.config false "acme" "app" "main"
                   Samples.fix2 s) in
  processBranch Samples.config false "acme" "app" "main" Samples.fix2 s
  = (inl (GitHubModel.http 500 "Server Error"), s')
  ∧ status_is (GitHubModel.http 500 "Server Error") 404 = false
  ∧ calls s' = [mkCall (GetBranch "acme" "app" "bot/fix-2") false].
Proof.
  cbv zeta.
  assert (Hp : processBranch Samples.config false "acme" "app" "main"
                 Samples.fix2 (GitHubModel.start Samples.world_with_outage)
               = (inl (GitHubModel.http 500 "Server Error"),
                  snd (processBranch Samples.config false "acme" "app" "main"
                         Samples.fix2
                         (GitHubModel.start Samples.world_with_outage))))
    by (vm_compute; reflexivity).
  split; [exact Hp|].
  split; [exact (proj1 (processBranch_rejects_only_on_failed_reads _ _ _ _ _
                          _ _ _ _ Hp))|].
  vm_compute. reflexivity.
Defined.

(** ** The two phases of a live deletion *)

(** X11. With backups on, a live [backupAndDelete] requests the deletion
    only after the tag object and the tag ref were both created: its
    calls are the refused tag object alone, or the tag object and the
    refused tag ref, or both followed by the deletion; and it resolves to
    Deleted with the tag name only when the deletion succeeded, to the
    classification of the error otherwise. *)
Theorem backupAndDelete_backs_up_before_deleting {W : Type} `{Host W}
    (config : SafetyConfig) (owner repo branchName sha : string)
    (s : Run W) :
  create_backup_tag config = true →
  ∃ object,
    let tag := backup_tag_name config branchName (dayjs_now (world s)) in
    let t := PostTag owner repo tag
               (backup_message config branchName (dayjs_now (world s))) sha in
    let f := PostRef owner repo ("refs/tags/" +:+ tag) object in
    let d := DeleteRef owner repo ("heads/" +:+ branchName) in
    let run := backupAndDelete config owner repo branchName sha false s in
    (calls (snd run) = calls s ++ [mkCall t false]
     ∧ ∃ e, fst run = inr (handleDeletionError e))
    ∨ (calls (snd run) = calls s ++ [mkCall t true; mkCall f false]
       ∧ ∃ e, fst run = inr (handleDeletionError e))
    ∨ (calls (snd run)
       = calls s ++ [mkCall t true; mkCall f true; mkCall d false]
       ∧ ∃ e, fst run = inr (handleDeletionError e))
    ∨ (calls (snd run)
       = calls s ++ [mkCall t true; mkCall f true; mkCall d true]
       ∧ fst run = inr (ResDeleted tag)).
Proof. apply backupAndDelete_with_backup. Qed.

Lemma backupAndDelete_backs_up_before_deleting_witness :
  create_backup_tag (safety Samples.config) = true
  ∧ ∃ object,
      let s := GitHubModel.start Samples.world in
      let tag := backup_tag_name (safety Samples.config) "bot/fix-1"
                   (dayjs_now (world s)) in
      let t := PostTag "acme" "app" tag
                 (backup_message (safety Samples.config) "bot/fix-1"
                    (dayjs_now (world s))) "abc" in
      let f := PostRef "acme" "app" ("refs/tags/" +:+ tag) object in
      let d := DeleteRef "acme" "app" ("heads/" +:+ "bot/fix-1") in
      let run := backupAndDelete (safety Samples.config) "acme" "app"
                   "bot/fix-1" "abc" false s in
      (calls (snd run) = calls s ++ [mkCall t false]
       ∧ ∃ e, fst run = inr (handleDeletionError e))
      ∨ (calls (snd run) = calls s ++ [mkCall t true; mkCall f false]
         ∧ ∃ e, fst run = inr (handleDeletionError e))
      ∨ (calls (snd run)
         = calls s ++ [mkCall t true; mkCall f true; mkCall d false]
         ∧ ∃ e, fst run = inr (handleDeletionError e))
      ∨ (calls (snd run)
         = calls s ++ [mkCall t true; mkCall f true; mkCall d true]
         ∧ fst run = inr (ResDeleted tag)).
Proof.
  split; [reflexivity|].
  apply (backupAndDelete_backs_up_before_deleting (safety Samples.config)
           "acme" "app" "bot/fix-1" "abc" (GitHubModel.start Samples.world)).
  reflexivity.
Defined.

(** X12. A live [backupAndDelete] resolves to Deleted only if its last
    request, the deletion of [heads/<branch>], succeeded; the tag it
    reports is the backup tag name when backups are on and empty when
    they are off, in which case the deletion is the only request. *)
Theorem live_Deleted_means_ref_deleted {W : Type} `{Host W}
    (config : SafetyConfig) (owner repo branchName sha tag : string)
    (s s' : Run W) :
  backupAndDelete config owner repo branchName sha false s
  = (inr (ResDeleted tag), s') →
  ∃ before,
    calls s'
    = calls s ++ before
      ++ [mkCall (DeleteRef owner repo ("heads/" +:+ branchName)) true]
    ∧ forallb call_ok before = true
    ∧ tag = (if create_backup_tag config
             then backup_tag_name config branchName (dayjs_now (world s))
             else EmptyString)
    ∧ (create_backup_tag config = false → before = []).
Proof.
  intros Hrun.
  destruct (create_backup_tag config) eqn:Hcfg.
  - destruct (backupAndDelete_with_backup config owner repo branchName sha s
                Hcfg) as (object & Hcases).
    cbv zeta in Hcases. rewrite Hrun in Hcases. cbn [fst snd] in Hcases.
    destruct Hcases as [(_ & e & He) | [(_ & e & He) | [(_ & e & He) |
                        (Hcalls & Htag)]]];
      try (inversion He as [Heq]; symmetry in Heq;
           exfalso; exact (handleDeletionError_not_Deleted _ _ Heq)).
    inversion Htag; subst tag.
    eexists [_; _]. split; [exact Hcalls|]. split; [reflexivity|].
    split; [reflexivity|discriminate].
  - destruct (backupAndDelete_without_backup config owner repo branchName sha
                s Hcfg) as [(_ & e & He) | (Hcalls & Htag)];
      rewrite Hrun in *; cbn [fst snd] in *.
    + inversion He as [Heq]; symmetry in Heq.
      exfalso; exact (handleDeletionError_not_Deleted _ _ Heq).
    + inversion Htag; subst tag. exists []. auto.
Qed.

Lemma live_Deleted_means_ref_deleted_witness :
  let s := GitHubModel.start Samples.world in
  let s' := snd (backupAndDelete (safety Samples.config) "acme" "app"
                   "bot/fix-1" "abc" false s) in
  backupAndDelete (safety Samples.config) "acme" "app" "bot/fix-1" "abc"
    false s
  = (inr (ResDeleted "cleanup-backup/bot-fix-1/20251110"), s')
  ∧ ∃ before,
      calls s'
      = calls s ++ before
        ++ [mkCall (DeleteRef "acme" "app" "heads/bot/fix-1") true].
Proof.
  cbv zeta.
  assert (Hrun : backupAndDelete (safety Samples.config) "acme" "app"
                   "bot/fix-1" "abc" false (GitHubModel.start Samples.world)
                 = (inr (ResDeleted "cleanup-backup/bot-fix-1/20251110"),
                    snd (backupAndDelete (safety Samples.config) "acme" "app"
                           "bot/fix-1" "abc" false
                           (GitHubModel.start Samples.world))))
    by (vm_compute; reflexivity).
  split; [exact Hrun|].
  destruct (live_Deleted_means_ref_deleted _ _ _ _ _ _ _ _ Hrun)
    as (before & Hcalls & _).
  exists before. exact Hcalls.
Defined.

(** ** Splitting at slashes *)

Module SplitFacts.
Import JsMore.

Lemma append_nil (s : string) : EmptyString +:+ s = s.
Proof. reflexivity. Qed.

Lemma append_cons (c : ascii) (a s : string) :
  String c a +:+ s = String c (a +:+ s).
Proof. reflexivity. Qed.

Lemma split_not_nil (sep : ascii) (s : string) : split sep s ≠ [].
Proof.
  destruct s as [|c s]; cbn [split]; [discriminate|].
  destruct (Ascii.eqb c sep); [discriminate|].
  destruct (split sep s); discriminate.
Qed.

Lemma last_cons_not_nil {A : Type} (x d : A) (l : list A) :
  l ≠ [] → List.last (x :: l) d = List.last l d.
Proof. destruct l; [contradiction|reflexivity]. Qed.

Lemma last_split_cons (sep c : ascii) (s : string) :
  Ascii.eqb c sep = false →
  List.last (split sep (String c s)) EmptyString
  = match split sep s with
    | [seg] => String c seg
    | _ => List.last (split sep s) EmptyString
    end.
Proof.
  intros Hc. cbn [split]. rewrite Hc.
  pose proof (split_not_nil sep s) as Hne.
  destruct (split sep s) as [|seg [|seg' rest]]; [contradiction| |];
    reflexivity.
Qed.

(** A text without the separator is its own single segment. *)
Lemma split_without_separator (s : string) :
  Js.includes s "/" = false → split "/" s = [s].
Proof.
  induction s as [|c s IH]; [reflexivity|].
  cbn [Js.includes String.prefix]. intros Hinc.
  apply orb_false_iff in Hinc as (Hhead & Htail).
  cbn [split].
  destruct (Ascii.eqb c "/") eqn:Ec.
  - apply Ascii.eqb_eq in Ec. subst c.
    destruct (ascii_dec "/" "/") as [_|Hne]; [|contradiction].
    destruct s; discriminate.
  - rewrite (IH Htail). reflexivity.
Qed.

Lemma split_after_separator_long (a d : string) :
  (2 <= length (split "/" (a +:+ String "/" d)))%nat.
Proof.
  induction a as [|c a IH];
    rewrite ?append_nil, ?append_cons; cbn [split].
  - rewrite Ascii.eqb_refl. cbn [length].
    pose proof (split_not_nil "/" d).
    destruct (split "/" d); [contradiction|cbn; lia].
  - destruct (Ascii.eqb c "/").
    + cbn [length]. lia.
    + destruct (split "/" (a +:+ String "/" d)) as [|seg rest];
        cbn [length] in *; lia.
Qed.

(** The last segment of [a/d] is [d] when [d] has no slash. *)
Lemma pop_split_after_separator (a d : string) :
  Js.includes d "/" = false →
  pop (split "/" (a +:+ String "/" d)) = d.
Proof.
  intros Hd. unfold pop.
  induction a as [|c a IH]; rewrite ?append_nil, ?append_cons.
  - cbn [split]. rewrite Ascii.eqb_refl.
    rewrite last_cons_not_nil by apply split_not_nil.
    rewrite (split_without_separator d Hd). reflexivity.
  - destruct (Ascii.eqb c "/") eqn:Ec.
    + cbn [split]. rewrite Ec.
      rewrite last_cons_not_nil by apply split_not_nil. exact IH.
    + rewrite (last_split_cons _ _ _ Ec).
      pose proof (split_after_separator_long a d) as Hlen.
      destruct (split "/" (a +:+ String "/" d)) as [|seg [|seg' rest]];
        cbn [length] in Hlen; try lia. exact IH.
Qed.

Lemma prefix_append (a b : string) : String.prefix a (a +:+ b) = true.
Proof.
  induction a as [|c a IH];
    rewrite ?append_nil, ?append_cons; cbn [String.prefix].
  - destruct b; reflexivity.
  - destruct (ascii_dec c c) as [_|Hne]; [exact IH|contradiction].
Qed.

Lemma append_assoc (a b c : string) : (a +:+ b) +:+ c = a +:+ b +:+ c.
Proof.
  induction a as [|x a IH]; rewrite ?append_nil, ?append_cons; congruence.
Qed.

End SplitFacts.

Module SegmentFacts.
Import JsMore.

Lemma after_last_slash_none (s : string) :
  occurs "/" s = false → after_last_slash s = s.
Proof.
  destruct s as [|c s]; [reflexivity|]. cbn [occurs after_last_slash].
  intros Hno. apply orb_false_iff in Hno as (Hc & Hs).
  rewrite Hs, Hc. reflexivity.
Qed.

Lemma split_no_slash (s : string) :
  occurs "/" s = false → split "/" s = [s].
Proof.
  induction s as [|c s IH]; [reflexivity|]. cbn [occurs split].
  intros Hno. apply orb_false_iff in Hno as (Hc & Hs).
  rewrite Hc, (IH Hs). reflexivity.
Qed.

Lemma split_with_slash (s : string) :
  occurs "/" s = true → (2 <= length (split "/" s))%nat.
Proof.
  induction s as [|c s IH]; [discriminate|]. cbn [occurs split].
  destruct (Ascii.eqb c "/") eqn:Ec; cbn [orb].
  - intros _. pose proof (SplitFacts.split_not_nil "/" s) as Hne.
    destruct (split "/" s); [contradiction|cbn [length]; lia].
  - intros Hs. specialize (IH Hs).
    destruct (split "/" s) as [|seg rest]; cbn [length] in *; lia.
Qed.

(** [name.split('/').pop()] is what follows the last slash. *)
Lemma pop_split (name : string) :
  pop (split "/" name) = after_last_slash name.
Proof.
  unfold pop. induction name as [|c rest IH]; [reflexivity|].
  cbn [after_last_slash].
  destruct (Ascii.eqb c "/") eqn:Ec.
  - cbn [split]. rewrite Ec.
    rewrite SplitFacts.last_cons_not_nil by apply SplitFacts.split_not_nil.
    rewrite IH. destruct (occurs "/" rest) eqn:Ho; [reflexivity|].
    apply after_last_slash_none, Ho.
  - rewrite (SplitFacts.last_split_cons _ _ _ Ec).
    destruct (occurs "/" rest) eqn:Ho.
    + pose proof (split_with_slash rest Ho) as Hlen.
      destruct (split "/" rest) as [|seg [|seg' more]];
        cbn [length] in Hlen; try lia. exact IH.
    + rewrite (split_no_slash rest Ho). reflexivity.
Qed.

End SegmentFacts.

(** ** Pruning expired backup tags *)

Section PruneFacts.

Context {W : Type} `{Host W} `{DayjsDays}.

(** The tests of the loop, in words. *)
Lemma isExpiredBackupTag_spec (config : SafetyConfig) (cutoffDate : Dayjs)
    (name : string) :
  isExpiredBackupTag config cutoffDate name
  = expired_backup_tag config cutoffDate name.
Proof.
  unfold isExpiredBackupTag, expired_backup_tag, isBeforeCutoff.
  rewrite SegmentFacts.pop_split.
  destruct (String.prefix (backup_tag_prefix config) name);
    cbn [negb andb]; [|reflexivity].
  destruct (after_last_slash name) as [|c seg] eqn:Eseg;
    [reflexivity|].
  unfold Js.truthy. cbn [String.eqb negb orb].
  destruct (String.length (String c seg) =? 8)%nat; reflexivity.
Qed.

Lemma expiredTags_cons (config : SafetyConfig) (cutoffDate : Dayjs)
    (name : string) (rest : list string) :
  expiredTags config cutoffDate (name :: rest)
  = if expired_backup_tag config cutoffDate name
    then name :: expiredTags config cutoffDate rest
    else expiredTags config cutoffDate rest.
Proof. reflexivity. Qed.

Lemma expiredCount_cons (config : SafetyConfig) (cutoffDate : Dayjs)
    (name : string) (rest : list string) :
  expiredCount config cutoffDate (name :: rest)
  = (if expired_backup_tag config cutoffDate name then 1 else 0)
    + expiredCount config cutoffDate rest.
Proof.
  unfold expiredCount. rewrite expiredTags_cons.
  destruct (expired_backup_tag config cutoffDate name); cbn [length]; lia.
Qed.

Lemma pruneTags_dry (config : SafetyConfig) (owner repo : string)
    (cutoffDate : Dayjs) (tags : list string) :
  ∀ prunedCount s,
    pruneTags config owner repo true cutoffDate tags prunedCount s
    = (prunedCount + expiredCount config cutoffDate tags, s).
Proof.
  induction tags as [|name rest IH]; intros n s; cbn [pruneTags].
  - unfold expiredCount. cbn. f_equal. lia.
  - rewrite expiredCount_cons, isExpiredBackupTag_spec.
    destruct (expired_backup_tag config cutoffDate name); rewrite IH;
      f_equal; lia.
Qed.

(** The live loop: it requests the deletion of the expired backup
    tags, in the order listed, counts the deletions that succeeded and
    stops at the first one that is refused. *)
Lemma pruneTags_live (config : SafetyConfig) (owner repo : string)
    (cutoffDate : Dayjs) (tags : list string) :
  ∀ prunedCount s,
    ∃ n : nat,
      let run := pruneTags config owner repo false cutoffDate tags
                   prunedCount s in
      let expired := expiredTags config cutoffDate tags in
      records (snd run) = records s
      ∧ fst run = prunedCount + Z.of_nat n
      ∧ ((n = length expired
          ∧ calls (snd run)
            = calls s
              ++ map (fun name => tagDeletion owner repo name true) expired)
         ∨ (∃ name,
              expired !! n = Some name
              ∧ calls (snd run)
                = calls s
                  ++ map (fun name => tagDeletion owner repo name true)
                       (take n expired)
                  ++ [tagDeletion owner repo name false])).
Proof.
  induction tags as [|name rest IH]; intros k s; cbn [pruneTags].
  - exists 0%nat. cbv zeta. cbn [fst snd].
    split; [reflexivity|]. split; [lia|]. left.
    split; [reflexivity|]. cbn. rewrite app_nil_r. reflexivity.
  - cbv zeta. rewrite expiredTags_cons, isExpiredBackupTag_spec.
    destruct (expired_backup_tag config cutoffDate name) eqn:Eexp.
    + destruct (request (DeleteRef owner repo ("tags/" +:+ name)) s)
        as [[e|u] s1] eqn:Ereq.
      * pose proof (request_calls (DeleteRef owner repo ("tags/" +:+ name))
                      s s1 (inl e) Ereq) as C. cbn [is_ok] in C.
        assert (R : records s1 = records s)
          by (apply (keeps_request _ _ _ _ Ereq)).
        exists 0%nat. cbn [fst snd].
        split; [exact R|]. split; [lia|]. right. exists name.
        split; [reflexivity|]. exact C.
      * pose proof (request_calls (DeleteRef owner repo ("tags/" +:+ name))
                      s s1 (inr u) Ereq) as C. cbn [is_ok] in C.
        assert (R : records s1 = records s)
          by (apply (keeps_request _ _ _ _ Ereq)).
        destruct (IH (k + 1) s1) as (n & Hrec & Hn & Hcase).
        cbv zeta in Hrec, Hn, Hcase.
        exists (S n). split; [congruence|]. split; [lia|].
        destruct Hcase as [(Hlen & Hc) | (failed & Hat & Hc)].
        -- left. split; [cbn [length]; congruence|].
           rewrite Hc, C, <- app_assoc. reflexivity.
        -- right. exists failed. split; [exact Hat|].
           rewrite Hc, C, <- app_assoc. reflexivity.
    + destruct (IH k s) as (n & Hrec & Hn & Hcase).
      exists n. cbv zeta in *. auto.
Qed.

End PruneFacts.

(** X13. In a dry run [pruneExpiredBackupTags] requests the tag listing
    and nothing else: that one read is all it adds to the call log, the
    records are untouched, and it returns the number of listed tags
    that are expired backup tags, or 0 when the listing fails. *)
Theorem prune_dry_run_counts_without_deleting {W : Type} `{Host W}
    `{DayjsDays} (config : SafetyConfig) (owner repo : string) (s : Run W) :
  let run := pruneExpiredBackupTags config owner repo true s in
  let answer := octokit_request (GetTags owner repo) (world s) in
  let cutoffDate :=
    dayjs_subtract_days (dayjs_now (world s)) (backup_ttl_days config) in
  calls (snd run)
  = calls s ++ [mkCall (GetTags owner repo) (is_ok (fst answer))]
  ∧ records (snd run) = records s
  ∧ world (snd run) = snd answer
  ∧ fst run = match fst answer with
              | inr tags => expiredCount config cutoffDate tags
              | inl _ => 0
              end.
Proof.
  cbv zeta. unfold pruneExpiredBackupTags. rewrite request_run.
  destruct (octokit_request (GetTags owner repo) (world s)) as [[e|tags] w'];
    cbn [fst snd is_ok].
  - auto.
  - rewrite pruneTags_dry. cbn [fst snd calls records world]. auto.
Qed.

(** X14. A live [pruneExpiredBackupTags] never rejects.  After the tag
    listing it requests the deletion of [tags/<name>] for the listed
    names that are expired backup tags, in the order listed, and
    nothing else.  It returns the number of deletions that succeeded:
    all the expired ones, or, when a deletion is refused, those before
    it, after which no further request is made.  A failed listing gives
    0 and no further request. *)
Theorem prune_live_deletes_expired_tags_only {W : Type} `{Host W}
    `{DayjsDays} (config : SafetyConfig) (owner repo : string) (s : Run W) :
  let run := pruneExpiredBackupTags config owner repo false s in
  let answer := octokit_request (GetTags owner repo) (world s) in
  let cutoffDate :=
    dayjs_subtract_days (dayjs_now (world s)) (backup_ttl_days config) in
  records (snd run) = records s
  ∧ match fst answer with
    | inl _ =>
        fst run = 0
        ∧ calls (snd run) = calls s ++ [mkCall (GetTags owner repo) false]
    | inr tags =>
        let expired := expiredTags config cutoffDate tags in
        let listing := mkCall (GetTags owner repo) true in
        let deleted :=
          map (fun name => tagDeletion owner repo name true) in
        (fst run = expiredCount config cutoffDate tags
         ∧ calls (snd run) = calls s ++ listing :: deleted expired)
        ∨ (∃ n name,
             expired !! n = Some name
             ∧ fst run = Z.of_nat n
             ∧ calls (snd run)
               = calls s ++ listing :: deleted (take n expired)
                 ++ [tagDeletion owner repo name false])
    end.
Proof.
  cbv zeta. unfold pruneExpiredBackupTags. rewrite request_run.
  destruct (octokit_request (GetTags owner repo) (world s)) as [[e|tags] w'];
    cbn [fst snd is_ok].
  - auto.
  - match goal with
    | |- context [pruneTags config owner repo false ?c tags 0 ?t] =>
        destruct (pruneTags_live config owner repo c tags 0 t)
          as (n & Hrec & Hn & Hcase)
    end.
    cbv zeta in Hrec, Hn, Hcase. cbn [calls records] in Hrec, Hcase.
    split; [exact Hrec|].
    destruct Hcase as [(Hlen & Hc) | (name & Hat & Hc)].
    + left. split; [unfold expiredCount; lia|].
      rewrite Hc, <- app_assoc. reflexivity.
    + right. exists n, name. split; [exact Hat|]. split; [lia|].
      rewrite Hc, <- app_assoc. reflexivity.
Qed.

(** X15. From the same state, the live prune count is never negative
    and never exceeds the dry-run count; the two agree unless the live
    run ended at a deletion of an expired backup tag that the host
    refused, in which case the live count is the number of expired
    backup tags listed before that one. *)
Theorem prune_dry_run_bounds_live_run {W : Type} `{Host W} `{DayjsDays}
    (config : SafetyConfig) (owner repo : string) (s : Run W) :
  let live := pruneExpiredBackupTags config owner repo false s in
  let dry := pruneExpiredBackupTags config owner repo true s in
  let cutoffDate :=
    dayjs_subtract_days (dayjs_now (world s)) (backup_ttl_days config) in
  0 ≤ fst live ≤ fst dry
  ∧ (fst live = fst dry
     ∨ ∃ tags n name,
         fst (octokit_request (GetTags owner repo) (world s)) = inr tags
         ∧ expiredTags config cutoffDate tags !! n = Some name
         ∧ fst live = Z.of_nat n
         ∧ fst live < fst dry
         ∧ calls (snd live)
           = calls s ++ mkCall (GetTags owner repo) true
               :: map (fun name => tagDeletion owner repo name true)
                    (take n (expiredTags config cutoffDate tags))
               ++ [tagDeletion owner repo name false]).
Proof.
  cbv zeta. unfold pruneExpiredBackupTags. rewrite request_run.
  destruct (octokit_request (GetTags owner repo) (world s)) as [[e|tags] w'];
    cbn [fst snd is_ok].
  - split; [lia|auto].
  - rewrite pruneTags_dry. cbn [fst].
    match goal with
    | |- context [pruneTags config owner repo false ?c tags 0 ?t] =>
        destruct (pruneTags_live config owner repo c tags 0 t)
          as (n & _ & Hn & Hcase)
    end.
    cbv zeta in Hn, Hcase.
    destruct Hcase as [(Hlen & Hc) | (name & Hat & Hc)].
    + unfold expiredCount. split; [lia|]. left. lia.
    + pose proof (lookup_lt_Some _ _ _ Hat) as Hlt.
      unfold expiredCount. split; [lia|]. right. exists tags, n, name.
      split; [reflexivity|]. split; [exact Hat|]. split; [lia|].
      split; [lia|]. cbn [calls] in Hc. rewrite Hc, <- app_assoc.
      reflexivity.
Qed.

(** The prune of the sample tags: two of the five are expired backup
    tags.  Where the host refuses to delete the second of them, the
    live run deletes one and stops. *)
Example prune_of_the_sample_tags :
  let prune host dryRun :=
    @pruneExpiredBackupTags GitHubModel.World host MoreSamples.day_host
      (safety Samples.config) "acme" "app" dryRun
      (GitHubModel.start MoreSamples.tagged_world) in
  fst (prune MoreSamples.compact_host true) = 2
  ∧ fst (prune MoreSamples.compact_host false) = 2
  ∧ fst (prune MoreSamples.guarded_tag_host false) = 1
  ∧ map (fun c => (call_request c, call_ok c))
      (calls (snd (prune MoreSamples.compact_host true)))
    = [(GetTags "acme" "app", true)]
  ∧ map (fun c => (call_request c, call_ok c))
      (calls (snd (prune MoreSamples.guarded_tag_host false)))
    = [(GetTags "acme" "app", true);
       (DeleteRef "acme" "app" "tags/cleanup-backup/bot-a/20250901", true);
       (DeleteRef "acme" "app" "tags/cleanup-backup/bot-c/20250915", false)].
Proof. vm_compute. auto. Qed.

(** ** The tags the tool creates are the tags it prunes *)

(** X16. A backup tag named by [getBackupTagName] is recognised by the
    prune pass of the same configuration: when the formatted day has
    eight characters and no slash, the tag is expired exactly when that
    day, read back from the last segment of the name, parses to an
    instant before the cutoff. *)
Theorem backup_tag_is_recognised_by_prune {W : Type} `{Host W}
    (config : SafetyConfig) (branchName : string) (day cutoffDate : Dayjs) :
  String.length (format_YYYYMMDD day) = 8%nat →
  Js.includes (format_YYYYMMDD day) "/" = false →
  isExpiredBackupTag config cutoffDate (backup_tag_name config branchName day)
  = isBeforeCutoff (format_YYYYMMDD day) cutoffDate.
Proof.
  intros Hlen Hslash. unfold isExpiredBackupTag, backup_tag_name.
  rewrite SplitFacts.prefix_append. cbn [negb].
  assert (Hpop : JsMore.pop
                   (JsMore.split "/"
                      (backup_tag_prefix config +:+ "/"
                       +:+ slashes_as_dashes branchName +:+ "/"
                       +:+ format_YYYYMMDD day))
                 = format_YYYYMMDD day).
  { change ("/" +:+ format_YYYYMMDD day)
      with (String "/" (format_YYYYMMDD day)).
    rewrite <- !SplitFacts.append_assoc.
    apply SplitFacts.pop_split_after_separator, Hslash. }
  rewrite Hpop, Hlen. unfold Js.truthy.
  destruct (String.eqb_spec (format_YYYYMMDD day) EmptyString) as [He|_].
  - rewrite He in Hlen. discriminate.
  - reflexivity.
Qed.

Lemma backup_tag_is_recognised_by_prune_witness :
  let day := GitHubModel.utc 2025 9 1 12 0 0 "2025-09-01T12:00:00.000Z" in
  let cutoffDate :=
    GitHubModel.utc 2025 10 11 3 17 42 "2025-10-11T03:17:42.000Z" in
  String.length (format_YYYYMMDD day) = 8%nat
  ∧ Js.includes (format_YYYYMMDD day) "/" = false
  ∧ @isExpiredBackupTag GitHubModel.World MoreSamples.compact_host
      (safety Samples.config) cutoffDate
      (backup_tag_name (safety Samples.config) "bot/a" day)
    = @isBeforeCutoff GitHubModel.World MoreSamples.compact_host
        (format_YYYYMMDD day) cutoffDate
  ∧ @isExpiredBackupTag GitHubModel.World MoreSamples.compact_host
      (safety Samples.config) cutoffDate
      (backup_tag_name (safety Samples.config) "bot/a" day) = true.
Proof.
  cbv zeta. split; [reflexivity|]. split; [reflexivity|].
  split; [|vm_compute; reflexivity].
  apply (@backup_tag_is_recognised_by_prune GitHubModel.World
           MoreSamples.compact_host (safety Samples.config) "bot/a");
    reflexivity.
Defined.

(** ** Repositories the token cannot push to *)

(** X17. A repository whose permission lookup fails, or answers without
    push rights, is left after that single request: [processRepo]
    resolves, nothing is recorded, no branch is looked at, and no issue
    is opened. *)
Theorem processRepo_without_push_is_skipped {W : Type} `{Host W}
    (config : Config) (dryRun : bool) (owner repo : string) (s : Run W) :
  grantsPush (fst (octokit_request (GetRepo owner repo) (world s))) = false →
  processRepo config dryRun owner repo s
  = (inr tt,
     {| world := snd (octokit_request (GetRepo owner repo) (world s));
        calls := calls s
                 ++ [mkCall (GetRepo owner repo)
                       (is_ok (fst (octokit_request (GetRepo owner repo)
                                      (world s))))];
        issueCache := issueCache s;
        records := records s |}).
Proof.
  intros Hpush.
  unfold processRepo, processRepo_try, checkPermissions, try_catch, bind.
  rewrite request_run.
  destruct (octokit_request (GetRepo owner repo) (world s)) as [[e|data] w'];
    cbn [fst snd is_ok grantsPush] in *.
  - reflexivity.
  - unfold ret. cbn [canDelete].
    destruct (permissions data) as [[push admin]|]; [subst push|];
      reflexivity.
Qed.

Lemma processRepo_without_push_is_skipped_witness :
  let s := GitHubModel.start MoreSamples.readonly_world in
  grantsPush (fst (octokit_request (GetRepo "acme" "app") (world s))) = false
  ∧ processRepo Samples.config false "acme" "app" s
    = (inr tt,
       {| world := snd (octokit_request (GetRepo "acme" "app") (world s));
          calls := calls s
                   ++ [mkCall (GetRepo "acme" "app")
                         (is_ok (fst (octokit_request (GetRepo "acme" "app")
                                        (world s))))];
          issueCache := issueCache s;
          records := records s |}).
Proof.
  cbv zeta. split; [reflexivity|].
  apply (processRepo_without_push_is_skipped Samples.config false
           "acme" "app" (GitHubModel.start MoreSamples.readonly_world)).
  reflexivity.
Defined.

(** ** Escalation by issue *)

Section EscalationFacts.

Context {W : Type} `{Host W}.

Lemma noIssue_count (l : list Call) :
  forallb noIssue l = true → issueCreations l = 0%nat.
Proof.
  unfold issueCreations. induction l as [|c l IH]; [reflexivity|].
  cbn [forallb List.filter]. intros Hc.
  apply andb_true_iff in Hc as (Hc & Hl). unfold noIssue in Hc.
  destruct (isIssueCreation c); [discriminate|]. auto.
Qed.

Lemma issueCreations_app (l1 l2 : list Call) :
  issueCreations (l1 ++ l2)
  = (issueCreations l1 + issueCreations l2)%nat.
Proof.
  unfold issueCreations. rewrite List.filter_app, length_app. reflexivity.
Qed.

Lemma noIssue_processBranch (config : Config) (dryRun : bool)
    (owner repo defaultBranch : string) (candidate : BranchCandidate) :
  logs_only noIssue
    (processBranch config dryRun owner repo defaultBranch candidate).
Proof.
  unfold processBranch, reachAndDelete, checkBranch, isBranchReachable,
    compareCommits, backupAndDelete, backupAndDelete_try, createBackupTag,
    getBackupTagName, deleteBranch.
  logs.
Qed.

Lemma noIssue_processCandidates (config : Config) (dryRun : bool)
    (owner repo defaultBranch : string) (candidates : list BranchCandidate) :
  ∀ blockedCount,
    logs_only noIssue
      (processCandidates config dryRun owner repo defaultBranch candidates
         blockedCount).
Proof.
  induction candidates as [|c rest IH]; intros b;
    cbn [processCandidates]; [apply logs_ret|].
  apply logs_bind; [apply logs_delay|intros _].
  apply logs_bind; [apply noIssue_processBranch|intros result].
  apply logs_bind; [apply logs_addRecord|intros _]. apply IH.
Qed.

Lemma blockedRecords_cons (r : CleanupRecord) (l : list CleanupRecord) :
  blockedRecords (r :: l)
  = (if isBlocked (actionTaken r) then 1 else 0) + blockedRecords l.
Proof.
  unfold blockedRecords. cbn [List.filter].
  destruct (isBlocked (actionTaken r)); cbn [length]; lia.
Qed.

(** The counter of a completed loop is the number of blocked records
    the loop appended. *)
Lemma processCandidates_blocked (config : Config) (dryRun : bool)
    (owner repo defaultBranch : string) (candidates : list BranchCandidate) :
  ∀ blockedCount s blocked s',
    processCandidates config dryRun owner repo defaultBranch candidates
      blockedCount s = (inr blocked, s') →
    ∃ done,
      records s' = records s ++ done
      ∧ blocked = blockedCount + blockedRecords done.
Proof.
  induction candidates as [|c rest IH]; intros b s b' s' Hl.
  - inversion Hl; subst. exists []. rewrite app_nil_r.
    split; [reflexivity|]. unfold blockedRecords. cbn. lia.
  - rewrite processCandidates_cons in Hl.
    destruct (processBranch config dryRun owner repo defaultBranch c
                (snd (delay (per_repo_delay_ms config) s)))
      as [[e|result] s1] eqn:Hp; [discriminate|].
    apply IH in Hl as (done & Hrec & Hb).
    exists (result :: done). split.
    + rewrite Hrec. cbn [addRecord snd records].
      rewrite (keeps_processBranch _ _ _ _ _ _ _ _ _ Hp).
      cbn [delay snd records]. rewrite <- app_assoc. reflexivity.
    + rewrite blockedRecords_cons, Hb.
      destruct (isBlocked (actionTaken result)); lia.
Qed.

(** [enableAutoDelete] answers [false] only after a refused update of
    a live run. *)
Lemma enableAutoDelete_false (owner repo : string) (dryRun : bool)
    (s s' : Run W) :
  enableAutoDelete owner repo dryRun s = (inr false, s') →
  dryRun = false
  ∧ calls s' = calls s ++ [mkCall (PatchRepo owner repo) false].
Proof.
  unfold enableAutoDelete. destruct dryRun; [discriminate|].
  unfold try_catch, bind. rewrite request_run.
  destruct (octokit_request (PatchRepo owner repo) (world s))
    as [[e|u] w']; cbn [fst snd is_ok].
  - destruct (status_is e 403); [|discriminate].
    intros Hr. inversion Hr; subst. auto.
  - discriminate.
Qed.

Lemma noIssue_enableAutoDelete (owner repo : string) (dryRun : bool) :
  logs_only noIssue (enableAutoDelete owner repo dryRun).
Proof. unfold enableAutoDelete. logs. Qed.

Lemma noIssue_checkPermissions (owner repo : string) :
  logs_only noIssue (checkPermissions owner repo).
Proof. unfold checkPermissions. logs. Qed.

Lemma noIssue_getDefaultBranch (owner repo : string) :
  logs_only noIssue (getDefaultBranch owner repo).
Proof. unfold getDefaultBranch. logs. Qed.

Lemma noIssue_findCandidates (config : Config)
    (owner repo defaultBranch : string) :
  logs_only noIssue (findCandidates config owner repo defaultBranch).
Proof. unfold findCandidates, getMergedPRs. logs. Qed.

Lemma anything_createPermissionIssue (owner repo : string) (n : Z)
    (dryRun : bool) :
  logs_only (fun _ => true) (createPermissionIssue owner repo n dryRun).
Proof. unfold createPermissionIssue. logs. Qed.

Lemma forallb_noIssue_app (l1 l2 : list Call) :
  forallb noIssue l1 = true → forallb noIssue l2 = true →
  forallb noIssue (l1 ++ l2) = true.
Proof. intros H1 H2. rewrite forallb_app, H1, H2. reflexivity. Qed.

(** What the [try] block of [processRepo] adds to the log and to the
    records, with respect to escalation. *)
Lemma processRepo_try_escalation (config : Config) (dryRun : bool)
    (owner repo : string) (s s' : Run W) (r : Result unit) :
  processRepo_try config dryRun owner repo s = (r, s') →
  ∃ new done,
    calls s' = calls s ++ new
    ∧ records s' = records s ++ done
    ∧ (issueCreations new = 0%nat
       ∨ issueCreations new = 1%nat
         ∧ dryRun = false
         ∧ 0 < blockedRecords done
         ∧ mkCall (PatchRepo owner repo) false ∈ new).
Proof.
  unfold processRepo_try. intros Ht.
  assert (Hquiet : ∀ (t : Run W) new,
            calls t = calls s ++ new → forallb noIssue new = true →
            records t = records s →
            ∃ new done,
              calls t = calls s ++ new ∧ records t = records s ++ done
              ∧ (issueCreations new = 0%nat
                 ∨ issueCreations new = 1%nat
                   ∧ dryRun = false
                   ∧ 0 < blockedRecords done
                   ∧ mkCall (PatchRepo owner repo) false ∈ new)).
  { intros t new Hc Hn Hr. exists new, []. rewrite app_nil_r.
    repeat split; auto. left. apply noIssue_count, Hn. }
  apply bind_inv in Ht as [(e1 & Hperm & _) | (perms & s1 & Hperm & Ht)].
  { destruct (noIssue_checkPermissions _ _ _ _ _ Hperm) as (n1 & C1 & F1).
    apply (Hquiet _ n1 C1 F1 (keeps_checkPermissions _ _ _ _ _ Hperm)). }
  destruct (noIssue_checkPermissions _ _ _ _ _ Hperm) as (n1 & C1 & F1).
  pose proof (keeps_checkPermissions _ _ _ _ _ Hperm) as R1.
  destruct (canDelete perms); cbn [negb] in Ht.
  2:{ inversion Ht; subst. apply (Hquiet _ n1 C1 F1 R1). }
  apply bind_inv in Ht as [(e1 & Hd & _) | (d & s2 & Hd & Ht)].
  { destruct (noIssue_getDefaultBranch _ _ _ _ _ Hd) as (n2 & C2 & F2).
    apply (Hquiet _ (n1 ++ n2)).
    - rewrite C2, C1, app_assoc. reflexivity.
    - apply forallb_noIssue_app; assumption.
    - rewrite (keeps_getDefaultBranch _ _ _ _ _ Hd). exact R1. }
  destruct (noIssue_getDefaultBranch _ _ _ _ _ Hd) as (n2 & C2 & F2).
  pose proof (keeps_getDefaultBranch _ _ _ _ _ Hd) as R2.
  apply bind_inv in Ht as [(e1 & Hf & _) | (cands & s3 & Hf & Ht)].
  { destruct (noIssue_findCandidates _ _ _ _ _ _ _ Hf) as (n3 & C3 & F3).
    apply (Hquiet _ (n1 ++ n2 ++ n3)).
    - rewrite C3, C2, C1, !app_assoc. reflexivity.
    - repeat apply forallb_noIssue_app; assumption.
    - rewrite (keeps_findCandidates _ _ _ _ _ _ _ Hf). congruence. }
  destruct (noIssue_findCandidates _ _ _ _ _ _ _ Hf) as (n3 & C3 & F3).
  pose proof (keeps_findCandidates _ _ _ _ _ _ _ Hf) as R3.
  assert (C123 : calls s3 = calls s ++ n1 ++ n2 ++ n3)
    by (rewrite C3, C2, C1, !app_assoc; reflexivity).
  assert (F123 : forallb noIssue (n1 ++ n2 ++ n3) = true)
    by (repeat apply forallb_noIssue_app; assumption).
  assert (R123 : records s3 = records s) by congruence.
  destruct (length cands =? 0)%nat.
  { inversion Ht; subst. apply (Hquiet _ _ C123 F123 R123). }
  destruct (processCandidates config dryRun owner repo d cands 0 s3)
    as [[e1|blocked] s4] eqn:Hl.
  { apply bind_inv in Ht as [(e2 & Hl' & _) | (b & s4' & Hl' & _)];
      [|rewrite Hl in Hl'; discriminate].
    rewrite Hl in Hl'. inversion Hl'; subst.
    destruct (noIssue_processCandidates _ _ _ _ _ _ _ _ _ _ Hl)
      as (n4 & C4 & F4).
    apply processCandidates_interrupted in Hl
      as (pre & c & post & done & t & _ & Hrec & _ & _).
    exists ((n1 ++ n2 ++ n3) ++ n4), done.
    split; [rewrite C4, C123, !app_assoc; reflexivity|].
    split; [rewrite Hrec, R123; reflexivity|].
    left. apply noIssue_count, forallb_noIssue_app; assumption. }
  apply bind_inv in Ht as [(e2 & Hl' & _) | (b & s4' & Hl' & Ht)];
    [rewrite Hl in Hl'; discriminate|].
  rewrite Hl in Hl'. inversion Hl'; subst b s4'. clear Hl'.
  destruct (noIssue_processCandidates _ _ _ _ _ _ _ _ _ _ Hl)
    as (n4 & C4 & F4).
  apply processCandidates_blocked in Hl as (done & Hrec & Hb).
  assert (C1234 : calls s4 = calls s ++ (n1 ++ n2 ++ n3) ++ n4)
    by (rewrite C4, C123, !app_assoc; reflexivity).
  assert (F1234 : forallb noIssue ((n1 ++ n2 ++ n3) ++ n4) = true)
    by (apply forallb_noIssue_app; assumption).
  assert (R1234 : records s4 = records s ++ done)
    by (rewrite Hrec, R123; reflexivity).
  assert (Hquiet' : ∀ (t : Run W) n5,
            calls t = calls s4 ++ n5 → forallb noIssue n5 = true →
            records t = records s4 →
            ∃ new done,
              calls t = calls s ++ new ∧ records t = records s ++ done
              ∧ (issueCreations new = 0%nat
                 ∨ issueCreations new = 1%nat
                   ∧ dryRun = false
                   ∧ 0 < blockedRecords done
                   ∧ mkCall (PatchRepo owner repo) false ∈ new)).
  { intros t n5 Hc Hn Hr. exists (((n1 ++ n2 ++ n3) ++ n4) ++ n5), done.
    split; [rewrite Hc, C1234, !app_assoc; reflexivity|].
    split; [congruence|].
    left. apply noIssue_count, forallb_noIssue_app; assumption. }
  destruct (autoDeleteEnabled perms); cbn [negb] in Ht.
  { inversion Ht; subst. apply (Hquiet' _ []); auto.
    rewrite app_nil_r. reflexivity. }
  apply bind_inv in Ht as [(e2 & Hen & _) | (enabled & s5 & Hen & Ht)].
  { destruct (noIssue_enableAutoDelete _ _ _ _ _ _ Hen) as (n5 & C5 & F5).
    apply (Hquiet' _ n5 C5 F5 (keeps_enableAutoDelete _ _ _ _ _ _ Hen)). }
  destruct (noIssue_enableAutoDelete _ _ _ _ _ _ Hen) as (n5 & C5 & F5).
  pose proof (keeps_enableAutoDelete _ _ _ _ _ _ Hen) as R5.
  destruct enabled; cbn [negb andb] in Ht.
  { inversion Ht; subst. apply (Hquiet' _ n5 C5 F5 R5). }
  destruct (0 <? blocked) eqn:Hpos.
  2:{ inversion Ht; subst. apply (Hquiet' _ n5 C5 F5 R5). }
  apply Z.ltb_lt in Hpos.
  apply enableAutoDelete_false in Hen as (Hdry & Hpatch).
  destruct (anything_createPermissionIssue _ _ _ _ _ _ _ Ht)
    as (n6 & C6 & _).
  destruct (createPermissionIssue_effect owner repo blocked dryRun s5)
    as (s6 & Hrun & (Hlo & Hhi) & _).
  rewrite Hrun in Ht. inversion Ht; subst r s6. clear Ht.
  pose proof (keeps_createPermissionIssue _ _ _ _ _ _ _ Hrun) as R6.
  exists ((((n1 ++ n2 ++ n3) ++ n4) ++ n5) ++ n6), done.
  split; [rewrite C6, C5, C1234, !app_assoc; reflexivity|].
  split; [congruence|].
  rewrite C6, issueCreations_app in Hlo, Hhi.
  assert (H0 : issueCreations (((n1 ++ n2 ++ n3) ++ n4) ++ n5) = 0%nat)
    by (apply noIssue_count, forallb_noIssue_app; assumption).
  rewrite issueCreations_app, H0.
  destruct (issueCreations n6) as [|[|k]] eqn:E6; [left; lia| |lia].
  right. split; [lia|]. split; [exact Hdry|]. split; [lia|].
  rewrite C5 in Hpatch.
  apply app_inv_head in Hpatch. subst n5.
  rewrite !elem_of_app. left. right. apply list_elem_of_singleton.
  reflexivity.
Qed.

End EscalationFacts.

(** X18. One pass over a repository creates at most one issue, and only
    in a live run in which the update of the auto-delete setting was
    refused and at least one record of the pass is blocked
    (ProtectedRuleBlocked or TokenInsufficient). *)
Theorem escalation_needs_a_blocked_branch {W : Type} `{Host W}
    (config : Config) (dryRun : bool) (owner repo : string) (s : Run W) :
  ∃ new done,
    calls (snd (processRepo config dryRun owner repo s)) = calls s ++ new
    ∧ records (snd (processRepo config dryRun owner repo s))
      = records s ++ done
    ∧ (issueCreations new = 0%nat
       ∨ issueCreations new = 1%nat
         ∧ dryRun = false
         ∧ 0 < blockedRecords done
         ∧ mkCall (PatchRepo owner repo) false ∈ new).
Proof.
  unfold processRepo, try_catch.
  destruct (processRepo_try config dryRun owner repo s) as [[e|u] s'] eqn:Ht;
    cbn [snd ret]; apply (processRepo_try_escalation _ _ _ _ _ _ _ Ht).
Qed.

(** On the locked host the three candidates of acme/app are blocked, the
    setting update is refused, and the pass opens its one issue. *)
Example escalation_on_the_locked_host :
  let s' :=
    snd (@processRepo GitHubModel.World MoreSamples.locked_host
           Samples.config false "acme" "app"
           (GitHubModel.start Samples.world)) in
  map actionTaken (records s')
  = [ProtectedRuleBlocked; ProtectedRuleBlocked; ProtectedRuleBlocked]
  ∧ issueCreations (calls s') = 1%nat
  ∧ mkCall (PatchRepo "acme" "app") false ∈ calls s'.
Proof.
  cbv zeta. split; [vm_compute; reflexivity|].
  split; [vm_compute; reflexivity|].
  apply list_elem_of_In. vm_compute. tauto.
Qed.

(** ** The scope of a repository pass *)

Section ScopeFacts.

Context {W : Type} `{Host W}.

Variable config : Config.
Variables owner repo : string.

Lemma scope_reads (names : list string) (r : Request) :
  match r with
  | DeleteRef _ _ _ | PostRef _ _ _ _ => False
  | _ => True
  end →
  logs_only (withinScope config owner repo names) (request r).
Proof.
  intros Hr. apply logs_request; destruct r; try contradiction; reflexivity.
Qed.

Lemma scope_deleteBranch (names : list string) (b : string) :
  b ∈ names →
  logs_only (withinScope config owner repo names)
    (deleteBranch owner repo b).
Proof.
  intros Hin. unfold deleteBranch.
  assert (Hok : ∀ ok,
            withinScope config owner repo names
              (mkCall (DeleteRef owner repo ("heads/" +:+ b)) ok) = true).
  { intros ok. unfold withinScope. cbn [call_request].
    rewrite !String.eqb_refl. cbn [andb].
    apply existsb_exists. exists b. split.
    - apply list_elem_of_In, Hin.
    - apply String.eqb_refl. }
  exact (logs_request _ (DeleteRef owner repo ("heads/" +:+ b))
           (Hok true) (Hok false)).
Qed.

Lemma backup_ref_in_scope (b : string) (now : Dayjs) :
  String.prefix (backup_ref_prefix config)
    ("refs/tags/" +:+ backup_tag_name (safety config) b now) = true.
Proof.
  unfold backup_ref_prefix, backup_tag_name.
  replace ("refs/tags/" +:+ backup_tag_prefix (safety config) +:+ "/"
           +:+ slashes_as_dashes b +:+ "/" +:+ format_YYYYMMDD now)
    with (("refs/tags/" +:+ backup_tag_prefix (safety config) +:+ "/")
          +:+ slashes_as_dashes b +:+ "/" +:+ format_YYYYMMDD now).
  - apply SplitFacts.prefix_append.
  - rewrite !SplitFacts.append_assoc. reflexivity.
Qed.

Lemma scope_createBackupTag (names : list string) (b sha : string) :
  logs_only (withinScope config owner repo names)
    (createBackupTag (safety config) owner repo b sha).
Proof.
  intros s r s' Hr. rewrite createBackupTag_steps in Hr.
  revert Hr. apply logs_bind.
  - apply scope_reads. exact I.
  - intros tagObject. apply logs_bind; [|intros _; apply logs_ret].
    assert (Hok : ∀ ok,
              withinScope config owner repo names
                (mkCall (PostRef owner repo
                           ("refs/tags/"
                            +:+ backup_tag_name (safety config) b
                                  (dayjs_now (world s)))
                           tagObject) ok) = true).
    { intros ok. unfold withinScope. cbn [call_request].
      rewrite !String.eqb_refl. cbn [andb]. apply backup_ref_in_scope. }
    exact (logs_request _ (PostRef owner repo _ tagObject)
             (Hok true) (Hok false)).
Qed.

Lemma scope_backupAndDelete (names : list string) (b sha : string)
    (dryRun : bool) :
  b ∈ names →
  logs_only (withinScope config owner repo names)
    (backupAndDelete (safety config) owner repo b sha dryRun).
Proof.
  intros Hin. unfold backupAndDelete, backupAndDelete_try.
  apply logs_try_catch; [|intros e; apply logs_ret].
  destruct (create_backup_tag (safety config)); cbn [andb negb];
    destruct dryRun; cbn [negb];
    repeat first
      [ apply scope_createBackupTag
      | apply (scope_deleteBranch _ _ Hin)
      | apply logs_ret
      | apply logs_bind; [|intros ?]
      | unfold getBackupTagName; progress logs ].
Qed.

Lemma scope_processBranch (names : list string) (dryRun : bool)
    (defaultBranch : string) (candidate : BranchCandidate) :
  branchName candidate ∈ names →
  logs_only (withinScope config owner repo names)
    (processBranch config dryRun owner repo defaultBranch candidate).
Proof.
  intros Hin. unfold processBranch, reachAndDelete.
  apply logs_bind; [unfold checkBranch; logs|intros info].
  destruct (negb (bi_exists info)); [apply logs_ret|].
  destruct (bi_protected info); [apply logs_ret|].
  apply logs_bind; [apply logs_dayjs|intros now].
  destruct (tooRecent config now candidate); [apply logs_ret|].
  apply logs_bind;
    [unfold isBranchReachable, compareCommits; logs|intros reach].
  destruct (negb reach); [apply logs_ret|].
  apply logs_bind; [apply (scope_backupAndDelete _ _ _ _ Hin)|intros res].
  apply logs_ret.
Qed.

Lemma scope_processCandidates (names : list string) (dryRun : bool)
    (defaultBranch : string) (candidates : list BranchCandidate) :
  (∀ c, c ∈ candidates → branchName c ∈ names) →
  ∀ blockedCount,
    logs_only (withinScope config owner repo names)
      (processCandidates config dryRun owner repo defaultBranch candidates
         blockedCount).
Proof.
  induction candidates as [|c rest IH]; intros Hin b;
    cbn [processCandidates]; [apply logs_ret|].
  apply logs_bind; [apply logs_delay|intros _].
  apply logs_bind;
    [apply scope_processBranch, Hin, elem_of_cons; auto|intros result].
  apply logs_bind; [apply logs_addRecord|intros _].
  apply IH. intros c' Hc'. apply Hin, elem_of_cons. auto.
Qed.

Lemma scope_checkPermissions (names : list string) :
  logs_only (withinScope config owner repo names)
    (checkPermissions owner repo).
Proof. unfold checkPermissions. logs. Qed.

Lemma scope_getDefaultBranch (names : list string) :
  logs_only (withinScope config owner repo names)
    (getDefaultBranch owner repo).
Proof. unfold getDefaultBranch. logs. Qed.

Lemma scope_findCandidates (names : list string) (defaultBranch : string) :
  logs_only (withinScope config owner repo names)
    (findCandidates config owner repo defaultBranch).
Proof. unfold findCandidates, getMergedPRs. logs. Qed.

Lemma scope_enableAutoDelete (names : list string) (dryRun : bool) :
  logs_only (withinScope config owner repo names)
    (enableAutoDelete owner repo dryRun).
Proof. unfold enableAutoDelete. logs. Qed.

Lemma scope_createPermissionIssue (names : list string) (n : Z)
    (dryRun : bool) :
  logs_only (withinScope config owner repo names)
    (createPermissionIssue owner repo n dryRun).
Proof. unfold createPermissionIssue. logs. Qed.

(** The [try] block of [processRepo] stays within the scope of the
    branches its own discovery returned. *)
Lemma scope_processRepo_try (dryRun : bool) :
  ∀ s r s',
    processRepo_try config dryRun owner repo s = (r, s') →
    ∃ names new,
      calls s' = calls s ++ new
      ∧ forallb (withinScope config owner repo names) new = true
      ∧ (names = []
         ∨ ∃ perms s1 d s2 s3 candidates,
             checkPermissions owner repo s = (inr perms, s1)
             ∧ getDefaultBranch owner repo s1 = (inr d, s2)
             ∧ findCandidates config owner repo d s2 = (inr candidates, s3)
             ∧ names = map branchName candidates).
Proof.
  intros s r s' Ht. unfold processRepo_try in Ht.
  assert (Happ : ∀ names (a b : list Call),
            forallb (withinScope config owner repo names) a = true →
            forallb (withinScope config owner repo names) b = true →
            forallb (withinScope config owner repo names) (a ++ b) = true).
  { intros names a b Ha Hb. rewrite forallb_app, Ha, Hb. reflexivity. }
  apply bind_inv in Ht as [(e1 & Hperm & _) | (perms & s1 & Hperm & Ht)].
  { destruct (scope_checkPermissions [] _ _ _ Hperm) as (n1 & C1 & F1).
    exists [], n1. auto. }
  destruct (canDelete perms) eqn:Hcan; cbn [negb] in Ht.
  2:{ inversion Ht; subst.
      destruct (scope_checkPermissions [] _ _ _ Hperm) as (n1 & C1 & F1).
      exists [], n1. auto. }
  apply bind_inv in Ht as [(e1 & Hd & _) | (d & s2 & Hd & Ht)].
  { destruct (scope_checkPermissions [] _ _ _ Hperm) as (n1 & C1 & F1).
    destruct (scope_getDefaultBranch [] _ _ _ Hd) as (n2 & C2 & F2).
    exists [], (n1 ++ n2). rewrite C2, C1, app_assoc. auto. }
  apply bind_inv in Ht as [(e1 & Hf & _) | (cands & s3 & Hf & Ht)].
  { destruct (scope_checkPermissions [] _ _ _ Hperm) as (n1 & C1 & F1).
    destruct (scope_getDefaultBranch [] _ _ _ Hd) as (n2 & C2 & F2).
    destruct (scope_findCandidates [] _ _ _ _ Hf) as (n3 & C3 & F3).
    exists [], ((n1 ++ n2) ++ n3). rewrite C3, C2, C1, !app_assoc.
    split; [reflexivity|]. split; [|auto].
    rewrite <- !app_assoc. auto. }
  set (names := map branchName cands).
  destruct (scope_checkPermissions names _ _ _ Hperm) as (n1 & C1 & F1).
  destruct (scope_getDefaultBranch names _ _ _ Hd) as (n2 & C2 & F2).
  destruct (scope_findCandidates names _ _ _ _ Hf) as (n3 & C3 & F3).
  assert (Hrest : ∃ n4, calls s' = calls s3 ++ n4
                        ∧ forallb (withinScope config owner repo names) n4
                          = true).
  { revert Ht. generalize s3 r s'.
    change (logs_only (withinScope config owner repo names)
              (if (length cands =? 0)%nat then ret tt
               else
                 bind (processCandidates config dryRun owner repo d cands 0)
                   (fun blockedCount =>
                      if negb (autoDeleteEnabled perms) then
                        bind (enableAutoDelete owner repo dryRun)
                          (fun enabled =>
                             if negb enabled && (0 <? blockedCount) then
                               createPermissionIssue owner repo
                                 blockedCount dryRun
                             else ret tt)
                      else ret tt))).
    destruct (length cands =? 0)%nat; [apply logs_ret|].
    apply logs_bind.
    - apply scope_processCandidates. intros c Hc.
      apply list_elem_of_fmap. exists c. auto.
    - intros blocked.
      destruct (negb (autoDeleteEnabled perms)); [|apply logs_ret].
      apply logs_bind; [apply scope_enableAutoDelete|intros enabled].
      destruct (negb enabled && (0 <? blocked));
        [apply scope_createPermissionIssue|apply logs_ret]. }
  destruct Hrest as (n4 & C4 & F4).
  exists names, (((n1 ++ n2) ++ n3) ++ n4).
  split; [rewrite C4, C3, C2, C1, !app_assoc; reflexivity|].
  split; [auto|].
  right. exists perms, s1, d, s2, s3, cands. auto.
Qed.

End ScopeFacts.

(** X19. What a pass over a repository alters, live or not: every ref
    it deletes is the head of a merged pull request that the listing of
    this very pass returned, that targets the default branch, matches
    an include pattern and no exclude pattern; every ref it creates
    lies under refs/tags/<backup prefix>/; both in the repository of
    the pass.  It deletes no tag and creates no branch. *)
Theorem processRepo_alters_only_discovered_branches {W : Type} `{Host W}
    (config : Config) (dryRun : bool) (owner repo : string) (s : Run W) :
  ∃ new,
    calls (snd (processRepo config dryRun owner repo s)) = calls s ++ new
    ∧ ∀ c, c ∈ new →
        match call_request c with
        | DeleteRef o r ref =>
            o = owner ∧ r = repo
            ∧ ∃ d mergedPRs pr,
                fst (getDefaultBranch owner repo
                       (snd (checkPermissions owner repo s))) = inr d
                ∧ fst (getMergedPRs owner repo
                         (snd (getDefaultBranch owner repo
                                 (snd (checkPermissions owner repo s)))))
                  = inr mergedPRs
                ∧ pr ∈ mergedPRs
                ∧ qualifies config d pr = true
                ∧ ref = "heads/" +:+ headRefName pr
        | PostRef o r ref _ =>
            o = owner ∧ r = repo
            ∧ String.prefix (backup_ref_prefix config) ref = true
        | _ => True
        end.
Proof.
  assert (Hsame : ∃ r s', processRepo_try config dryRun owner repo s = (r, s')
                          ∧ snd (processRepo config dryRun owner repo s) = s').
  { unfold processRepo, try_catch.
    destruct (processRepo_try config dryRun owner repo s) as [[e|u] s'];
      eauto. }
  destruct Hsame as (r & s' & Ht & ->).
  apply scope_processRepo_try in Ht as (names & new & Hc & Hall & Hnames).
  exists new. split; [exact Hc|]. intros c Hin.
  rewrite forallb_forall in Hall.
  specialize (Hall c (proj1 (list_elem_of_In _ _) Hin)).
  unfold withinScope in Hall.
  destruct (call_request c) as [| | | | |o p ref sha|o p ref| | | |];
    try exact I.
  - apply andb_true_iff in Hall as (Hall & Hpre).
    apply andb_true_iff in Hall as (Ho & Hp).
    apply String.eqb_eq in Ho, Hp. auto.
  - apply andb_true_iff in Hall as (Hall & Hex).
    apply andb_true_iff in Hall as (Ho & Hp).
    apply String.eqb_eq in Ho, Hp. split; [exact Ho|]. split; [exact Hp|].
    apply existsb_exists in Hex as (b & Hb & Href).
    apply String.eqb_eq in Href. apply list_elem_of_In in Hb.
    destruct Hnames as [->|(perms & s1 & d & s2 & s3 & cands
                            & Hperm & Hd & Hf & ->)].
    { apply elem_of_nil in Hb. contradiction. }
    apply list_elem_of_fmap in Hb as (c0 & -> & Hc0).
    apply findCandidates_spec in Hf as (prs & Hg & _ & Hfirst & _).
    destruct (Hfirst c0 Hc0) as (pr & Hpr & _).
    apply first_for_head in Hpr as (Hprin & Hq & Hhead).
    exists d, prs, pr. rewrite Hperm. cbn [snd]. rewrite Hd. cbn [fst snd].
    rewrite Hg. cbn [fst]. rewrite Hhead. auto.
Qed.

(** ** The whole run *)

Section RunFacts.

Context {W : Type} `{Host W}.

(** Every record of [processBranch] names the repository of the
    pass. *)
Lemma processBranch_repo (config : Config) (dryRun : bool)
    (owner repoName defaultBranch : string) (candidate : BranchCandidate)
    (s s' : Run W) (record : CleanupRecord) :
  processBranch config dryRun owner repoName defaultBranch candidate s
  = (inr record, s') →
  org record = owner ∧ repo record = repoName.
Proof.
  unfold processBranch. intros Hp.
  apply bind_inv in Hp as [(e & _ & Hbad) | (info & s1 & _ & Hp)];
    [discriminate|].
  destruct (bi_exists info); cbn [negb] in Hp.
  2:{ inversion Hp; subst. auto. }
  destruct (bi_protected info).
  { inversion Hp; subst. auto. }
  apply bind_inv in Hp as [(e & _ & Hbad) | (now & s2 & _ & Hp)];
    [discriminate|].
  destruct (tooRecent config now candidate).
  { inversion Hp; subst. auto. }
  unfold reachAndDelete in Hp.
  apply bind_inv in Hp as [(e & _ & Hbad) | (reach & s3 & _ & Hp)];
    [discriminate|].
  destruct reach; cbn [negb] in Hp.
  2:{ inversion Hp; subst. auto. }
  apply bind_inv in Hp as [(e & _ & Hbad) | (result & s4 & _ & Hp)];
    [discriminate|].
  inversion Hp; subst. auto.
Qed.

Lemma processCandidates_records (config : Config) (dryRun : bool)
    (owner repoName defaultBranch : string)
    (candidates : list BranchCandidate) :
  ∀ blockedCount s r s',
    processCandidates config dryRun owner repoName defaultBranch candidates
      blockedCount s = (r, s') →
    ∃ done,
      records s' = records s ++ done
      ∧ Forall (fun x => org x = owner ∧ repo x = repoName) done.
Proof.
  induction candidates as [|c rest IH]; intros b s r s' Hl.
  - inversion Hl; subst. exists []. rewrite app_nil_r. auto.
  - rewrite processCandidates_cons in Hl.
    destruct (processBranch config dryRun owner repoName defaultBranch c
                (snd (delay (per_repo_delay_ms config) s)))
      as [[e|result] s1] eqn:Hp.
    + inversion Hl; subst. exists []. rewrite app_nil_r.
      split; [|constructor].
      rewrite (keeps_processBranch _ _ _ _ _ _ _ _ _ Hp). reflexivity.
    + apply IH in Hl as (done & Hrec & Hdone).
      exists (result :: done). split.
      * rewrite Hrec. cbn [addRecord snd records].
        rewrite (keeps_processBranch _ _ _ _ _ _ _ _ _ Hp).
        cbn [delay snd records]. rewrite <- app_assoc. reflexivity.
      * constructor; [|exact Hdone].
        apply (processBranch_repo _ _ _ _ _ _ _ _ _ Hp).
Qed.

Lemma processRepo_records (config : Config) (dryRun : bool)
    (owner repoName : string) (s s' : Run W) (r : Result unit) :
  processRepo config dryRun owner repoName s = (r, s') →
  ∃ done,
    records s' = records s ++ done
    ∧ Forall (fun x => org x = owner ∧ repo x = repoName) done.
Proof.
  intros Hr.
  assert (Ht : ∃ r0,
            processRepo_try config dryRun owner repoName s = (r0, s')).
  { unfold processRepo, try_catch in Hr.
    destruct (processRepo_try config dryRun owner repoName s) as [[e|u] s0];
      inversion Hr; subst; eauto. }
  clear Hr. destruct Ht as (r0 & Ht). unfold processRepo_try in Ht.
  assert (Hnone : ∀ t : Run W, records t = records s →
            ∃ done, records t = records s ++ done
                    ∧ Forall (fun x => org x = owner
                                       ∧ repo x = repoName) done).
  { intros t Hrec. exists []. rewrite app_nil_r. auto. }
  apply bind_inv in Ht as [(e1 & Hperm & _) | (perms & s1 & Hperm & Ht)].
  { apply Hnone, (keeps_checkPermissions _ _ _ _ _ Hperm). }
  pose proof (keeps_checkPermissions _ _ _ _ _ Hperm) as R1.
  destruct (canDelete perms); cbn [negb] in Ht.
  2:{ inversion Ht; subst. auto. }
  apply bind_inv in Ht as [(e1 & Hd & _) | (d & s2 & Hd & Ht)].
  { apply Hnone. rewrite (keeps_getDefaultBranch _ _ _ _ _ Hd). exact R1. }
  pose proof (keeps_getDefaultBranch _ _ _ _ _ Hd) as R2.
  apply bind_inv in Ht as [(e1 & Hf & _) | (cands & s3 & Hf & Ht)].
  { apply Hnone. rewrite (keeps_findCandidates _ _ _ _ _ _ _ Hf).
    congruence. }
  pose proof (keeps_findCandidates _ _ _ _ _ _ _ Hf) as R3.
  destruct (length cands =? 0)%nat.
  { inversion Ht; subst. apply Hnone. congruence. }
  apply bind_inv in Ht as [(e1 & Hl & _) | (blocked & s4 & Hl & Ht)].
  { apply processCandidates_records in Hl as (done & Hrec & Hdone).
    exists done. split; [rewrite Hrec; congruence|exact Hdone]. }
  apply processCandidates_records in Hl as (done & Hrec & Hdone).
  assert (Hkeep : records s' = records s4).
  { destruct (autoDeleteEnabled perms); cbn [negb] in Ht;
      [inversion Ht; reflexivity|].
    apply bind_inv in Ht as [(e1 & Hen & _) | (enabled & s5 & Hen & Ht)].
    - apply (keeps_enableAutoDelete _ _ _ _ _ _ Hen).
    - rewrite <- (keeps_enableAutoDelete _ _ _ _ _ _ Hen).
      destruct (negb enabled && (0 <? blocked));
        [|inversion Ht; reflexivity].
      apply (keeps_createPermissionIssue _ _ _ _ _ _ _ Ht). }
  exists done. split; [rewrite Hkeep, Hrec; congruence|exact Hdone].
Qed.

Lemma repoTasks_elem (config : Config) (owner repo : string) :
  (owner, repo) ∈ repoTasks config →
  ∃ o, o ∈ orgs config ∧ fst o = owner ∧ repo ∈ snd o.
Proof.
  unfold repoTasks. intros Hin.
  apply list_elem_of_In, in_flat_map in Hin as (o & Ho & Hin).
  apply in_map_iff in Hin as (r & Heq & Hr). inversion Heq; subst.
  exists o. repeat split; apply list_elem_of_In; assumption.
Qed.

End RunFacts.

Section RunRecordFacts.

Context {W : Type} `{Host W}.

Lemma keeps_after_reports (dryRun : bool) :
  keeps_records
    (bind (writeReports (W:=W) dryRun)
       (fun _ => bind hasErrors
          (fun failed : bool => if failed then ret 1 else ret 0))).
Proof.
  apply keeps_bind.
  - intros t x t' Ht. unfold writeReports in Ht.
    destruct (fs_writeReports dryRun (records t) (world t)).
    inversion Ht; reflexivity.
  - intros _. apply keeps_bind.
    + intros t x t' Ht. inversion Ht; reflexivity.
    + intros []; apply keeps_ret.
Qed.

Lemma run_records (config : Config) (dryRun : bool)
    (schedule : list nat) (s : Run W) :
  ∃ done,
    records (snd (Interleaved.run config dryRun schedule s))
    = records s ++ done
    ∧ Forall (recorded_by config dryRun) done.
Proof.
  unfold Interleaved.run.
  destruct (Interleaved.pLimit (max_concurrency config)) as [e|limit].
  { exists []. rewrite app_nil_r. auto. }
  destruct (runPool_records config dryRun schedule
              (Interleaved.start limit (Interleaved.passes config dryRun))
              s (all_tasks_start _ _ _ (passes_steps config dryRun)))
    as (done & Hrec & Hdone).
  destruct (Interleaved.runPool schedule
              (Interleaved.start limit (Interleaved.passes config dryRun))
              s) as [[| e | p] s1]; cbn [snd] in *; eauto.
  destruct (bind (writeReports dryRun)
              (fun _ => bind hasErrors
                 (fun failed : bool => if failed then ret 1 else ret 0))
              s1) as [r s2] eqn:Hw.
  cbn [snd]. exists done.
  rewrite (keeps_after_reports dryRun _ _ _ Hw). auto.
Qed.

End RunRecordFacts.

(** X20. Whatever the concurrency and the order in which the passes
    are resumed, a run only appends to the reporter's records, and
    every record it appends names an organisation of the configuration
    and one of the repositories listed for it. *)
Theorem run_records_only_configured_repositories {W : Type} `{Host W}
    (config : Config) (dryRun : bool) (schedule : list nat) (s : Run W) :
  ∃ done,
    records (snd (Interleaved.run config dryRun schedule s))
    = records s ++ done
    ∧ Forall (fun x => ∃ o, o ∈ orgs config ∧ org x = fst o
                            ∧ repo x ∈ snd o) done.
Proof.
  destruct (run_records config dryRun schedule s) as (done & Hrec & Hdone).
  exists done. split; [exact Hrec|].
  eapply Forall_impl; [exact Hdone|].
  intros x (owner & repoName & d & c & Hin & Ho & Hr & _).
  apply repoTasks_elem in Hin as (o & Hin & Hf & Hrepo).
  exists o. subst. auto.
Qed.

(** X21. The exit code of a run.  With a concurrency below 1 [pLimit]
    throws before any pass is started and the process exits with 1.
    Otherwise, whatever the order in which the passes are resumed,
    [Promise.all] never rejects and can always be brought to resolve;
    while it is pending there is no exit code, and once it has resolved
    the process ends with 0 exactly when the reports were written and
    no record has the action Error, and with 1 otherwise.  Blocked and
    skipped branches, and repositories whose pass was cut short, do not
    by themselves make the run fail. *)
Theorem exit_code_of_a_run {W : Type} `{Host W}
    (config : Config) (dryRun : bool) (schedule : list nat) (s : Run W) :
  let pool := runPasses config dryRun schedule s in
  (max_concurrency config < 1 →
   Interleaved.exitCode config dryRun schedule s = Some 1
   ∧ snd (Interleaved.run config dryRun schedule s) = s)
  ∧ (1 ≤ max_concurrency config →
     (∀ e, fst pool ≠ Interleaved.Rejected e)
     ∧ (fst pool = Interleaved.Resolved →
        Interleaved.exitCode config dryRun schedule s
        = Some (exitAfter dryRun (snd pool)))
     ∧ (∀ q, fst pool = Interleaved.Pending q →
        Interleaved.exitCode config dryRun schedule s = None)
     ∧ ∃ more,
         let pool' := runPasses config dryRun (schedule ++ more) s in
         fst pool' = Interleaved.Resolved
         ∧ Interleaved.exitCode config dryRun (schedule ++ more) s
           = Some (exitAfter dryRun (snd pool'))).
Proof.
  cbv zeta. split.
  - intros Hc. unfold Interleaved.exitCode, Interleaved.run.
    destruct (pLimit_below_one _ Hc) as (e & ->). auto.
  - intros Hc.
    split; [intros e; apply runPasses_never_rejects|].
    split; [apply exitCode_resolved, Hc|].
    split; [intros q; apply exitCode_pending, Hc|].
    destruct (runPasses_finishes config dryRun schedule s Hc)
      as (more & Hmore).
    exists more. split; [exact Hmore|].
    apply exitCode_resolved; assumption.
Qed.

(** ** The issue cache in a dry run *)

Section CacheFacts.

Context {W : Type} `{Host W}.

Lemma cache_ret {A} (a : A) : keeps_cache (ret (W:=W) a).
Proof. intros s r s' Hr. inversion Hr; reflexivity. Qed.

Lemma cache_throw {A} (e : JsError) : keeps_cache (throw (W:=W) (A:=A) e).
Proof. intros s r s' Hr. inversion Hr; reflexivity. Qed.

Lemma cache_lift {A} (x : Result A) : keeps_cache (lift (W:=W) x).
Proof. intros s r s' Hr. inversion Hr; reflexivity. Qed.

Lemma cache_bind {A B} (m : M W A) (k : A → M W B) :
  keeps_cache m → (∀ a, keeps_cache (k a)) → keeps_cache (bind m k).
Proof.
  intros Hm Hk s r s'' Hr.
  apply bind_inv in Hr as [(e & Hr & _) | (a & s' & Hr & Hr')].
  - apply (Hm _ _ _ Hr).
  - rewrite (Hk _ _ _ _ Hr'). apply (Hm _ _ _ Hr).
Qed.

Lemma cache_try_catch {A} (m : M W A) (h : JsError → M W A) :
  keeps_cache m → (∀ e, keeps_cache (h e)) → keeps_cache (try_catch m h).
Proof.
  intros Hm Hh s r s'' Hr. unfold try_catch in Hr.
  destruct (m s) as [[e|a] s'] eqn:Em.
  - rewrite (Hh _ _ _ _ Hr). apply (Hm _ _ _ Em).
  - inversion Hr; subst. apply (Hm _ _ _ Em).
Qed.

Lemma cache_request (r : Request) : keeps_cache (request r).
Proof.
  intros s x s' Hr. rewrite request_run in Hr. inversion Hr; reflexivity.
Qed.

Lemma cache_dayjs : keeps_cache dayjs.
Proof. intros s r s' Hr. inversion Hr; reflexivity. Qed.

Lemma cache_delay (ms : Z) : keeps_cache (delay ms).
Proof. intros s r s' Hr. inversion Hr; reflexivity. Qed.

Lemma cache_addRecord (x : CleanupRecord) :
  keeps_cache (addRecord (W:=W) x).
Proof. intros s r s' Hr. inversion Hr; reflexivity. Qed.

Lemma cache_writeReports (dryRun : bool) : keeps_cache (writeReports dryRun).
Proof.
  intros s r s' Hr. unfold writeReports in Hr.
  destruct (fs_writeReports dryRun (records s) (world s)).
  inversion Hr; reflexivity.
Qed.

Lemma cache_hasErrors : keeps_cache (hasErrors (W:=W)).
Proof. intros s r s' Hr. inversion Hr; reflexivity. Qed.

End CacheFacts.

Ltac cache_step :=
  first
    [ apply cache_ret | apply cache_throw | apply cache_lift
    | match goal with
      | |- keeps_cache (request ?r) => exact (cache_request r)
      end
    | apply cache_dayjs | apply cache_delay | apply cache_addRecord
    | apply cache_writeReports | apply cache_hasErrors
    | apply cache_bind; [|intros ?]
    | apply cache_try_catch; [|intros ?]
    | match goal with
      | |- keeps_cache (if ?b then _ else _) => destruct b
      | |- keeps_cache (match ?x with _ => _ end) => destruct x
      end ].

Ltac cache := repeat cache_step.

Section DryRunCacheFacts.

Context {W : Type} `{Host W}.

Lemma cache_processBranch (config : Config) (dryRun : bool)
    (owner repo defaultBranch : string) (candidate : BranchCandidate) :
  keeps_cache
    (processBranch config dryRun owner repo defaultBranch candidate).
Proof.
  unfold processBranch, reachAndDelete, checkBranch, isBranchReachable,
    compareCommits, backupAndDelete, backupAndDelete_try, createBackupTag,
    getBackupTagName, deleteBranch.
  cache.
Qed.

Lemma cache_processCandidates (config : Config) (dryRun : bool)
    (owner repo defaultBranch : string) (candidates : list BranchCandidate) :
  ∀ blockedCount,
    keeps_cache
      (processCandidates config dryRun owner repo defaultBranch candidates
         blockedCount).
Proof.
  induction candidates as [|c rest IH]; intros b;
    cbn [processCandidates]; [apply cache_ret|].
  apply cache_bind; [apply cache_delay|intros _].
  apply cache_bind; [apply cache_processBranch|intros result].
  apply cache_bind; [apply cache_addRecord|intros _]. apply IH.
Qed.

(** In a dry run [enableAutoDelete] answers [true], so the pass never
    reaches [createPermissionIssue]. *)
Lemma cache_processRepo_dry (config : Config) (owner repo : string) :
  keeps_cache (processRepo config true owner repo).
Proof.
  unfold processRepo, processRepo_try.
  apply cache_try_catch; [|intros e; apply cache_ret].
  apply cache_bind; [unfold checkPermissions; cache|intros perms].
  destruct (negb (canDelete perms)); [apply cache_ret|].
  apply cache_bind; [unfold getDefaultBranch; cache|intros d].
  apply cache_bind;
    [unfold findCandidates, getMergedPRs; cache|intros cands].
  destruct (length cands =? 0)%nat; [apply cache_ret|].
  apply cache_bind; [apply cache_processCandidates|intros blocked].
  destruct (negb (autoDeleteEnabled perms)); [|apply cache_ret].
  unfold enableAutoDelete.
  intros s r s' Hr. unfold bind, ret in Hr. cbn [negb andb] in Hr.
  inversion Hr; reflexivity.
Qed.

(** The steps of a dry pass leave the issue cache alone. *)
Lemma StepOf_dry_cache (config : Config) (owner repoName : string)
    (X : Type) (io : M W X) :
  StepOf config true owner repoName X io → keeps_cache io.
Proof.
  intros Hstep.
  destruct Hstep as [| |d|ms|b| |d b|b|d c record Hres Ho Hr| |q Hlive
                    |b Hlive|key Hlive|key Hlive];
    try discriminate;
    unfold checkPermissions, getDefaultBranch, findCandidates,
      getMergedPRs, checkBranch, isBranchReachable, compareCommits,
      getBackupTagName, enableAutoDelete;
    cache.
Qed.

Lemma cache_run_dry (config : Config) (schedule : list nat) (s : Run W) :
  issueCache (snd (Interleaved.run config true schedule s)) = issueCache s.
Proof.
  unfold Interleaved.run.
  destruct (Interleaved.pLimit (max_concurrency config)) as [e|limit];
    [reflexivity|].
  pose proof (runPool_every (StepOfRun config true)
                (fun t => issueCache t = issueCache s)) as Hpool.
  specialize (Hpool ltac:(
    intros X io t r t' (owner & repoName & _ & Hstep) Hkeep Hio;
    rewrite (StepOf_dry_cache _ _ _ _ _ Hstep _ _ _ Hio); exact Hkeep)).
  specialize (Hpool schedule
                (Interleaved.start limit (Interleaved.passes config true))
                s (all_tasks_start _ _ _ (passes_steps config true))
                eq_refl).
  destruct (Interleaved.runPool schedule
              (Interleaved.start limit (Interleaved.passes config true)) s)
    as [[| e | p] s1]; cbn [snd] in *; try exact Hpool.
  destruct (bind (writeReports true)
              (fun _ => bind hasErrors
                 (fun failed : bool => if failed then ret 1 else ret 0))
              s1) as [r s2] eqn:Hw.
  cbn [snd]. rewrite <- Hpool. revert Hw. generalize s1 r s2.
  change (keeps_cache
            (bind (writeReports (W:=W) true)
               (fun _ => bind hasErrors
                  (fun failed : bool => if failed then ret 1 else ret 0)))).
  cache.
Qed.

End DryRunCacheFacts.

(** X22. A dry run leaves the issue cache of the permission handler as
    it was, whatever the concurrency and the order in which the passes
    are resumed: [enableAutoDelete] answers [true] without a request,
    so no pass reaches [createPermissionIssue]. *)
Theorem dry_run_never_escalates {W : Type} `{Host W} (config : Config)
    (schedule : list nat) (s : Run W) :
  issueCache (snd (Interleaved.run config true schedule s)) = issueCache s.
Proof. apply cache_run_dry. Qed.

(** ** The records of one pass *)

Section PassFacts.

Context {W : Type} `{Host W}.

Lemma produced_by_branches (config : Config) (dryRun : bool)
    (owner repoName d : string) (done : list CleanupRecord)
    (candidates : list BranchCandidate) :
  Forall2 (produced_by config dryRun owner repoName d) done candidates →
  map branch done = map branchName candidates.
Proof.
  induction 1 as [|x c done cands (Hb & _) _ IH]; [reflexivity|].
  cbn [map]. rewrite Hb, IH. reflexivity.
Qed.

Lemma qualifies_matches (config : Config) (d : string) (pr : MergedPR) :
  qualifies config d pr = true →
  matchesPatterns config (headRefName pr) = inr true.
Proof.
  unfold qualifies. intros Hq. apply andb_true_iff in Hq as (_ & Hq).
  destruct (matchesPatterns config (headRefName pr)) as [e|[|]];
    try discriminate.
  reflexivity.
Qed.

(** Where the records stand when the [try] block of [processRepo]
    completes. *)
Lemma processRepo_try_completed (config : Config) (dryRun : bool)
    (owner repoName : string) (s s' : Run W) :
  processRepo_try config dryRun owner repoName s = (inr tt, s') →
  ∃ done,
    records s' = records s ++ done
    ∧ (done = []
       ∨ ∃ perms s1 d s2 candidates s3,
           checkPermissions owner repoName s = (inr perms, s1)
           ∧ getDefaultBranch owner repoName s1 = (inr d, s2)
           ∧ findCandidates config owner repoName d s2
             = (inr candidates, s3)
           ∧ Forall2 (produced_by config dryRun owner repoName d)
               done candidates).
Proof.
  unfold processRepo_try. intros Ht.
  apply bind_inv in Ht as [(e1 & _ & Hbad) | (perms & s1 & Hperm & Ht)];
    [discriminate|].
  pose proof (keeps_checkPermissions _ _ _ _ _ Hperm) as R1.
  destruct (canDelete perms); cbn [negb] in Ht.
  2:{ inversion Ht; subst. exists []. rewrite app_nil_r. auto. }
  apply bind_inv in Ht as [(e1 & _ & Hbad) | (d & s2 & Hd & Ht)];
    [discriminate|].
  pose proof (keeps_getDefaultBranch _ _ _ _ _ Hd) as R2.
  apply bind_inv in Ht as [(e1 & _ & Hbad) | (cands & s3 & Hf & Ht)];
    [discriminate|].
  pose proof (keeps_findCandidates _ _ _ _ _ _ _ Hf) as R3.
  destruct (length cands =? 0)%nat.
  { inversion Ht; subst. exists []. rewrite app_nil_r.
    split; [congruence|auto]. }
  apply bind_inv in Ht as [(e1 & _ & Hbad) | (blocked & s4 & Hl & Ht)];
    [discriminate|].
  apply processCandidates_completed in Hl as (done & Hrec & Hdone).
  assert (Hkeep : records s' = records s4).
  { destruct (autoDeleteEnabled perms); cbn [negb] in Ht;
      [inversion Ht; reflexivity|].
    apply bind_inv in Ht as [(e1 & _ & Hbad) | (enabled & s5 & Hen & Ht)];
      [discriminate|].
    rewrite <- (keeps_enableAutoDelete _ _ _ _ _ _ Hen).
    destruct (negb enabled && (0 <? blocked));
      [|inversion Ht; reflexivity].
    apply (keeps_createPermissionIssue _ _ _ _ _ _ _ Ht). }
  exists done. split; [rewrite Hkeep, Hrec; congruence|].
  right. exists perms, s1, d, s2, cands, s3. auto.
Qed.

(** The branches of a prefix of the candidates of one discovery. *)
Lemma discovered_prefix (config : Config) (owner repoName d : string)
    (s2 s3 : Run W) (pre post : list BranchCandidate) :
  findCandidates config owner repoName d s2 = (inr (pre ++ post), s3) →
  NoDup (map branchName pre)
  ∧ Forall (fun b => matchesPatterns config b = inr true
                     ∧ isExcluded config b = inr false)
      (map branchName pre).
Proof.
  intros Hf.
  pose proof (findCandidates_spec _ _ _ _ _ _ _ Hf)
    as (prs & _ & Hnd & Hfirst & _).
  rewrite map_app in Hnd. apply NoDup_app in Hnd as (Hnd & _).
  split; [exact Hnd|].
  apply Forall_forall. intros b Hb.
  apply list_elem_of_fmap in Hb as (c & -> & Hc).
  destruct (Hfirst c) as (pr & Hpr & ->);
    [apply elem_of_app; auto|].
  apply first_for_head in Hpr as (_ & Hq & _). cbn [candidate_of branchName].
  split; [apply (qualifies_matches _ _ _ Hq)
         |apply (qualifies_not_excluded _ _ _ Hq)].
Qed.

End PassFacts.

(** X23. However a pass over a repository ends, no branch is recorded
    twice by it, and every branch it records matches an include
    pattern and no exclude pattern. *)
Theorem processRepo_records_each_branch_once {W : Type} `{Host W}
    (config : Config) (dryRun : bool) (owner repoName : string) (s : Run W) :
  ∃ done,
    records (snd (processRepo config dryRun owner repoName s))
    = records s ++ done
    ∧ NoDup (map branch done)
    ∧ Forall (fun b => matchesPatterns config b = inr true
                       ∧ isExcluded config b = inr false)
        (map branch done).
Proof.
  unfold processRepo, try_catch.
  destruct (processRepo_try config dryRun owner repoName s)
    as [[e|[]] s'] eqn:Ht; cbn [snd ret].
  - apply processRepo_try_interrupted in Ht as (done & Hrec & Hdone).
    exists done. split; [exact Hrec|].
    destruct Hdone as [->|(perms & s1 & d & s2 & cands & s3
                           & _ & _ & Hf & Hdone)].
    { split; constructor. }
    destruct Hdone as [(pre & c & post & t & -> & Hdone & _)|Hdone].
    + rewrite (produced_by_branches _ _ _ _ _ _ _ Hdone).
      apply (discovered_prefix _ _ _ _ _ _ _ _ Hf).
    + rewrite (produced_by_branches _ _ _ _ _ _ _ Hdone).
      rewrite <- (app_nil_r cands) in Hf.
      apply (discovered_prefix _ _ _ _ _ _ _ _ Hf).
  - apply processRepo_try_completed in Ht as (done & Hrec & Hdone).
    exists done. split; [exact Hrec|].
    destruct Hdone as [->|(perms & s1 & d & s2 & cands & s3
                           & _ & _ & Hf & Hdone)].
    { split; constructor. }
    rewrite (produced_by_branches _ _ _ _ _ _ _ Hdone).
    rewrite <- (app_nil_r cands) in Hf.
    apply (discovered_prefix _ _ _ _ _ _ _ _ Hf).
Qed.

(** ** An escalation issue that is already open *)

(** X24. A live call for a repository that is not in the cache and has
    an open issue with the escalation title among the listed ones makes
    the one listing request, creates nothing, and caches the
    repository. *)
Theorem createPermissionIssue_finds_the_open_issue {W : Type} `{Host W}
    (owner repo : string) (blockedCount : Z) (s : Run W)
    (existingIssues : list string) (w' : W) :
  bool_decide (owner +:+ "/" +:+ repo ∈ issueCache s) = false →
  octokit_request (GetIssues owner repo) (world s)
  = (inr existingIssues, w') →
  issue_title ∈ existingIssues →
  createPermissionIssue owner repo blockedCount false s
  = (inr tt,
     {| world := w';
        calls := calls s ++ [mkCall (GetIssues owner repo) true];
        issueCache := {[owner +:+ "/" +:+ repo]} ∪ issueCache s;
        records := records s |}).
Proof.
  intros Hfresh Hget Hin.
  unfold createPermissionIssue, issueCache_has, bind at 1.
  rewrite Hfresh.
  unfold try_catch, bind. rewrite request_run, Hget. cbn [fst snd is_ok].
  assert (Hex : existsb (fun issue => String.eqb issue issue_title)
                  existingIssues = true).
  { apply existsb_exists. exists issue_title.
    split; [apply list_elem_of_In, Hin|apply String.eqb_refl]. }
  rewrite Hex. reflexivity.
Qed.

Lemma createPermissionIssue_finds_the_open_issue_witness :
  let s := GitHubModel.start MoreSamples.escalated_world in
  bool_decide ("acme" +:+ "/" +:+ "app" ∈ issueCache s) = false
  ∧ octokit_request (GetIssues "acme" "app") (world s)
    = (inr ["Unrelated"; issue_title], MoreSamples.escalated_world)
  ∧ issue_title ∈ ["Unrelated"; issue_title]
  ∧ createPermissionIssue "acme" "app" 3 false s
    = (inr tt,
       {| world := MoreSamples.escalated_world;
          calls := calls s ++ [mkCall (GetIssues "acme" "app") true];
          issueCache := {["acme" +:+ "/" +:+ "app"]} ∪ issueCache s;
          records := records s |}).
Proof.
  cbv zeta.
  assert (Hfresh : bool_decide
                     ("acme" +:+ "/" +:+ "app"
                      ∈ issueCache
                          (GitHubModel.start MoreSamples.escalated_world))
                   = false) by (vm_compute; reflexivity).
  assert (Hin : issue_title ∈ ["Unrelated"; issue_title])
    by (apply elem_of_cons; right; apply elem_of_cons; left; reflexivity).
  split; [exact Hfresh|]. split; [reflexivity|]. split; [exact Hin|].
  exact (createPermissionIssue_finds_the_open_issue "acme" "app" 3
           (GitHubModel.start MoreSamples.escalated_world)
           ["Unrelated"; issue_title] MoreSamples.escalated_world
           Hfresh eq_refl Hin).
Defined.

(** ** Helpers of the miner bridge *)

Module SliceFacts.
Import JsMore.

Lemma length_append (a b : string) :
  String.length (a +:+ b) = (String.length a + String.length b)%nat.
Proof.
  induction a as [|c a IH];
    rewrite ?SplitFacts.append_nil, ?SplitFacts.append_cons;
    cbn [String.length]; [reflexivity|]. rewrite IH. reflexivity.
Qed.

Lemma substring_whole (s : string) :
  String.substring 0 (String.length s) s = s.
Proof.
  induction s as [|c s IH]; cbn [String.length String.substring];
    [reflexivity|]. rewrite IH. reflexivity.
Qed.

Lemma substring_append (a b : string) (n : nat) :
  String.substring (String.length a) n (a +:+ b) = String.substring 0 n b.
Proof.
  induction a as [|c a IH];
    rewrite ?SplitFacts.append_nil, ?SplitFacts.append_cons;
    cbn [String.length String.substring]; [reflexivity|exact IH].
Qed.

Lemma sliceLast_append (a b : string) :
  sliceLast (String.length b) (a +:+ b) = b.
Proof.
  unfold sliceLast, Js.drop. rewrite length_append.
  replace (String.length a + String.length b - String.length b)%nat
    with (String.length a) by lia.
  rewrite substring_append.
  replace (String.length a + String.length b - String.length a)%nat
    with (String.length b) by lia.
  apply substring_whole.
Qed.

End SliceFacts.

(** X25. Of a secret of more than eight UTF-16 code units [redact]
    shows the first four and the last four and nothing of what lies
    between: secrets that differ only there are printed alike. *)
Theorem redact_hides_the_middle (a mid b : Bridge.Utf16) :
  length a = 4%nat → length b = 4%nat → mid ≠ [] →
  Bridge.redact (Some (a ++ mid ++ b)) = a ++ Bridge.stars ++ b.
Proof.
  intros Ha Hb Hmid. unfold Bridge.redact.
  assert (Hpos : (0 < length mid)%nat)
    by (destruct mid; [contradiction|cbn; lia]).
  assert (Hlen : length (a ++ mid ++ b) = (8 + length mid)%nat)
    by (rewrite !length_app; lia).
  destruct (Nat.eqb_spec (length (a ++ mid ++ b)) 0) as [H0|_]; [lia|].
  destruct (Nat.leb_spec (length (a ++ mid ++ b)) 8) as [Hle|_]; [lia|].
  assert (Hto : take 4 (a ++ mid ++ b) = a)
    by (rewrite <- Ha; apply take_app_length).
  assert (Hlast : drop (length (a ++ mid ++ b) - 4) (a ++ mid ++ b) = b).
  { rewrite app_assoc.
    replace (length ((a ++ mid) ++ b) - 4)%nat with (length (a ++ mid))
      by (rewrite !length_app; lia).
    apply drop_app_length. }
  rewrite Hto, Hlast. reflexivity.
Qed.

Lemma redact_hides_the_middle_witness :
  let a : Bridge.Utf16 := [103; 104; 112; 95] in
  let mid : Bridge.Utf16 := [8364; 49] in
  let b : Bridge.Utf16 := [57; 233; 55357; 56832] in
  length a = 4%nat
  ∧ length b = 4%nat
  ∧ mid ≠ []
  ∧ Bridge.redact (Some (a ++ mid ++ b)) = a ++ Bridge.stars ++ b.
Proof.
  cbv zeta.
  split; [reflexivity|]. split; [reflexivity|]. split; [discriminate|].
  apply (redact_hides_the_middle [103; 104; 112; 95] [8364; 49]
           [57; 233; 55357; 56832]); [reflexivity|reflexivity|discriminate].
Defined.

(** X26. A secret of one or two code units is not hidden by [redact]:
    it is printed in full on both sides of the stars. *)
Theorem redact_discloses_a_short_secret (secret : Bridge.Utf16) :
  (0 < length secret <= 2)%nat →
  Bridge.redact (Some secret) = secret ++ Bridge.stars ++ secret.
Proof.
  intros Hlen. unfold Bridge.redact.
  destruct (Nat.eqb_spec (length secret) 0) as [H0|_]; [lia|].
  destruct (Nat.leb_spec (length secret) 8) as [_|Hgt]; [|lia].
  rewrite take_ge by lia.
  replace (length secret - 2)%nat with 0%nat by lia. reflexivity.
Qed.

Lemma redact_discloses_a_short_secret_witness :
  let secret : Bridge.Utf16 := [233; 8364] in
  (0 < length secret <= 2)%nat
  ∧ Bridge.redact (Some secret) = secret ++ Bridge.stars ++ secret.
Proof.
  cbv zeta. split; [simpl; lia|].
  apply (redact_discloses_a_short_secret [233; 8364]). simpl; lia.
Defined.

Lemma endsWith_slash_appended (url : string) :
  JsMore.endsWith (url +:+ "/") "/" = true.
Proof.
  unfold JsMore.endsWith.
  rewrite (SliceFacts.sliceLast_append url "/"). reflexivity.
Qed.

(** X27. The endpoint of [cpuminerRequest] always ends with a slash;
    it is the given URL or that URL followed by one slash, and
    normalising twice changes nothing. *)
Theorem cpuminerEndpoint_ends_with_a_slash (url : string) :
  JsMore.endsWith (Bridge.cpuminerEndpoint url) "/" = true
  ∧ Bridge.cpuminerEndpoint (Bridge.cpuminerEndpoint url)
    = Bridge.cpuminerEndpoint url
  ∧ (Bridge.cpuminerEndpoint url = url
     ∨ Bridge.cpuminerEndpoint url = url +:+ "/").
Proof.
  assert (Hkept : ∀ u, JsMore.endsWith u "/" = true →
                       Bridge.cpuminerEndpoint u = u).
  { intros u Hu. unfold Bridge.cpuminerEndpoint. rewrite Hu. reflexivity. }
  destruct (JsMore.endsWith url "/") eqn:Hends.
  - rewrite !(Hkept url Hends). auto.
  - assert (Happ : Bridge.cpuminerEndpoint url = url +:+ "/")
      by (unfold Bridge.cpuminerEndpoint; rewrite Hends; reflexivity).
    rewrite Happ, (Hkept _ (endsWith_slash_appended url)).
    split; [apply endsWith_slash_appended|auto].
Qed.

(** ** The gates taken together *)

(** X28. [processBranch] issues a mutating request only in a live run
    and only past every gate: the branch lookup found the branch and
    found it unprotected, the age gate did not fire at that moment, and
    the comparison said the branch is reachable from the default
    branch.  In every other case all it adds to the log are reads. *)
Theorem processBranch_mutates_only_past_every_gate {W : Type} `{Host W}
    (config : Config) (dryRun : bool) (owner repo defaultBranch : string)
    (candidate : BranchCandidate) (s : Run W) :
  ∃ new,
    calls (snd (processBranch config dryRun owner repo defaultBranch
                  candidate s))
    = calls s ++ new
    ∧ (forallb readonly new = true
       ∨ dryRun = false
         ∧ ∃ info s1 s2,
             checkBranch owner repo (branchName candidate) s = (inr info, s1)
             ∧ bi_exists info = true
             ∧ bi_protected info = false
             ∧ tooRecent config (dayjs_now (world s1)) candidate = None
             ∧ isBranchReachable owner repo defaultBranch
                 (branchName candidate) s1 = (inr true, s2)).
Proof.
  destruct dryRun.
  { destruct (processBranch config true owner repo defaultBranch candidate s)
      as [r s'] eqn:Hp.
    destruct (readonly_processBranch_dry _ _ _ _ _ _ _ _ Hp) as (new & Hc & Hf).
    exists new. auto. }
  unfold processBranch.
  destruct (checkBranch owner repo (branchName candidate) s)
    as [[e|info] s1] eqn:Hcheck.
  { rewrite (bind_inl _ _ _ _ _ Hcheck). cbn [snd].
    destruct (readonly_checkBranch _ _ _ _ _ _ Hcheck) as (n1 & C1 & F1).
    exists n1. auto. }
  rewrite (bind_inr _ _ _ _ _ Hcheck).
  destruct (readonly_checkBranch _ _ _ _ _ _ Hcheck) as (n1 & C1 & F1).
  destruct (bi_exists info) eqn:Hex; cbn [negb].
  2:{ exists n1. auto. }
  destruct (bi_protected info) eqn:Hprot.
  { exists n1. auto. }
  rewrite (bind_inr _ _ _ _ _ (dayjs_run s1)).
  destruct (tooRecent config (dayjs_now (world s1)) candidate) eqn:Hage.
  { exists n1. auto. }
  unfold reachAndDelete.
  destruct (isBranchReachable owner repo defaultBranch (branchName candidate)
              s1) as [[e|reach] s2] eqn:Hreach.
  { rewrite (bind_inl _ _ _ _ _ Hreach). cbn [snd].
    destruct (readonly_isBranchReachable _ _ _ _ _ _ _ Hreach)
      as (n2 & C2 & F2).
    exists (n1 ++ n2). rewrite C2, C1, app_assoc. split; [reflexivity|].
    left. rewrite forallb_app, F1, F2. reflexivity. }
  rewrite (bind_inr _ _ _ _ _ Hreach).
  destruct (readonly_isBranchReachable _ _ _ _ _ _ _ Hreach)
    as (n2 & C2 & F2).
  destruct reach; cbn [negb].
  2:{ unfold ret. cbn [snd].
      exists (n1 ++ n2). rewrite C2, C1, app_assoc. split; [reflexivity|].
      left. rewrite forallb_app, F1, F2. reflexivity. }
  destruct (backupAndDelete (safety config) owner repo (branchName candidate)
              (sha candidate) false s2) as [res s3] eqn:Hdel.
  assert (Hlog : logs_only (fun _ => true)
                   (backupAndDelete (safety config) owner repo
                      (branchName candidate) (sha candidate) false)).
  { unfold backupAndDelete, backupAndDelete_try, createBackupTag,
      getBackupTagName, deleteBranch. logs. }
  destruct (Hlog _ _ _ Hdel) as (n3 & C3 & _).
  destruct (backupAndDelete_total (safety config) owner repo
              (branchName candidate) (sha candidate) false s2)
    as (result & s3' & Hres).
  rewrite Hdel in Hres. inversion Hres; subst res s3'.
  rewrite (bind_inr _ _ _ _ _ Hdel). unfold ret. cbn [snd].
  exists ((n1 ++ n2) ++ n3). rewrite C3, C2, C1, !app_assoc.
  split; [reflexivity|]. right. split; [reflexivity|].
  exists info, s1, s2. auto.
Qed.
